(** * cgsph: the SPH code generator, embedded and verified

    A shallow embedding of [cgsph.py] (the generator that turns a list of SPH
    equations, a kernel, a neighbour locator and a set of particle arrays
    into the text of one Cython routine), followed by the properties that the
    design document states about it.

    Conventions of the embedding.
    - Python [str] is [string]; [+:+] is concatenation.
    - A raised exception is the left injection of [result]; statements are
      sequenced with [let*].
    - An insertion-ordered store [list (string * V)] stands for every
      dictionary.  [OrderedDict] iterates it as it is.  The module is
      Python 2 code ([iteritems]), where a plain [dict], a [defaultdict] and
      a [set] iterate in an order the language leaves open: that order is the
      parameter [IterationOrder] below, and every definition that iterates
      one of them goes through it.
    - [textwrap.dedent] is applied to literal templates; the templates are
      written here already dedented (names substituted into them are
      identifiers and hold no line break). *)

From Stdlib Require Import Ascii DecimalString ZArith Lia.
From Stdlib Require String.
From stdpp Require Import base list strings.

Local Open Scope Z_scope.
Local Open Scope nat_scope.

(* ===================================================================== *)
(** ** Exceptions and the error monad *)
(* ===================================================================== *)

Inductive PyError : Type :=
| ValueError (msg : string)
| TypeError (msg : string)
| AttributeError (msg : string)
| NotImplementedError
| VariableNameClashError (msg : string).

Definition result (A : Type) : Type := (PyError + A)%type.

Definition ret {A} (a : A) : result A := inr a.
Definition raise {A} (e : PyError) : result A := inl e.
Definition bind {A B} (m : result A) (k : A -> result B) : result B :=
  match m with
  | inl e => inl e
  | inr a => k a
  end.

Notation "'let*' x ':=' m 'in' k" := (bind m (fun x => k))
  (at level 10, x pattern, m at level 100, k at level 200).

(** [for x in l: s = body(x, s)], stopping at the first exception. *)
Fixpoint for_each {A S} (l : list A) (body : A -> S -> result S) (s : S)
  : result S :=
  match l with
  | [] => ret s
  | x :: l' => let* s' := body x s in for_each l' body s'
  end.

(** Iterating over a value that may be [None]. *)
Definition iter {A} (o : option (list A)) : result (list A) :=
  match o with
  | Some l => ret l
  | None => raise (TypeError "'NoneType' object is not iterable")
  end.

Definition is_ok {A} (r : result A) : Prop := exists a, r = inr a.

(* ===================================================================== *)
(** ** Strings *)
(* ===================================================================== *)

Definition LF : ascii := "010"%char.
Definition CR : ascii := "013"%char.
Definition nl : string := String LF "".

(** ['sep'.join(l)] *)
Fixpoint join (sep : string) (l : list string) : string :=
  match l with
  | [] => ""
  | [x] => x
  | x :: l' => x +:+ sep +:+ join sep l'
  end.

(** [s.startswith(p)] *)
Fixpoint startswith (s p : string) {struct p} : bool :=
  match p with
  | EmptyString => true
  | String a p' =>
      match s with
      | EmptyString => false
      | String b s' => Ascii.eqb a b && startswith s' p'
      end
  end.

(** [s[n:]] *)
Fixpoint string_drop (n : nat) (s : string) : string :=
  match n, s with
  | S n', String _ s' => string_drop n' s'
  | _, _ => s
  end.

(** [n * ' '] for an integer [n]: empty when [n] is not positive. *)
Definition spaces (n : Z) : string :=
  String.string_of_list_ascii (replicate (Z.to_nat n) " "%char).

(** ['%d' % n] *)
Definition string_of_nat (n : nat) : string :=
  NilEmpty.string_of_uint (Nat.to_uint n).

(** [s.replace(old, new)] for a non-empty [old]: the occurrences of [old]
    are found from left to right without overlap; [skip] counts the
    characters of a matched occurrence still to be passed over. *)
Fixpoint replace_from (old new : string) (skip : nat) (s : string) : string :=
  match s with
  | EmptyString => EmptyString
  | String c s' =>
      match skip with
      | S k => replace_from old new k s'
      | O =>
          if startswith s old
          then new +:+ replace_from old new (String.length old - 1) s'
          else String c (replace_from old new 0 s')
      end
  end.

(** For the empty pattern Python puts [new] around every character. *)
Fixpoint intersperse_str (new s : string) : string :=
  match s with
  | EmptyString => new
  | String c s' => new +:+ String c (intersperse_str new s')
  end.

Definition replace (s old new : string) : string :=
  match old with
  | EmptyString => intersperse_str new s
  | _ => replace_from old new 0 s
  end.

(** [s.splitlines()] of a Python 2 [str]: lines end at LF, CR or CR LF, the
    terminators are dropped, and nothing follows a final terminator.
    [cur] is the line being read, [None] when no character of it was seen. *)
Fixpoint splitlines_from (cur : option string) (s : string) : list string :=
  match s with
  | EmptyString =>
      match cur with
      | None => []
      | Some l => [l]
      end
  | String c s' =>
      if Ascii.eqb c LF then default "" cur :: splitlines_from None s'
      else if Ascii.eqb c CR then
        default "" cur ::
          match s' with
          | String c' s'' =>
              if Ascii.eqb c' LF then splitlines_from None s''
              else splitlines_from None s'
          | EmptyString => splitlines_from None s'
          end
      else splitlines_from (Some (default "" cur +:+ String c "")) s'
  end.

Definition splitlines (s : string) : list string := splitlines_from None s.

(** [repr] of a list of class names, as ['%s' % names] prints it.  A class
    name is an identifier, so its own [repr] is the name in single quotes. *)
Definition repr_str (s : string) : string := "'" +:+ s +:+ "'".
Definition repr_list (l : list string) : string :=
  "[" +:+ join ", " (repr_str <$> l) +:+ "]".

(* ===================================================================== *)
(** ** Dictionaries *)
(* ===================================================================== *)

(** The store of a dictionary, in the order its keys were first inserted. *)
Abbreviation pydict V := (list (string * V)).

Fixpoint getitem {V} (k : string) (d : pydict V) : option V :=
  match d with
  | [] => None
  | (k', v) :: d' => if decide (k = k') then Some v else getitem k d'
  end.

(** [k in d] *)
Definition contains {V} (k : string) (d : pydict V) : bool :=
  match getitem k d with
  | Some _ => true
  | None => false
  end.

(** [d[k] = v]: an existing key keeps its place. *)
Fixpoint setitem {V} (k : string) (v : V) (d : pydict V) : pydict V :=
  match d with
  | [] => [(k, v)]
  | (k', v') :: d' =>
      if decide (k = k') then (k, v) :: d' else (k', v') :: setitem k v d'
  end.

(** [d[k].append(x)] on a [defaultdict(list)]. *)
Fixpoint append_item {V} (k : string) (x : V) (d : pydict (list V))
  : pydict (list V) :=
  match d with
  | [] => [(k, [x])]
  | (k', xs) :: d' =>
      if decide (k = k') then (k, xs ++ [x]) :: d'
      else (k', xs) :: append_item k x d'
  end.

(** [d = {}; for k in ks: d[k] = None], as its key store. *)
Definition keys_of_list (ks : list string) : pydict unit :=
  fold_left (fun d k => setitem k tt d) ks [].

(** The elements of a list in the order of their first occurrence. *)
Definition first_seen_step {A} `{EqDecision A} (acc : list A) (x : A)
  : list A :=
  if decide (x ∈ acc) then acc else acc ++ [x].

Definition first_seen {A} `{EqDecision A} (l : list A) : list A :=
  fold_left first_seen_step l [].

(* ===================================================================== *)
(** ** Data model *)
(* ===================================================================== *)

(** [Variable(type, name, default=None)]; [var_default] holds the text that
    [format] prints for the default. *)
Record Variable_ : Type := {
  var_type : string;
  var_name : string;
  var_default : option string
}.

(** [class Temporary(Variable): pass] *)
Definition Temporary : Type := Variable_.

Definition declare (v : Variable_) : string :=
  match var_default v with
  | Some d => "cdef " +:+ var_type v +:+ " " +:+ var_name v +:+ " = " +:+ d
  | None => "cdef " +:+ var_type v +:+ " " +:+ var_name v
  end.

Definition initialize (v : Variable_) : string :=
  match var_default v with
  | Some d => var_name v +:+ " = " +:+ d
  | None => ""
  end.

(** The dictionary a [cython_code()] call returns; [None] is an absent key. *)
Record Code : Type := {
  variables : option (list Variable_);
  temporaries : option (list Temporary);
  arrays : option (list string);
  loop : option string;
  post : option string;
  helper : option string;
  setup : option string
}.

Definition no_code : Code :=
  {| variables := None; temporaries := None; arrays := None; loop := None;
     post := None; helper := None; setup := None |}.

(** An equation of some concrete kind: its class name, the two attributes
    the constructor stores, and what its [cython_code()] returns.
    [sources] is whatever the caller passed: a list, or [None]. *)
Record Equation : Type := {
  eq_class : string;
  dest : string;
  sources : option (list string);
  eq_code : Code
}.

Record Group : Type := { equations : list Equation }.

(** An element of the list handed to [SPHEval]. *)
Inductive Element : Type :=
| AnEquation (e : Equation)
| AGroup (g : Group).

Record Kernel : Type := {
  kernel_class : string;
  kernel_code : Code
}.

(** [locator_code] is [None] for the base class [Locator], whose
    [cython_code] raises [NotImplementedError]. *)
Record Locator : Type := {
  locator_class : string;
  locator_code : option Code
}.

(** A particle array, as far as the generator reads it: its name and the
    keys of its [properties]. *)
Record ParticleArray : Type := {
  pa_name : string;
  properties : list string
}.

Global Instance Variable_eq_dec : EqDecision Variable_.
Proof. solve_decision. Defined.
Global Instance Code_eq_dec : EqDecision Code.
Proof. solve_decision. Defined.
Global Instance Equation_eq_dec : EqDecision Equation.
Proof. solve_decision. Defined.

(** The classes the module itself defines. *)
Definition CubicSpline : Kernel :=
  {| kernel_class := "CubicSpline";
     kernel_code :=
       {| variables := None; temporaries := None; arrays := None;
          loop := None; post := None;
          helper := Some
            ("double cdef CubicSplineKernel(double x, double y, double h):"
             +:+ nl +:+ "    return 1.0" +:+ nl);
          setup := None |} |}.

Definition SummationDensity_code : Code :=
  {| variables := Some [ {| var_type := "double"; var_name := "rho_sum";
                            var_default := Some "0.0" |} ];
     temporaries := Some [ {| var_type := "double"; var_name := "hab";
                              var_default := Some "0.0" |} ];
     arrays := Some ["s_h"; "s_m"; "s_x"; "d_h"; "d_x"; "d_rho"];
     loop := Some
       ("hab = 0.5*(s_h[s_idx] + d_h[d_idx])" +:+ nl +:+
        "rho_sum += s_m[s_idx]*KERNEL(d_x[d_idx], s_x[s_idx], hab)" +:+ nl);
     post := Some ("d_rho[d_idx] = rho_sum" +:+ nl);
     helper := None;
     setup := None |}.

Definition SummationDensity (dest : string) (sources : option (list string))
  : Equation :=
  {| eq_class := "SummationDensity"; dest := dest; sources := sources;
     eq_code := SummationDensity_code |}.

Definition Locator_base : Locator :=
  {| locator_class := "Locator"; locator_code := None |}.

Definition AllPairLocator : Locator :=
  {| locator_class := "AllPairLocator";
     locator_code := Some
       {| variables := None; temporaries := None; arrays := None;
          loop := None; post := None;
          helper := Some (join nl [
            "cdef class AllPairLocator:";
            "    cdef long N";
            "    cdef LongArray nbrs";
            "    def __init__(self, s_x, s_h, d_x, d_h):";
            "        self.N = len(s_x)";
            "        self.nbrs = LongArray(self.N)";
            "        cdef long i";
            "        for i in range(self.N):";
            "            self.nbrs[i] = i";
            "";
            "    def get_neighbors(long d_idx, LongArray nbr_array):";
            "        nbr_array.resize(self.N)";
            "        nbr_array.copy_values(self.nbrs)";
            "" ]);
          setup := Some
            ("locator = AllPairLocator(s_x, s_h, d_x, d_h)" +:+ nl) |} |}.

(* ===================================================================== *)
(** ** Iteration order of unordered containers *)
(* ===================================================================== *)

(** What the interpreter decides: the order in which a plain dictionary, a
    set of strings and a set of objects are iterated, given their entries in
    insertion order.  Each is a rearrangement of the entries and nothing
    more is known of it. *)
Class IterationOrder : Type := {
  dict_order : forall {V : Type}, pydict V -> pydict V;
  set_order : list string -> list string;
  object_order : list Equation -> list Equation;
  dict_order_perm : forall V (d : pydict V), dict_order d ≡ₚ d;
  set_order_perm : forall l, set_order l ≡ₚ l;
  object_order_perm : forall l, object_order l ≡ₚ l
}.

(** An interpreter whose containers keep insertion order. *)
Definition insertion_order : IterationOrder :=
  {| dict_order := fun V d => d;
     set_order := fun l => l;
     object_order := fun l => l;
     dict_order_perm := fun V d => reflexivity d;
     set_order_perm := fun l => reflexivity l;
     object_order_perm := fun l => reflexivity l |}.

(** An interpreter whose containers iterate newest entry first. *)
Definition newest_first : IterationOrder :=
  {| dict_order := fun V d => reverse d;
     set_order := fun l => reverse l;
     object_order := fun l => reverse l;
     dict_order_perm := fun V d => reverse_Permutation d;
     set_order_perm := fun l => reverse_Permutation l;
     object_order_perm := fun l => reverse_Permutation l |}.

(* ===================================================================== *)
(** ** [SourceCode]: the indentation-tracked text buffer *)
(* ===================================================================== *)

Module SourceCode.

(** [code] holds what was passed to [add], which may be [None], with the
    level at that time. *)
Record t : Type := {
  code : list (option string * Z);
  level : Z
}.

Definition new : t := {| code := []; level := 0%Z |}.

Definition indent (self : t) : t :=
  {| code := code self; level := (level self + 1)%Z |}.

Definition dedent (self : t) : t :=
  {| code := code self; level := (level self - 1)%Z |}.

Definition add (c : option string) (self : t) : t :=
  {| code := code self ++ [(c, level self)]; level := level self |}.

Definition _indented_code (c : option string) (l : Z) : result string :=
  match c with
  | None =>
      raise (AttributeError
               "'NoneType' object has no attribute 'splitlines'")
  | Some c =>
      let indent := spaces (l * 4) in
      ret (join nl ((fun line => indent +:+ line) <$> splitlines c))
  end.

Definition get (self : t) : result string :=
  let* src :=
    for_each (code self)
      (fun '(c, l) acc => let* s := _indented_code c l in ret (acc ++ [s]))
      [] in
  ret (join nl src).

End SourceCode.

(* ===================================================================== *)
(** ** Module-level functions *)
(* ===================================================================== *)

Definition is_group (x : Element) : bool :=
  match x with
  | AGroup _ => true
  | AnEquation _ => false
  end.

(** The elements of a list read as equations, and as groups. *)
Definition as_equations (l : list Element) : list Equation :=
  omap (fun x => match x with AnEquation e => Some e | AGroup _ => None end) l.

Definition as_groups (l : list Element) : list Group :=
  omap (fun x => match x with AGroup g => Some g | AnEquation _ => None end) l.

(** In the first [return] the list holds no group, in the second nothing but
    groups: [as_equations] and [as_groups] drop nothing there. *)
Definition check_equations (equations : list Element) : result (list Group) :=
  let only_groups := filter is_group equations in
  if (0 <? length only_groups)
     && negb (length only_groups =? length equations)
  then raise (ValueError "All elements must be Groups if you use groups.")
  else if length only_groups =? 0
  then ret [ {| equations := as_equations equations |} ]
  else ret (as_groups equations).

(** [get_code(obj, key)], given [obj]'s class name, what its
    [cython_code()] returned and the key as a field. *)
Definition get_code (cls : string) (code : Code)
    (key : Code -> option string) : list string :=
  let doc := "# From " +:+ cls in
  match key code with
  | Some v => [doc; v]
  | None => []
  end.

Definition Locator_cython_code (l : Locator) : result Code :=
  match locator_code l with
  | Some c => ret c
  | None => raise NotImplementedError
  end.

Definition reserved_props : list string := ["tag"; "group"; "local"; "pid"].

Definition ParticleArrayWrapper_template (array_code : string) : string :=
  join nl [
    "from pysph.base.particle_array cimport ParticleArray";
    "from pysph.base.particle_array import ParticleArray";
    "";
    "cdef class ParticleArrayWrapper:";
    "    cdef public ParticleArray array";
    "    cdef public LongArray tag, group";
    "    cdef public IntArray local, pid";
    "    cdef public DoubleArray " +:+ array_code;
    "";
    "    def __init__(self, pa):";
    "        self.array = pa";
    "        props = set(pa.properties.keys())";
    "        props = props.union(['tag', 'group', 'local', 'pid'])";
    "        for prop in props:";
    "            setattr(self, prop, pa.get_carray(prop))";
    "";
    "    cpdef long size(self):";
    "        return self.array.get_number_of_particles()";
    "";
    "";
    "" ].

(** Returns the value of the one key, [code], of the dictionary built. *)
Definition define_particle_array_wrapper `{IterationOrder}
    (particle_arrays : list ParticleArray) : string :=
  let props := first_seen (concat (properties <$> particle_arrays)) in
  let props := filter (fun name => name ∉ reserved_props) props in
  let array_code := join ", " (set_order props) in
  ParticleArrayWrapper_template array_code.

(* ===================================================================== *)
(** ** [SPHEval] *)
(* ===================================================================== *)

(** Destination name to source name to equations.  The outer dictionary is
    an [OrderedDict], the inner one a [defaultdict(list)]. *)
Abbreviation SourceMap := (pydict (list Equation)).
Abbreviation DestMap := (pydict SourceMap).

Record SPHEval : Type := {
  particle_arrays : list ParticleArray;
  equation_groups : list Group;
  locator : Locator;
  kernel : Kernel;
  groups : list DestMap
}.

(** [result] of applying [f] to every element, in order. *)
Definition map_result {A B} (f : A -> result B) (l : list A)
  : result (list B) :=
  for_each l (fun x acc => let* y := f x in ret (acc ++ [y])) [].

Definition _make_group (group : Group) : result DestMap :=
  let equations := equations group in
  let dest_list :=
    fold_left
      (fun dest_list equation =>
         let dest := dest equation in
         if decide (dest ∈ dest_list) then dest_list
         else dest_list ++ [dest])
      equations [] in
  for_each dest_list
    (fun dest dests =>
       let* sources_d :=
         for_each equations
           (fun equation sources_d =>
              let* srcs := iter (sources equation) in
              ret (fold_left
                     (fun sources_d src => append_item src equation sources_d)
                     srcs sources_d))
           [] in
       ret (setitem dest sources_d dests))
    [].

Definition SPHEval_init (particle_arrays : list ParticleArray)
    (equations : list Element) (locator : Locator) (kernel : Kernel)
  : result SPHEval :=
  let* equation_groups := check_equations equations in
  let* groups := map_result _make_group equation_groups in
  ret {| particle_arrays := particle_arrays;
         equation_groups := equation_groups;
         locator := locator;
         kernel := kernel;
         groups := groups |}.

(** [equations = []; for g in self.equation_groups:
    equations.extend(g.equations)] *)
Definition all_equations (self : SPHEval) : list Equation :=
  concat (equations <$> equation_groups self).

Definition helper_imports : list string :=
  [ "from pysph.base.carray cimport DoubleArray, LongArray, IntArray, UIntArray";
    "from pysph.base.carray import DoubleArray, LongArray, IntArray, UIntArray";
    "" ].

Definition _get_helpers `{IterationOrder} (self : SPHEval) : result string :=
  let helpers := helper_imports in
  let helpers :=
    helpers ++ get_code (kernel_class (kernel self))
                        (kernel_code (kernel self)) helper in
  let helpers :=
    fold_left
      (fun helpers group =>
         fold_left
           (fun helpers eq =>
              helpers ++ get_code (eq_class eq) (eq_code eq) helper)
           (equations group) helpers)
      (equation_groups self) helpers in
  let* lcode := Locator_cython_code (locator self) in
  let helpers :=
    helpers ++ get_code (locator_class (locator self)) lcode helper in
  let helpers :=
    helpers ++ [define_particle_array_wrapper (particle_arrays self)] in
  ret (join nl helpers).

(** The five accumulators of [_check_and_get_variables]. *)
Record Collected : Type := {
  c_vars : list Variable_;
  c_temps : list Temporary;
  var_names : pydict (list string);
  tmp_names : pydict (list string);
  tmp_declare : pydict (list string)
}.

Definition nothing_collected : Collected :=
  {| c_vars := []; c_temps := []; var_names := []; tmp_names := [];
     tmp_declare := [] |}.

(** One turn of the loop over the equations. *)
Definition collect_equation (acc : Collected) (equation : Equation)
  : Collected :=
  let eq_name := eq_class equation in
  let code := eq_code equation in
  let v := default [] (variables code) in
  let t := default [] (temporaries code) in
  {| c_vars := c_vars acc ++ v;
     c_temps := c_temps acc ++ t;
     var_names :=
       fold_left (fun d name => append_item name eq_name d)
                 (var_name <$> v) (var_names acc);
     tmp_names :=
       fold_left (fun d x => append_item (var_name x) eq_name d)
                 t (tmp_names acc);
     tmp_declare :=
       fold_left (fun d x => append_item (var_name x) (declare x) d)
                 t (tmp_declare acc) |}.

Definition collect (equations : list Equation) : Collected :=
  fold_left collect_equation equations nothing_collected.

Definition msg_variable_clash (name : string) (eqs : list string) : string :=
  "Variable " +:+ name +:+ " defined in " +:+ repr_list eqs +:+ ".".

Definition msg_temporary_clash (name : string) (eqs veqs : list string)
  : string :=
  "Temporary " +:+ name +:+ " in equation " +:+ repr_list eqs
  +:+ " also defined as variable in " +:+ repr_list veqs.

Definition msg_temporary_differ (name : string) (eqs : list string)
  : string :=
  "Temporary declarations for " +:+ name +:+ " in " +:+ repr_list eqs
  +:+ " differ".

(** [all(map(lambda v: v == declares[0], declares))] *)
Definition all_same (declares : list string) : bool :=
  forallb (fun v => bool_decide (v = hd "" declares)) declares.

(** The three checking loops, each raising at the first offending entry. *)
Definition check_variable_names `{IterationOrder} (c : Collected)
  : result unit :=
  for_each (dict_order (var_names c))
    (fun '(name, eqs) _ =>
       if 1 <? length eqs
       then raise (VariableNameClashError (msg_variable_clash name eqs))
       else ret tt)
    tt.

Definition check_temporary_names `{IterationOrder} (c : Collected)
  : result unit :=
  for_each (dict_order (tmp_names c))
    (fun '(name, eqs) _ =>
       if contains name (var_names c)
       then raise (VariableNameClashError
                     (msg_temporary_clash name eqs
                        (default [] (getitem name (var_names c)))))
       else ret tt)
    tt.

Definition check_temporary_declarations `{IterationOrder} (c : Collected)
  : result unit :=
  for_each (dict_order (tmp_names c))
    (fun '(name, eqs) _ =>
       if 1 <? length eqs
       then
         let declares := default [] (getitem name (tmp_declare c)) in
         if negb (all_same declares)
         then raise (VariableNameClashError (msg_temporary_differ name eqs))
         else ret tt
       else ret tt)
    tt.

Definition _check_and_get_variables `{IterationOrder} (self : SPHEval)
  : result (list Variable_ * list Temporary) :=
  let c := collect (all_equations self) in
  let* _ := check_variable_names c in
  let* _ := check_temporary_names c in
  let* _ := check_temporary_declarations c in
  ret (c_vars c, c_temps c).

Definition _get_variable_declarations `{IterationOrder}
    (vars : list Variable_) (tmps : list Temporary) : string :=
  let decl := keys_of_list (declare <$> vars) in
  let decl := fold_left (fun d var => setitem (declare var) tt d) tmps decl in
  join nl (fst <$> dict_order decl).

Definition _get_array_declarations `{IterationOrder} (self : SPHEval)
  : result string :=
  let equations := all_equations self in
  let* decl :=
    for_each equations
      (fun eq decl =>
         let code := eq_code eq in
         let* arrs := iter (arrays code) in
         ret (fold_left
                (fun decl array => setitem ("cdef double* " +:+ array) tt decl)
                arrs decl))
      ([] : pydict unit) in
  ret (join nl (fst <$> dict_order decl)).

Definition _get_initialization `{IterationOrder} (equations : list Equation)
  : result string :=
  let* init :=
    for_each equations
      (fun equation init =>
         let code := eq_code equation in
         let vars := variables code in
         let tmps := temporaries code in
         let* vs := iter vars in
         let init := fold_left (fun d var => setitem (initialize var) tt d)
                               vs init in
         let* ts := iter tmps in
         ret (fold_left (fun d var => setitem (initialize var) tt d) ts init))
      ([] : pydict unit) in
  ret (join nl (fst <$> dict_order init)).

Definition _get_equation_loop (self : SPHEval) (equation : Equation)
  : result string :=
  match loop (eq_code equation) with
  | None =>
      raise (AttributeError "'NoneType' object has no attribute 'replace'")
  | Some code =>
      let kernel_name := kernel_class (kernel self) +:+ "Kernel" in
      let gradient := kernel_class (kernel self) +:+ "Gradient" in
      ret (replace (replace code "KERNEL" kernel_name) "GRADIENT" gradient)
  end.

(** [[arr for e in eqs for arr in e.cython_code().get('arrays')
      if arr.startswith(prefix)]] *)
Definition arrays_with_prefix (prefix : string) (eqs : list Equation)
  : result (list string) :=
  for_each eqs
    (fun e acc =>
       let* arrs := iter (arrays (eq_code e)) in
       ret (acc ++ filter (fun arr => startswith arr prefix) arrs))
    [].

(** [set(eqs)] compares objects by identity; here equations that are equal
    as values are merged.  They supply the same array names, so the set of
    names, which is all that is read from [eqs], is the same. *)
Definition _get_dest_array_setup `{IterationOrder} (dest_name : string)
    (sources : SourceMap) : result string :=
  let eqs := concat (snd <$> dict_order sources) in
  let eqs := object_order (first_seen eqs) in
  let names := ["d_x"; "d_y"; "d_z"; "d_h"] in
  let* more := arrays_with_prefix "d_" eqs in
  let names := set_order (first_seen (names ++ more)) in
  let lines := ["NP_DEST = self." +:+ dest_name +:+ ".size()"] in
  let lines :=
    lines ++
    ((fun n => n +:+ " = self." +:+ dest_name +:+ "." +:+ string_drop 2 n
               +:+ ".get_data_ptr()") <$> names) in
  ret (join nl lines).

Definition _get_src_array_setup `{IterationOrder} (src_name : string)
    (eqs : list Equation) : result string :=
  let names := ["s_x"; "s_y"; "s_z"; "s_h"] in
  let* more := arrays_with_prefix "s_" eqs in
  let names := set_order (first_seen (names ++ more)) in
  let lines :=
    (fun n => n +:+ " = self." +:+ src_name +:+ "." +:+ string_drop 2 n
              +:+ ".get_data_ptr()") <$> names in
  ret (join nl lines).

Definition SPHCalc_template (pa_names : string) : string :=
  join nl [
    "cdef class SPHCalc:";
    "";
    "    cdef public ParticleArrayWrapper " +:+ pa_names;
    "";
    "    def __init__(self, *particle_arrays):";
    "        for pa in particle_arrays:";
    "            name = pa.name";
    "            setattr(self, name, ParticleArrayWrapper(pa))";
    "";
    "    cpdef void compute(self):";
    "        cdef public long s_idx, d_idx, NP_SRC, NP_DEST";
    "        cdef public LongArray nbrs";
    "";
    "" ].

Definition neighbor_loop_template : string :=
  join nl [
    "locator.get_neighbors(d_idx, nbrs)";
    "for nbr_idx in range(len(nbrs)):";
    "    s_idx = nbrs[nbr_idx]";
    "" ].

(** [enumerate(l)] *)
Definition enumerate {A} (l : list A) : list (nat * A) :=
  zip (seq 0 (length l)) l.

(** The block emitted for one source of one destination. *)
Definition emit_source `{IterationOrder} (self : SPHEval) (source : string)
    (equations : list Equation) (src : SourceCode.t) : result SourceCode.t :=
  let src := SourceCode.add (Some ("# Source " +:+ source +:+ "." +:+ nl)) src in
  let* s_setup := _get_src_array_setup source equations in
  let src := SourceCode.add (Some s_setup) src in
  let* lcode := Locator_cython_code (locator self) in
  let src := SourceCode.add (setup lcode) src in
  let src := SourceCode.add (Some ("for d_idx in range(NP_DEST):" +:+ nl)) src in
  let src := SourceCode.indent src in
  let* init := _get_initialization equations in
  let src := SourceCode.add (Some init) src in
  let src := SourceCode.add (Some neighbor_loop_template) src in
  let src := SourceCode.indent src in
  let* src :=
    for_each equations
      (fun equation src =>
         let src :=
           SourceCode.add (Some ("# Equation " +:+ eq_class equation)) src in
         let* l := _get_equation_loop self equation in
         ret (SourceCode.add (Some l) src))
      src in
  let src := SourceCode.dedent src in
  let src :=
    fold_left
      (fun src equation => SourceCode.add (post (eq_code equation)) src)
      equations src in
  let src := SourceCode.dedent src in
  ret (SourceCode.add (Some ("# Source " +:+ source +:+ " done." +:+ nl)) src).

(** The block emitted for one destination. *)
Definition emit_dest `{IterationOrder} (self : SPHEval) (dest : string)
    (sources : SourceMap) (src : SourceCode.t) : result SourceCode.t :=
  let src :=
    SourceCode.add (Some ("# Destination " +:+ dest +:+ "." +:+ nl)) src in
  let* d_setup := _get_dest_array_setup dest sources in
  let src := SourceCode.add (Some d_setup) src in
  let* src :=
    for_each (dict_order sources)
      (fun '(source, equations) src => emit_source self source equations src)
      src in
  ret (SourceCode.add
         (Some ("# Destination " +:+ dest +:+ " done." +:+ nl)) src).

(** The block emitted for one group; the destinations come from an
    [OrderedDict] and keep their order. *)
Definition emit_group `{IterationOrder} (self : SPHEval) (g_idx : nat)
    (group : DestMap) (src : SourceCode.t) : result SourceCode.t :=
  let src :=
    SourceCode.add
      (Some ("# Group " +:+ string_of_nat g_idx +:+ "." +:+ nl)) src in
  let* src :=
    for_each group
      (fun '(dest, sources) src => emit_dest self dest sources src)
      src in
  ret (SourceCode.add
         (Some ("# Group " +:+ string_of_nat g_idx +:+ " done.")) src).

Definition _get_body `{IterationOrder} (self : SPHEval) : result string :=
  let* (vars, tmps) := _check_and_get_variables self in
  let src := SourceCode.new in
  let parrays := pa_name <$> particle_arrays self in
  let pa_names := join ", " parrays in
  let code := SPHCalc_template pa_names in
  let src := SourceCode.add (Some code) src in
  let src := SourceCode.indent src in
  let src := SourceCode.indent src in
  let* a_decl := _get_array_declarations self in
  let src := SourceCode.add (Some a_decl) src in
  let src :=
    SourceCode.add (Some (_get_variable_declarations vars tmps)) src in
  let* src :=
    for_each (enumerate (groups self))
      (fun '(g_idx, group) src => emit_group self g_idx group src)
      src in
  SourceCode.get src.

(** The output sink: the texts written to it so far.  A statement that may
    write is a function of the sink returning its outcome and the sink
    after it; an exception leaves in the sink what was written before. *)
Definition Sink : Type := list string.
Definition IO (A : Type) : Type := Sink -> result A * Sink.

Definition io_pure {A} (r : result A) : IO A := fun fp => (r, fp).
Definition io_bind {A B} (m : IO A) (k : A -> IO B) : IO B :=
  fun fp =>
    match m fp with
    | (inl e, fp') => (inl e, fp')
    | (inr a, fp') => k a fp'
    end.
Definition fp_write (text : string) : IO unit :=
  fun fp => (inr tt, fp ++ [text]).

Definition generate `{IterationOrder} (self : SPHEval) : IO unit :=
  io_bind (io_pure (_get_helpers self)) (fun code =>
  io_bind (io_pure (_get_body self)) (fun body =>
  let code := code +:+ body in
  fp_write code)).

(** Building the evaluator and generating, as a caller does. *)
Definition build_and_generate `{IterationOrder}
    (particle_arrays : list ParticleArray) (equations : list Element)
    (locator : Locator) (kernel : Kernel) : IO unit :=
  io_bind (io_pure (SPHEval_init particle_arrays equations locator kernel))
          (fun self => generate self).

(* ===================================================================== *)
(** * Notions used to state the properties *)
(* ===================================================================== *)

(** ** Parts of [_make_group] *)

(** One turn of the loop that collects the destinations. *)
Definition add_dest (dest_list : list string) (equation : Equation)
  : list string :=
  let dest := dest equation in
  if decide (dest ∈ dest_list) then dest_list else dest_list ++ [dest].


(** The per-destination source map of [_make_group]: it is computed from
    all the equations of the group, whatever the destination. *)
Definition sources_of_group (equations : list Equation) : result SourceMap :=
  for_each equations
    (fun equation sources_d =>
       let* srcs := iter (sources equation) in
       ret (fold_left
              (fun sources_d src => append_item src equation sources_d)
              srcs sources_d))
    [].

Definition dest_list_of (equations : list Equation) : list string :=
  fold_left add_dest equations [].


(** Every equation listed under a source names that source. *)
Definition listed_under_own_sources (m : SourceMap) : Prop :=
  forall s eqs e, (s, eqs) ∈ m -> e ∈ eqs ->
    exists srcs, sources e = Some srcs /\ s ∈ srcs.


(** ** Sample inputs *)

(** An equation kind whose [cython_code()] returns only [loop] and [post]. *)
Definition LoopOnly_code : Code :=
  {| variables := None; temporaries := None; arrays := None;
     loop := Some "pass"; post := Some "pass"; helper := None;
     setup := None |}.

Definition LoopOnly (dest : string) (sources : option (list string))
  : Equation :=
  {| eq_class := "LoopOnly"; dest := dest; sources := sources;
     eq_code := LoopOnly_code |}.

(** ** What the equations declare *)

Definition vars_of (e : Equation) : list Variable_ :=
  default [] (variables (eq_code e)).

Definition temps_of (e : Equation) : list Temporary :=
  default [] (temporaries (eq_code e)).

(** The declarations in the order the checker meets them: each Variable
    name with the class of its equation, each Temporary name with the class
    of its equation, and each Temporary name with its declaration text. *)
Definition var_entries (eqs : list Equation) : list (string * string) :=
  concat ((fun e => (fun v => (var_name v, eq_class e)) <$> vars_of e) <$> eqs).

Definition tmp_entries (eqs : list Equation) : list (string * string) :=
  concat ((fun e => (fun t => (var_name t, eq_class e)) <$> temps_of e) <$> eqs).

Definition tmp_decl_entries (eqs : list Equation) : list (string * string) :=
  concat ((fun e => (fun t => (var_name t, declare t)) <$> temps_of e) <$> eqs).

(** A [defaultdict(list)] filled by appending the entries one by one. *)
Definition grouped {V} (l : list (string * V)) : pydict (list V) :=
  fold_left (fun d p => append_item p.1 p.2 d) l [].

(** The values entered under a key, in order. *)
Definition values_of {V} (k : string) (l : list (string * V)) : list V :=
  (filter (fun p => p.1 = k) l).*2.

(** What [collect] holds after the equations [eqs]. *)
Definition collected (eqs : list Equation) : Collected :=
  {| c_vars := concat (vars_of <$> eqs);
     c_temps := concat (temps_of <$> eqs);
     var_names := grouped (var_entries eqs);
     tmp_names := grouped (tmp_entries eqs);
     tmp_declare := grouped (tmp_decl_entries eqs) |}.

(** ** The naming invariants *)

(** Two equations, at different places of the list, declare a Variable
    named [n]. *)
Definition duplicate_variable (eqs : list Equation) (n : string) : Prop :=
  exists l1 e1 l2 e2 l3,
    eqs = l1 ++ e1 :: l2 ++ e2 :: l3
    /\ n ∈ var_name <$> vars_of e1
    /\ n ∈ var_name <$> vars_of e2.

(** [n] is declared as a Temporary by one equation and as a Variable by
    one, wherever the two stand in the list. *)
Definition temporary_variable_collision (eqs : list Equation) (n : string)
  : Prop :=
  exists e1 e2,
    e1 ∈ eqs /\ e2 ∈ eqs
    /\ n ∈ var_name <$> temps_of e1
    /\ n ∈ var_name <$> vars_of e2.

(** Two Temporaries named [n] are declared with different texts. *)
Definition inconsistent_temporary (eqs : list Equation) (n : string) : Prop :=
  exists e1 e2 t1 t2,
    e1 ∈ eqs /\ e2 ∈ eqs /\ t1 ∈ temps_of e1 /\ t2 ∈ temps_of e2
    /\ var_name t1 = n /\ var_name t2 = n /\ declare t1 <> declare t2.

Definition violates_invariants (eqs : list Equation) : Prop :=
  exists n,
    duplicate_variable eqs n
    \/ temporary_variable_collision eqs n
    \/ inconsistent_temporary eqs n.

(** What the checker accepts: no Variable name is declared twice, no
    Temporary name is a Variable name, and the Temporaries of one name have
    one declaration text. *)
Definition consistent_declarations (eqs : list Equation) : Prop :=
  NoDup (var_entries eqs).*1
  /\ (forall n, n ∈ (tmp_entries eqs).*1 -> n ∉ (var_entries eqs).*1)
  /\ (forall n d1 d2,
         (n, d1) ∈ tmp_decl_entries eqs -> (n, d2) ∈ tmp_decl_entries eqs ->
         d1 = d2).

(** The classes of the equations that declare the Variable [n], once per
    declaration, in order. *)
Definition declaring_classes (eqs : list Equation) (n : string)
  : list string :=
  values_of n (var_entries eqs).

(** Two equation kinds that declare the same Temporary [hab] and a Variable
    each, and an evaluator over the two. *)
Definition shared_hab : Temporary :=
  {| var_type := "double"; var_name := "hab"; var_default := Some "0.0" |}.

Definition DensityA : Equation :=
  {| eq_class := "DensityA"; dest := "fluid"; sources := Some ["fluid"];
     eq_code :=
       {| variables := Some [ {| var_type := "double"; var_name := "rho_a";
                                 var_default := Some "0.0" |} ];
          temporaries := Some [shared_hab];
          arrays := Some ["s_h"; "d_h"];
          loop := Some "hab = 0.5*(s_h[s_idx] + d_h[d_idx])";
          post := Some "pass"; helper := None; setup := None |} |}.

Definition DensityB : Equation :=
  {| eq_class := "DensityB"; dest := "fluid"; sources := Some ["fluid"];
     eq_code :=
       {| variables := Some [ {| var_type := "double"; var_name := "rho_b";
                                 var_default := None |} ];
          temporaries := Some [shared_hab];
          arrays := Some ["s_h"; "d_h"];
          loop := Some "hab = 0.5*(s_h[s_idx] + d_h[d_idx])";
          post := Some "pass"; helper := None; setup := None |} |}.

(** The evaluator [SPHEval] builds from a flat list of equations whose
    sources are lists; [groups] is filled as [__init__] fills it. *)
Definition evaluator_of (eqs : list Equation) : SPHEval :=
  {| particle_arrays := [ {| pa_name := "fluid"; properties := ["x"; "h"] |} ];
     equation_groups := [ {| equations := eqs |} ];
     locator := AllPairLocator;
     kernel := CubicSpline;
     groups :=
       match _make_group {| equations := eqs |} with
       | inr g => [g]
       | inl _ => []
       end |}.

(** An equation kind that declares [hab] as a Variable. *)
Definition SmoothingLength : Equation :=
  {| eq_class := "SmoothingLength"; dest := "fluid";
     sources := Some ["fluid"];
     eq_code :=
       {| variables := Some [ {| var_type := "double"; var_name := "hab";
                                 var_default := None |} ];
          temporaries := Some [];
          arrays := Some ["d_h"];
          loop := Some "hab = d_h[d_idx]";
          post := Some "pass"; helper := None; setup := None |} |}.

(** ** Token substitution *)

(** The substitution the design document describes: the text is read once
    from left to right, every occurrence of [KERNEL] becomes [kernel_name],
    every occurrence of [GRADIENT] becomes [gradient], and every other
    character is kept.  (The two tokens cannot overlap, with each other or
    with themselves, so one pass meets every occurrence.) *)
Fixpoint substitute_tokens_from (kernel_name gradient : string) (skip : nat)
    (s : string) : string :=
  match s with
  | EmptyString => EmptyString
  | String c s' =>
      match skip with
      | S k => substitute_tokens_from kernel_name gradient k s'
      | O =>
          if startswith s "KERNEL"
          then kernel_name +:+ substitute_tokens_from kernel_name gradient 5 s'
          else if startswith s "GRADIENT"
          then gradient +:+ substitute_tokens_from kernel_name gradient 7 s'
          else String c (substitute_tokens_from kernel_name gradient 0 s')
      end
  end.

Definition substitute_tokens (kernel_name gradient s : string) : string :=
  substitute_tokens_from kernel_name gradient 0 s.

(** [p] occurs somewhere in [s]. *)
Fixpoint occurs (s p : string) : bool :=
  startswith s p
  || match s with
     | EmptyString => false
     | String _ s' => occurs s' p
     end.

(** [s] starts with no non-empty suffix of [p]. *)
Fixpoint starts_no_suffix (s p : string) : bool :=
  match p with
  | EmptyString => true
  | String _ p' => negb (startswith s p) && starts_no_suffix s p'
  end.

Fixpoint has_char (c : ascii) (s : string) : bool :=
  match s with
  | EmptyString => false
  | String c' s' => Ascii.eqb c c' || has_char c s'
  end.

(** A kernel class name whose substitution for [KERNEL] can neither hold
    nor complete a [GRADIENT]: the name does not contain [GRADIENT] and
    does not begin with [RADIENT], [ADIENT], [DIENT], [IENT], [ENT], [NT]
    or [T]. *)
Definition kernel_class_safe (cls : string) : bool :=
  negb (occurs cls "GRADIENT") && starts_no_suffix cls "RADIENT".

(** The same evaluator with another kernel. *)
Definition with_kernel (ker : Kernel) (self : SPHEval) : SPHEval :=
  {| particle_arrays := particle_arrays self;
     equation_groups := equation_groups self;
     locator := locator self;
     kernel := ker;
     groups := groups self |}.

(** A kernel class whose name holds the text [GRADIENT]. *)
Definition GRADIENTCorrected : Kernel :=
  {| kernel_class := "GRADIENTCorrected"; kernel_code := no_code |}.

(** The source map [m] lists the equation [e] under the source [s]. *)
Definition lists_under (m : SourceMap) (s : string) (e : Equation) : Prop :=
  exists eqs, (s, eqs) ∈ m /\ e ∈ eqs.

(* ===================================================================== *)
(** * Notions used to state further properties of the module *)
(* ===================================================================== *)

(** The sources an equation names; none when [sources] is [None]. *)
Definition srcs_of (e : Equation) : list string := default [] (sources e).

(** The pairs (source, equation) in the order [_make_group] appends them. *)
Definition source_entries (eqs : list Equation) : list (string * Equation) :=
  concat ((fun e => (fun s => (s, e)) <$> srcs_of e) <$> eqs).

(** The equations of a list handed to [SPHEval], in order, groups opened. *)
Definition flatten_elements (l : list Element) : list Equation :=
  concat ((fun x => match x with
                    | AnEquation e => [e]
                    | AGroup g => equations g
                    end) <$> l).

(** The arrays an equation names; none when the key is absent. *)
Definition arrays_of (e : Equation) : list string :=
  default [] (arrays (eq_code e)).

(** The initialization texts of an equation, Variables first. *)
Definition initializations_of (e : Equation) : list string :=
  (initialize <$> vars_of e) ++ (initialize <$> temps_of e).

(** The statement binding the pointer [n] of the particle array [obj]. *)
Definition binding (obj n : string) : string :=
  n +:+ " = self." +:+ obj +:+ "." +:+ string_drop 2 n +:+ ".get_data_ptr()".


(** A string that holds no line terminator. *)
Definition no_line_break (s : string) : bool :=
  negb (has_char LF s) && negb (has_char CR s).

(** What [_indented_code] puts before every line at level [l]. *)
Definition indent_of (l : Z) : string := spaces (l * 4).

(** The buffer [src] is [src0] with blocks added after those of [src0],
    each accepted by [ok] and at a level from that of [src0] to two above
    it, and stands [d] levels above [src0]. *)
Definition grows (ok : option string -> Prop) (src0 : SourceCode.t) (d : Z)
    (src : SourceCode.t) : Prop :=
  SourceCode.level src = (SourceCode.level src0 + d)%Z
  /\ exists blocks,
       SourceCode.code src = SourceCode.code src0 ++ blocks
       /\ Forall (fun b => ok b.1
                           /\ (SourceCode.level src0 <= b.2
                               <= SourceCode.level src0 + 2)%Z) blocks.

(** The buffer holds a block that is [None]. *)
Definition has_none (src : SourceCode.t) : Prop :=
  exists l, (None, l) ∈ SourceCode.code src.

(** The keys read when the loop of an equation is emitted. *)
Definition emits (e : Equation) : Prop :=
  variables (eq_code e) <> None /\ temporaries (eq_code e) <> None
  /\ loop (eq_code e) <> None /\ post (eq_code e) <> None.

(** What makes the block of a source hold [None]: a locator whose
    [cython_code()] has no [setup] key, or an equation without a [post]
    key. *)
Definition leaves_none (self : SPHEval) (eqs : list Equation) : Prop :=
  (exists lcode, locator_code (locator self) = Some lcode
                 /\ setup lcode = None)
  \/ (exists e, e ∈ eqs /\ post (eq_code e) = None).

(** The keys whose absence makes the block of a source raise. *)
Definition block_keys (e : Equation) : Prop :=
  arrays (eq_code e) <> None /\ variables (eq_code e) <> None
  /\ temporaries (eq_code e) <> None /\ loop (eq_code e) <> None.

(** What the block of a source adds besides texts, the locator's [setup]
    and the [post] of its equations, is accepted by [ok]. *)
Definition ok_block (ok : option string -> Prop) (self : SPHEval)
    (eqs : list Equation) : Prop :=
  (forall lcode, locator_code (locator self) = Some lcode -> ok (setup lcode))
  /\ forall e, e ∈ eqs -> ok (post (eq_code e)).
(* ===================================================================== *)
(** * Properties *)
(* ===================================================================== *)

(** ** Loops *)

Section for_each_facts.
Context {A S : Type}.
Implicit Types (l : list A) (body : A -> S -> result S) (s : S).

Lemma for_each_app l1 l2 body s :
  for_each (l1 ++ l2) body s
  = bind (for_each l1 body s) (for_each l2 body).
Proof.
  revert s. induction l1 as [|x l1 IH]; intros s; simpl; [done|].
  destruct (body x s) as [e|s']; simpl; [done|]. apply IH.
Qed.

(** A property kept by every turn that returns holds when the loop
    returns. *)
Lemma for_each_inv (P : S -> Prop) l body s s' :
  P s ->
  (forall x t t', x ∈ l -> P t -> body x t = inr t' -> P t') ->
  for_each l body s = inr s' -> P s'.
Proof.
  revert s. induction l as [|x l IH]; intros s Hs Hstep; simpl.
  - intros [= <-]. done.
  - destruct (body x s) as [e|t] eqn:Hb; simpl; [done|].
    apply IH.
    + eapply Hstep; [left | exact Hs | exact Hb].
    + intros y t0 t1 Hy. apply Hstep. by right.
Qed.

(** A loop whose turns all return, returns. *)
Lemma for_each_ok l body s :
  (forall x t, x ∈ l -> is_ok (body x t)) -> is_ok (for_each l body s).
Proof.
  revert s. induction l as [|x l IH]; intros s Hbody; simpl.
  - by exists s.
  - destruct (Hbody x s) as [t Ht]; [left|]. rewrite Ht. simpl.
    apply IH. intros y t0 Hy. apply Hbody. by right.
Qed.

(** A loop that raises somewhere, at whatever state, raises. *)
Lemma for_each_raises l body s x :
  x ∈ l -> (forall t, ~ is_ok (body x t)) -> ~ is_ok (for_each l body s).
Proof.
  revert s. induction l as [|y l IH]; intros s Hx Hbad; [by inversion Hx|].
  simpl. destruct (body y s) as [e|t] eqn:Hb; simpl.
  - intros [a Ha]. done.
  - apply elem_of_cons in Hx as [->|Hx]; [|by apply IH].
    exfalso. apply (Hbad s). by exists t.
Qed.

Lemma for_each_pure l (f : A -> S -> S) s :
  for_each l (fun x t => ret (f x t)) s
  = inr (fold_left (fun t x => f x t) l s).
Proof. revert s. induction l as [|x l IH]; intros s; simpl; [done|apply IH]. Qed.
End for_each_facts.

(** A loop that only raises or passes: [test] says when it raises. *)
Section guard_loops.
Context {A : Type} (test : A -> bool) (err : A -> PyError)
        (body : A -> unit -> result unit).
Hypothesis body_spec :
  forall x u, body x u = if test x then inl (err x) else inr tt.

Lemma guard_loop_raises l :
  (exists x, x ∈ l /\ test x = true) ->
  exists x, x ∈ l /\ test x = true /\ for_each l body tt = inl (err x).
Proof.
  induction l as [|y l IH]; intros (x & Hx & Ht); [by inversion Hx|].
  simpl. rewrite body_spec. destruct (test y) eqn:Hy.
  - exists y. split; [left|done].
  - apply elem_of_cons in Hx as [->|Hx]; [congruence|].
    destruct IH as (z & Hz & Htz & Hr); [by exists x|].
    exists z. split; [by right|done].
Qed.

Lemma guard_loop_passes l :
  (forall x, x ∈ l -> test x = false) -> for_each l body tt = inr tt.
Proof.
  induction l as [|y l IH]; intros Hall; simpl; [done|].
  rewrite body_spec, (Hall y) by left. simpl.
  apply IH. intros x Hx. apply Hall. by right.
Qed.
Lemma guard_loop_cases l :
  (exists x, x ∈ l /\ test x = true /\ for_each l body tt = inl (err x))
  \/ ((forall x, x ∈ l -> test x = false) /\ for_each l body tt = inr tt).
Proof.
  destruct (existsb test l) eqn:Hex.
  - left. apply guard_loop_raises.
    apply existsb_exists in Hex as (x & Hx & Ht). exists x.
    split; [by apply list_elem_of_In|done].
  - right.
    assert (Hall : forall x, x ∈ l -> test x = false).
    { intros x Hx. destruct (test x) eqn:Ht; [|done].
      assert (existsb test l = true) as Hc; [|congruence].
      apply existsb_exists. exists x. split; [by apply list_elem_of_In|done]. }
    split; [done|]. by apply guard_loop_passes.
Qed.
End guard_loops.

(** ** Iteration order *)

Section order_facts.
Context `{IterationOrder}.

Lemma elem_of_dict_order {V} (d : pydict V) x : x ∈ dict_order d <-> x ∈ d.
Proof. by rewrite (dict_order_perm V d). Qed.

Lemma dict_order_nil {V} : dict_order ([] : pydict V) = [].
Proof. apply Permutation_nil_r, dict_order_perm. Qed.

Lemma set_order_nil : set_order [] = [].
Proof. apply Permutation_nil_r, set_order_perm. Qed.

Lemma object_order_nil : object_order [] = [].
Proof. apply Permutation_nil_r, object_order_perm. Qed.

Lemma dict_order_singleton {V} (x : string * V) : dict_order [x] = [x].
Proof. apply Permutation_singleton_r, dict_order_perm. Qed.
End order_facts.

(** ** The equation-set normalizer *)

Lemma filter_is_group_equations (eqs : list Equation) :
  filter is_group (AnEquation <$> eqs) = [].
Proof.
  induction eqs as [|e eqs IH]; [done|]. rewrite fmap_cons.
  by rewrite filter_cons_False by (simpl; tauto).
Qed.

Lemma filter_is_group_groups (gs : list Group) :
  filter is_group (AGroup <$> gs) = AGroup <$> gs.
Proof.
  induction gs as [|g gs IH]; [done|]. rewrite fmap_cons.
  rewrite filter_cons_True by done. by rewrite IH.
Qed.

Lemma as_equations_fmap (eqs : list Equation) :
  as_equations (AnEquation <$> eqs) = eqs.
Proof.
  induction eqs as [|e eqs IH]; [done|].
  unfold as_equations in *. simpl. f_equal. exact IH.
Qed.

Lemma as_groups_fmap (gs : list Group) : as_groups (AGroup <$> gs) = gs.
Proof.
  induction gs as [|g gs IH]; [done|].
  unfold as_groups in *. simpl. f_equal. exact IH.
Qed.

Lemma filter_is_group_lt (l : list Element) e :
  AnEquation e ∈ l -> length (filter is_group l) < length l.
Proof.
  induction l as [|x l IH]; intros Hin; [by inversion Hin|].
  apply elem_of_cons in Hin as [<-|Hin].
  - rewrite filter_cons_False by (simpl; tauto). simpl.
    pose proof (length_filter is_group l). lia.
  - specialize (IH Hin). destruct x as [e'|g].
    + rewrite filter_cons_False by (simpl; tauto). simpl. lia.
    + rewrite filter_cons_True by done. simpl. lia.
Qed.

Lemma filter_is_group_pos (l : list Element) g :
  AGroup g ∈ l -> 0 < length (filter is_group l).
Proof.
  intros Hin.
  assert (AGroup g ∈ filter is_group l) as Hf by (apply list_elem_of_filter; done).
  destruct (filter is_group l); [by inversion Hf|simpl; lia].
Qed.

Lemma check_equations_flat (eqs : list Equation) :
  check_equations (AnEquation <$> eqs) = inr [ {| equations := eqs |} ].
Proof.
  unfold check_equations.
  by rewrite filter_is_group_equations, as_equations_fmap.
Qed.

Lemma check_equations_groups (gs : list Group) :
  gs <> [] -> check_equations (AGroup <$> gs) = inr gs.
Proof.
  intros Hne. unfold check_equations.
  rewrite filter_is_group_groups, as_groups_fmap.
  rewrite Nat.eqb_refl, andb_false_r.
  by destruct gs.
Qed.

Lemma check_equations_mixed (l : list Element) e g :
  AnEquation e ∈ l -> AGroup g ∈ l ->
  check_equations l
  = inl (ValueError "All elements must be Groups if you use groups.").
Proof.
  intros He Hg. unfold check_equations.
  pose proof (filter_is_group_lt l e He) as Hlt.
  pose proof (filter_is_group_pos l g Hg) as Hpos.
  destruct (Nat.ltb_spec 0 (length (filter is_group l))); [|lia].
  destruct (Nat.eqb_spec (length (filter is_group l)) (length l)); [lia|].
  done.
Qed.

(** C5.  [check_equations] wraps a flat list of equations into exactly one
    group holding them in their order, returns a (non-empty) list made only
    of groups as it is, and raises [ValueError] on a list that holds both a
    bare equation and a group.  The empty list counts as flat. *)
Theorem check_equations_normalizes :
  (forall eqs : list Equation,
      check_equations (AnEquation <$> eqs) = inr [ {| equations := eqs |} ])
  /\ (forall gs : list Group,
         gs <> [] -> check_equations (AGroup <$> gs) = inr gs)
  /\ (forall (l : list Element) e g,
         AnEquation e ∈ l -> AGroup g ∈ l ->
         check_equations l
         = inl (ValueError "All elements must be Groups if you use groups.")).
Proof.
  split; [|split].
  - apply check_equations_flat.
  - apply check_equations_groups.
  - apply check_equations_mixed.
Qed.

Lemma check_equations_normalizes_witness :
  check_equations [AGroup {| equations := [] |}]
  = inr [ {| equations := [] |} ]
  /\ check_equations
       [AnEquation (SummationDensity "fluid" (Some ["fluid"]));
        AGroup {| equations := [] |}]
     = inl (ValueError "All elements must be Groups if you use groups.").
Proof.
  destruct check_equations_normalizes as (_ & Hg & Hm). split.
  - apply (Hg [ {| equations := [] |} ]). discriminate.
  - eapply Hm.
    + apply list_elem_of_here.
    + apply list_elem_of_further, list_elem_of_here.
Defined.

(** ** The empty equation list *)


(** ** Dictionary stores *)

Section dict_facts.
Context {V : Type}.
Implicit Types (d : pydict V) (k : string) (v : V).

Lemma elem_of_setitem d k0 v0 k v :
  (k, v) ∈ setitem k0 v0 d -> (k, v) ∈ d \/ (k = k0 /\ v = v0).
Proof.
  induction d as [|[k' v'] d IH]; simpl; intros Hin.
  - apply list_elem_of_singleton in Hin. injection Hin as -> ->. tauto.
  - destruct (decide (k0 = k')) as [->|Hne];
      apply elem_of_cons in Hin as [Heq|Hin].
    + injection Heq as -> ->. tauto.
    + left. by right.
    + left. rewrite Heq. left.
    + destruct (IH Hin) as [?|?]; [left; by right|tauto].
Qed.

Lemma keys_setitem d k0 v0 k :
  k ∈ (setitem k0 v0 d).*1 <-> k = k0 \/ k ∈ d.*1.
Proof.
  induction d as [|[k' v'] d IH]; simpl.
  - rewrite list_elem_of_singleton. split; [tauto|].
    intros [?|Hin]; [done|by inversion Hin].
  - destruct (decide (k0 = k')) as [->|Hne]; simpl.
    + rewrite !elem_of_cons. tauto.
    + rewrite !elem_of_cons, IH. tauto.
Qed.

Lemma elem_of_append_item (d : pydict (list V)) k0 x k xs :
  (k, xs) ∈ append_item k0 x d ->
  (k, xs) ∈ d
  \/ (k = k0 /\ exists xs0, xs = xs0 ++ [x] /\ (xs0 = [] \/ (k0, xs0) ∈ d)).
Proof.
  induction d as [|[k' xs'] d IH]; simpl; intros Hin.
  - apply list_elem_of_singleton in Hin. injection Hin as -> ->.
    right. split; [done|]. exists []. tauto.
  - destruct (decide (k0 = k')) as [->|Hne];
      apply elem_of_cons in Hin as [Heq|Hin].
    + injection Heq as -> ->.
      right. split; [done|]. exists xs'. split; [done|]. right. left.
    + left. by right.
    + left. rewrite Heq. left.
    + destruct (IH Hin) as [?|(-> & xs0 & -> & [->|Hd])].
      * left. by right.
      * right. split; [done|]. exists []. tauto.
      * right. split; [done|]. exists xs0. split; [done|]. right. by right.
Qed.
End dict_facts.

(** ** The grouping builder *)

Lemma _make_group_unfold (g : Group) :
  _make_group g
  = for_each (dest_list_of (equations g))
      (fun dest dests =>
         let* sources_d := sources_of_group (equations g) in
         ret (setitem dest sources_d dests))
      [].
Proof. reflexivity. Qed.

Lemma add_dest_mono (l : list Equation) (acc : list string) x :
  x ∈ acc -> x ∈ fold_left add_dest l acc.
Proof.
  revert acc. induction l as [|y l IH]; intros acc Hx; simpl; [done|].
  apply IH. unfold add_dest. destruct (decide (dest y ∈ acc)); [done|].
  apply elem_of_app. by left.
Qed.

Lemma add_dest_complete (l : list Equation) (acc : list string) e :
  e ∈ l -> dest e ∈ fold_left add_dest l acc.
Proof.
  revert acc. induction l as [|y l IH]; intros acc Hin; [by inversion Hin|].
  simpl. apply elem_of_cons in Hin as [->|Hin]; [|by apply IH].
  apply add_dest_mono. unfold add_dest.
  destruct (decide (dest y ∈ acc)); [done|].
  apply elem_of_app. right. left.
Qed.

Lemma dest_list_of_complete (eqs : list Equation) e :
  e ∈ eqs -> dest e ∈ dest_list_of eqs.
Proof. apply add_dest_complete. Qed.

Lemma append_sources_listed (e : Equation) (srcs all : list string)
    (m : SourceMap) :
  sources e = Some all -> (forall s, s ∈ srcs -> s ∈ all) ->
  listed_under_own_sources m ->
  listed_under_own_sources
    (fold_left (fun sources_d src => append_item src e sources_d) srcs m).
Proof.
  intros He. revert m. induction srcs as [|s0 srcs IH]; intros m Hsub Hm;
    simpl; [done|].
  apply IH; [intros s Hs; apply Hsub; by right|].
  intros s eqs e' Hin He'.
  apply elem_of_append_item in Hin as [Hin|(-> & xs0 & -> & Hxs0)].
  - by eapply Hm.
  - apply elem_of_app in He' as [He'|He'].
    + destruct Hxs0 as [->|Hd]; [by inversion He'|]. by eapply Hm.
    + apply list_elem_of_singleton in He'. subst e'.
      exists all. split; [done|]. apply Hsub. left.
Qed.

Lemma sources_of_group_listed (eqs : list Equation) (m : SourceMap) :
  sources_of_group eqs = inr m -> listed_under_own_sources m.
Proof.
  apply for_each_inv.
  - intros s l e Hin. by inversion Hin.
  - intros e t t' _ Ht. destruct (sources e) as [srcs|] eqn:He; simpl; [|done].
    intros [= <-]. by eapply append_sources_listed.
Qed.

Lemma sources_of_group_ok (eqs : list Equation) :
  (forall e, e ∈ eqs -> sources e <> None) -> is_ok (sources_of_group eqs).
Proof.
  intros Hsome. apply for_each_ok. intros e t He.
  specialize (Hsome e He). destruct (sources e); [|done]. by eexists.
Qed.

(** When the source map can be built, every destination gets that map. *)
Lemma _make_group_of_sources (g : Group) (m : SourceMap) :
  sources_of_group (equations g) = inr m ->
  exists dests, _make_group g = inr dests
    /\ (forall d, d ∈ dests.*1 <-> d ∈ dest_list_of (equations g))
    /\ (forall d m', (d, m') ∈ dests -> m' = m).
Proof.
  intros Hm. rewrite _make_group_unfold, Hm. simpl bind.
  rewrite (for_each_pure _ (fun dest dests => setitem dest m dests)).
  eexists. split; [reflexivity|].
  generalize (dest_list_of (equations g)). intros dl.
  assert (Hgen : forall (acc : DestMap),
    (forall d, d ∈ (fold_left (fun t x => setitem x m t) dl acc).*1
               <-> d ∈ dl \/ d ∈ acc.*1)
    /\ ((forall d m', (d, m') ∈ acc -> m' = m) ->
        forall d m', (d, m') ∈ fold_left (fun t x => setitem x m t) dl acc
                     -> m' = m)).
  { induction dl as [|x dl IH]; intros acc; simpl.
    - split; [|done]. intros d. split; [tauto|]. intros [Hd|?]; [by inversion Hd|done].
    - destruct (IH (setitem x m acc)) as [IH1 IH2]. split.
      + intros d. rewrite IH1, keys_setitem, elem_of_cons. tauto.
      + intros Hacc. apply IH2. intros d m' Hin.
        apply elem_of_setitem in Hin as [Hin|[_ ->]]; [by eapply Hacc|done]. }
  destruct (Hgen []) as [H1 H2]. split.
  - intros d. rewrite H1. simpl. split; [|tauto].
    intros [?|Hd]; [done|by inversion Hd].
  - apply H2. intros d m' Hin. by inversion Hin.
Qed.

(** An equation whose [sources] is [None] stops the builder. *)
Lemma _make_group_none_sources (g : Group) e :
  e ∈ equations g -> sources e = None -> ~ is_ok (_make_group g).
Proof.
  intros He Hnone. rewrite _make_group_unfold.
  assert (Hsrc : ~ is_ok (sources_of_group (equations g))).
  { eapply for_each_raises; [exact He|].
    intros t [a Ha]. rewrite Hnone in Ha. done. }
  pose proof (dest_list_of_complete _ _ He) as Hd.
  eapply for_each_raises; [exact Hd|].
  intros t [a Ha]. destruct (sources_of_group (equations g)) as [err|m];
    [done|]. apply Hsrc. by eexists.
Qed.

(** [evaluator_of] is what [SPHEval] builds from a flat list of equations
    with lists of sources. *)
Lemma evaluator_of_init (eqs : list Equation) :
  (forall e, e ∈ eqs -> sources e <> None) ->
  SPHEval_init [ {| pa_name := "fluid"; properties := ["x"; "h"] |} ]
               (AnEquation <$> eqs) AllPairLocator CubicSpline
  = inr (evaluator_of eqs).
Proof.
  intros Hsome. unfold SPHEval_init, evaluator_of.
  rewrite check_equations_flat. cbn [bind].
  destruct (sources_of_group_ok _ Hsome) as [m Hm].
  destruct (_make_group_of_sources {| equations := eqs |} m Hm)
    as (dests & Hg & _).
  unfold map_result. cbn [for_each]. rewrite Hg. reflexivity.
Qed.

(** Whatever [_make_group] returns gives every destination the same source
    map. *)
Lemma _make_group_same_map (g : Group) (dests : DestMap) :
  _make_group g = inr dests ->
  forall d1 m1 d2 m2, (d1, m1) ∈ dests -> (d2, m2) ∈ dests -> m1 = m2.
Proof.
  intros Hg. destruct (sources_of_group (equations g)) as [err|m] eqn:Hm.
  - rewrite _make_group_unfold, Hm in Hg.
    destruct (dest_list_of (equations g)); simpl in Hg; [|done].
    injection Hg as <-. intros d1 m1 d2 m2 Hin. by inversion Hin.
  - destruct (_make_group_of_sources g m Hm) as (dests' & Hg' & _ & Hall).
    rewrite Hg in Hg'. injection Hg' as ->.
    intros d1 m1 d2 m2 H1 H2. by rewrite (Hall _ _ H1), (Hall _ _ H2).
Qed.

(** *** Every destination lists every equation of the group *)

Lemma append_item_lists_new (m : SourceMap) s e :
  lists_under (append_item s e m) s e.
Proof.
  induction m as [|[k xs] m IH]; cbn [append_item].
  - exists [e]. split; left.
  - destruct (decide (s = k)) as [->|Hne].
    + exists (xs ++ [e]). split; [left|]. apply elem_of_app. right. left.
    + destruct IH as (eqs & Hin & He). exists eqs. split; [by right|done].
Qed.

Lemma append_item_lists_old (m : SourceMap) k x s e :
  lists_under m s e -> lists_under (append_item k x m) s e.
Proof.
  induction m as [|[k' xs] m IH]; intros (eqs & Hin & He);
    [by inversion Hin|].
  cbn [append_item]. apply elem_of_cons in Hin as [Heq|Hin].
  - injection Heq as <- <-. destruct (decide (k = s)) as [->|Hne].
    + exists (eqs ++ [x]). split; [left|]. apply elem_of_app. by left.
    + exists eqs. split; [left|done].
  - destruct (decide (k = k')) as [->|Hne].
    + exists eqs. split; [by right|done].
    + destruct IH as (eqs' & Hin' & He'); [by exists eqs|].
      exists eqs'. split; [by right|done].
Qed.

Lemma fold_append_lists_old (srcs : list string) e0 (m : SourceMap) s e :
  lists_under m s e ->
  lists_under (fold_left (fun d src => append_item src e0 d) srcs m) s e.
Proof.
  revert m. induction srcs as [|k srcs IH]; intros m Hm; [done|].
  simpl. by apply IH, append_item_lists_old.
Qed.

Lemma fold_append_lists_new (srcs : list string) e0 (m : SourceMap) s :
  s ∈ srcs ->
  lists_under (fold_left (fun d src => append_item src e0 d) srcs m) s e0.
Proof.
  revert m. induction srcs as [|k srcs IH]; intros m Hs; [by inversion Hs|].
  simpl. apply elem_of_cons in Hs as [->|Hs]; [|by apply IH].
  apply fold_append_lists_old, append_item_lists_new.
Qed.

Lemma sources_of_group_complete (eqs : list Equation) (m : SourceMap)
    e srcs s :
  sources_of_group eqs = inr m -> e ∈ eqs -> sources e = Some srcs ->
  s ∈ srcs -> lists_under m s e.
Proof.
  intros Hm He Hsrcs Hs. unfold sources_of_group in Hm.
  assert (Hgen : forall l (acc : SourceMap),
    for_each l
      (fun equation sources_d =>
         let* srcs := iter (sources equation) in
         ret (fold_left
                (fun sources_d src => append_item src equation sources_d)
                srcs sources_d))
      acc = inr m ->
    lists_under acc s e \/ e ∈ l -> lists_under m s e).
  { induction l as [|e0 l IH]; intros acc Hl Hor; cbn [for_each] in Hl.
    - injection Hl as <-. destruct Hor as [|Hin]; [done|by inversion Hin].
    - destruct (sources e0) as [srcs0|] eqn:He0; [|done]. cbn in Hl.
      apply (IH _ Hl). destruct Hor as [Hacc|Hin].
      + left. by apply fold_append_lists_old.
      + apply elem_of_cons in Hin as [->|Hin]; [|by right].
        left. rewrite Hsrcs in He0. injection He0 as <-.
        by apply fold_append_lists_new. }
  apply (Hgen _ _ Hm). by right.
Qed.

(** The defect behind C1 in general: in what [_make_group] returns, the map
    of every destination lists every equation of the group under each of
    that equation's sources, whatever the equation's own destination. *)
Lemma _make_group_lists_every_equation (g : Group) (dests : DestMap)
    d m e srcs s :
  _make_group g = inr dests -> (d, m) ∈ dests ->
  e ∈ equations g -> sources e = Some srcs -> s ∈ srcs ->
  lists_under m s e.
Proof.
  intros Hg Hd He Hsrcs Hs.
  destruct (sources_of_group (equations g)) as [err|m0] eqn:Hm.
  - rewrite _make_group_unfold, Hm in Hg.
    destruct (dest_list_of (equations g)); simpl in Hg; [|done].
    injection Hg as <-. by inversion Hd.
  - destruct (_make_group_of_sources g m0 Hm) as (dests' & Hg' & _ & Hall).
    rewrite Hg in Hg'. injection Hg' as <-.
    rewrite (Hall _ _ Hd). by eapply sources_of_group_complete.
Qed.

(** C1.  The builder at a group of one equation for [fluid] and one for
    [solid]: the source map of destination [fluid] lists the equation whose
    destination is [solid], and the other way round.  The map of a
    destination is built from all the equations of the group. *)
Theorem make_group_lists_other_destinations :
  let e_fluid := SummationDensity "fluid" (Some ["fluid"]) in
  let e_solid := SummationDensity "solid" (Some ["solid"]) in
  _make_group {| equations := [e_fluid; e_solid] |}
  = inr [ ("fluid", [("fluid", [e_fluid]); ("solid", [e_solid])]);
          ("solid", [("fluid", [e_fluid]); ("solid", [e_solid])]) ].
Proof. reflexivity. Qed.

(** An equation without an [arrays] key stops the collection of array
    declarations, and one without a [variables] or [temporaries] key stops
    the initialization of its loop. *)
Lemma _get_array_declarations_absent `{IterationOrder} (self : SPHEval) e :
  e ∈ all_equations self -> arrays (eq_code e) = None ->
  ~ is_ok (_get_array_declarations self).
Proof.
  intros He Hnone [a Ha]. unfold _get_array_declarations in Ha.
  destruct (for_each _ _ _) as [err|decl] eqn:Hloop; [done|].
  eapply (for_each_raises (all_equations self)); [exact He| |by eexists].
  intros t [b Hb]. by rewrite Hnone in Hb.
Qed.

Lemma _get_initialization_absent `{IterationOrder} (eqs : list Equation) e :
  e ∈ eqs ->
  variables (eq_code e) = None \/ temporaries (eq_code e) = None ->
  ~ is_ok (_get_initialization eqs).
Proof.
  intros He Hnone [a Ha]. unfold _get_initialization in Ha.
  destruct (for_each _ _ _) as [err|init] eqn:Hloop; [done|].
  eapply (for_each_raises eqs); [exact He| |by eexists].
  intros t [b Hb].
  destruct (variables (eq_code e)); simpl in Hb; [|done].
  destruct (temporaries (eq_code e)); simpl in Hb; [|done].
  by destruct Hnone.
Qed.

(** An equation without a [loop] key stops [_get_equation_loop], and a
    block that is [None] (an absent [post] or [setup]) stops the rendering
    of the buffer. *)
Lemma _get_equation_loop_absent (self : SPHEval) (equation : Equation) :
  loop (eq_code equation) = None ->
  _get_equation_loop self equation
  = inl (AttributeError "'NoneType' object has no attribute 'replace'").
Proof. intros Hnone. unfold _get_equation_loop. by rewrite Hnone. Qed.

Lemma SourceCode_get_absent (src : SourceCode.t) (l : Z) :
  (None, l) ∈ SourceCode.code src -> ~ is_ok (SourceCode.get src).
Proof.
  intros Hin [a Ha]. unfold SourceCode.get in Ha.
  destruct (for_each _ _ _) as [err|lines] eqn:Hloop; [done|].
  eapply (for_each_raises (SourceCode.code src)); [exact Hin| |by eexists].
  intros t [b Hb]. done.
Qed.

(** C2.  An equation whose [cython_code()] returns only [loop] and [post]:
    the declaration check and [get_code] read its absent keys as empty,
    but the collection of array declarations and the initialization of its
    loop raise [TypeError], and so does generation, which writes nothing. *)
Theorem absent_keys_raise `{IterationOrder}
    (pas : list ParticleArray) (fp : Sink) :
  exists self,
    SPHEval_init pas [AnEquation (LoopOnly "fluid" (Some ["fluid"]))]
                 AllPairLocator CubicSpline = inr self
    /\ _check_and_get_variables self = inr ([], [])
    /\ get_code "LoopOnly" LoopOnly_code helper = []
    /\ _get_array_declarations self
       = inl (TypeError "'NoneType' object is not iterable")
    /\ _get_initialization [LoopOnly "fluid" (Some ["fluid"])]
       = inl (TypeError "'NoneType' object is not iterable")
    /\ generate self fp
       = (inl (TypeError "'NoneType' object is not iterable"), fp).
Proof.
  eexists. split; [reflexivity|].
  assert (Hcheck : forall self,
    equation_groups self
    = [ {| equations := [LoopOnly "fluid" (Some ["fluid"])] |} ] ->
    _check_and_get_variables self = inr ([], [])).
  { intros self Heg.
    unfold _check_and_get_variables, all_equations, check_variable_names,
      check_temporary_names, check_temporary_declarations.
    rewrite Heg. simpl. by rewrite !dict_order_nil. }
  repeat split; try reflexivity.
  - by apply Hcheck.
  - unfold generate, io_bind, io_pure, _get_body.
    rewrite Hcheck by reflexivity. reflexivity.
Qed.

(** C3 (as stated, at [sources = None]).  The builder raises on a group
    holding an equation constructed with [sources = None]. *)
Lemma make_group_sources_none_raises :
  _make_group {| equations := [SummationDensity "fluid" None] |}
  = inl (TypeError "'NoneType' object is not iterable")
  /\ ~ is_ok (_make_group {| equations := [SummationDensity "fluid" None] |}).
Proof. split; [reflexivity|]. intros [a Ha]. discriminate Ha. Qed.

(** C3 (amended).  In a group whose equations all carry a list of sources,
    possibly empty, the builder returns; every equation's destination is a
    key of the result; an equation is listed only under sources it names;
    so an equation with the empty list is listed under no source. *)
Theorem make_group_with_listed_sources (g : Group) :
  (forall e, e ∈ equations g -> sources e <> None) ->
  exists dests, _make_group g = inr dests
    /\ (forall e, e ∈ equations g -> dest e ∈ dests.*1)
    /\ (forall d m s eqs e,
           (d, m) ∈ dests -> (s, eqs) ∈ m -> e ∈ eqs ->
           exists srcs, sources e = Some srcs /\ s ∈ srcs)
    /\ (forall d m s eqs e,
           (d, m) ∈ dests -> (s, eqs) ∈ m -> sources e = Some [] ->
           e ∉ eqs).
Proof.
  intros Hsome.
  destruct (sources_of_group_ok _ Hsome) as [m Hm].
  destruct (_make_group_of_sources g m Hm) as (dests & Hg & Hkeys & Hall).
  pose proof (sources_of_group_listed _ _ Hm) as Hlisted.
  exists dests. split; [done|]. split; [|split].
  - intros e He. apply Hkeys. by apply dest_list_of_complete.
  - intros d m' s eqs e Hd Hs He. rewrite (Hall _ _ Hd) in Hs.
    by eapply Hlisted.
  - intros d m' s eqs e Hd Hs Hempty He. rewrite (Hall _ _ Hd) in Hs.
    destruct (Hlisted _ _ _ Hs He) as (srcs & Hsrcs & Hin).
    rewrite Hempty in Hsrcs. injection Hsrcs as <-. by inversion Hin.
Qed.

Lemma make_group_with_listed_sources_witness :
  exists dests,
    _make_group {| equations := [LoopOnly "fluid" (Some []);
                                 SummationDensity "fluid" (Some ["solid"])] |}
    = inr dests
    /\ "fluid" ∈ dests.*1
    /\ forall d m s eqs, (d, m) ∈ dests -> (s, eqs) ∈ m ->
                         LoopOnly "fluid" (Some []) ∉ eqs.
Proof.
  destruct (make_group_with_listed_sources
              {| equations := [LoopOnly "fluid" (Some []);
                               SummationDensity "fluid" (Some ["solid"])] |})
    as (dests & Hg & Hkeys & _ & Hempty).
  - intros e He. simpl in He.
    apply elem_of_cons in He as [->|He]; [discriminate|].
    apply list_elem_of_singleton in He as ->. discriminate.
  - exists dests. split; [exact Hg|]. split.
    + apply (Hkeys (LoopOnly "fluid" (Some []))). apply list_elem_of_here.
    + intros d m s eqs Hd Hs. eapply Hempty; [exact Hd|exact Hs|reflexivity].
Defined.

Section grouped_facts.
Context {V : Type}.
Implicit Types (k : string).

Lemma keys_append_item (d : pydict (list V)) k x :
  (append_item k x d).*1 = if decide (k ∈ d.*1) then d.*1 else d.*1 ++ [k].
Proof.
  induction d as [|[k' xs] d IH]; [done|].
  cbn [append_item].
  destruct (decide (k = k')) as [->|Hne]; rewrite !fmap_cons; cbn [fst].
  - rewrite decide_True by left. done.
  - rewrite IH. destruct (decide (k ∈ d.*1)) as [Hin|Hnin].
    + rewrite decide_True by (by right). done.
    + rewrite decide_False; [done|].
      intros Hin. apply elem_of_cons in Hin as [?|?]; done.
Qed.

Lemma getitem_append_item (d : pydict (list V)) k k' x :
  getitem k (append_item k' x d)
  = if decide (k = k') then Some (default [] (getitem k d) ++ [x])
    else getitem k d.
Proof.
  induction d as [|[k0 xs] d IH]; simpl.
  - destruct (decide (k = k')); done.
  - destruct (decide (k' = k0)) as [->|Hne]; simpl.
    + destruct (decide (k = k0)); done.
    + destruct (decide (k = k0)) as [->|Hne'].
      * rewrite decide_False by done. done.
      * exact IH.
Qed.

Lemma getitem_None {W} (d : pydict W) k : getitem k d = None <-> k ∉ d.*1.
Proof.
  induction d as [|[k0 v] d IH]; simpl.
  - split; [|done]. intros _ Hin. by inversion Hin.
  - destruct (decide (k = k0)) as [->|Hne].
    + split; [done|]. intros Hn. destruct Hn. left.
    + rewrite IH. rewrite not_elem_of_cons. tauto.
Qed.

Lemma getitem_Some_elem {W} (d : pydict W) k v :
  getitem k d = Some v -> (k, v) ∈ d.
Proof.
  induction d as [|[k0 v0] d IH]; simpl; [done|].
  destruct (decide (k = k0)) as [->|Hne].
  - intros [= ->]. left.
  - intros Hg. right. by apply IH.
Qed.

Lemma elem_getitem {W} (d : pydict W) k v :
  NoDup d.*1 -> (k, v) ∈ d -> getitem k d = Some v.
Proof.
  induction d as [|[k0 v0] d IH]; simpl; intros Hnd Hin; [by inversion Hin|].
  apply NoDup_cons in Hnd as [Hk0 Hnd].
  apply elem_of_cons in Hin as [Heq|Hin].
  - injection Heq as -> ->. by rewrite decide_True.
  - rewrite decide_False; [by apply IH|].
    intros ->. apply Hk0. apply list_elem_of_fmap. by exists (k0, v).
Qed.

Lemma grouped_snoc (l : list (string * V)) p :
  grouped (l ++ [p]) = append_item p.1 p.2 (grouped l).
Proof. unfold grouped. by rewrite fold_left_app. Qed.

Lemma values_of_snoc k (l : list (string * V)) p :
  values_of k (l ++ [p])
  = values_of k l ++ (if decide (p.1 = k) then [p.2] else []).
Proof.
  unfold values_of. rewrite filter_app, fmap_app. f_equal.
  destruct (decide (p.1 = k)) as [Heq|Hne].
  - by rewrite filter_cons_True.
  - by rewrite filter_cons_False.
Qed.

Lemma values_of_app k (l1 l2 : list (string * V)) :
  values_of k (l1 ++ l2) = values_of k l1 ++ values_of k l2.
Proof. unfold values_of. by rewrite filter_app, fmap_app. Qed.

Lemma values_of_nil_iff k (l : list (string * V)) :
  values_of k l = [] <-> k ∉ l.*1.
Proof.
  induction l as [|[k0 v] l IH]; simpl.
  - split; [|done]. intros _ Hin. by inversion Hin.
  - unfold values_of in *. rewrite not_elem_of_cons.
    destruct (decide (k0 = k)) as [->|Hne].
    + rewrite filter_cons_True by done. simpl. split; [done|tauto].
    + rewrite filter_cons_False by done. rewrite IH.
      split; [|tauto]. intros ?. split; [congruence|done].
Qed.

Lemma elem_of_values_of k (l : list (string * V)) v :
  v ∈ values_of k l <-> (k, v) ∈ l.
Proof.
  unfold values_of. rewrite list_elem_of_fmap. split.
  - intros ([k' v'] & -> & Hin). apply list_elem_of_filter in Hin as [Hk Hin].
    simpl in Hk. by subst k'.
  - intros Hin. exists (k, v). split; [done|].
    by apply list_elem_of_filter.
Qed.

Lemma NoDup_keys_grouped (l : list (string * V)) : NoDup (grouped l).*1.
Proof.
  induction l as [|p l IH] using rev_ind; [constructor|].
  rewrite grouped_snoc, keys_append_item.
  destruct (decide (p.1 ∈ (grouped l).*1)); [done|].
  apply NoDup_app. split; [done|]. split; [|apply NoDup_singleton].
  intros x Hx Hp. apply list_elem_of_singleton in Hp. by subst x.
Qed.

Lemma keys_grouped (l : list (string * V)) k :
  k ∈ (grouped l).*1 <-> k ∈ l.*1.
Proof.
  induction l as [|p l IH] using rev_ind; [done|].
  rewrite grouped_snoc, keys_append_item, fmap_app, elem_of_app. simpl.
  rewrite list_elem_of_singleton.
  destruct (decide (p.1 ∈ (grouped l).*1)) as [Hin|Hnin].
  - rewrite IH. split; [tauto|]. intros [?|Heq]; [done|].
    subst k. by apply IH.
  - rewrite elem_of_app, list_elem_of_singleton, IH. done.
Qed.

Lemma getitem_grouped (l : list (string * V)) k :
  getitem k (grouped l)
  = if decide (k ∈ l.*1) then Some (values_of k l) else None.
Proof.
  induction l as [|p l IH] using rev_ind; [done|].
  rewrite grouped_snoc, getitem_append_item, values_of_snoc, IH.
    rewrite fmap_app. simpl.
    destruct (decide (k = p.1)) as [->|Hne].
    + rewrite (decide_True (P := p.1 = p.1)) by done.
      rewrite (decide_True (P := p.1 ∈ l.*1 ++ [p.1])); last first.
      { apply elem_of_app. right. left. }
      f_equal. f_equal. destruct (decide (p.1 ∈ l.*1)) as [Hin|Hnin]; [done|].
      simpl. symmetry. by apply values_of_nil_iff.
    + rewrite (decide_False (P := p.1 = k)) by done. rewrite app_nil_r.
      destruct (decide (k ∈ l.*1)) as [Hin|Hnin].
      * rewrite decide_True; [done|]. apply elem_of_app. by left.
      * rewrite decide_False; [done|]. intros Hin.
        apply elem_of_app in Hin as [?|Hin]; [done|].
        apply list_elem_of_singleton in Hin. done.
Qed.

(** The entries of a grouped dictionary: each key that occurs, with the
    values entered under it. *)
Lemma elem_of_grouped (l : list (string * V)) k xs :
  (k, xs) ∈ grouped l <-> k ∈ l.*1 /\ xs = values_of k l.
Proof.
  split.
  - intros Hin. apply elem_getitem in Hin; [|apply NoDup_keys_grouped].
    rewrite getitem_grouped in Hin.
    destruct (decide (k ∈ l.*1)); [|done]. by injection Hin as <-.
  - intros [Hk ->]. apply getitem_Some_elem.
    rewrite getitem_grouped. by rewrite decide_True.
Qed.
End grouped_facts.

(** ** The declaration checker *)

Lemma fold_left_through_fmap {A B C} (f : A -> B -> A) (g : C -> B)
    (l : list C) (a : A) :
  fold_left f (g <$> l) a = fold_left (fun a x => f a (g x)) l a.
Proof. revert a. induction l as [|x l IH]; intros a; simpl; [done|apply IH]. Qed.

Lemma grouped_app {V} (l1 l2 : list (string * V)) :
  grouped (l1 ++ l2)
  = fold_left (fun d p => append_item p.1 p.2 d) l2 (grouped l1).
Proof. unfold grouped. by rewrite fold_left_app. Qed.

Lemma entries_snoc {B} (f : Equation -> list B) (pre : list Equation) e :
  concat (f <$> (pre ++ [e])) = concat (f <$> pre) ++ f e.
Proof. rewrite fmap_app, concat_app. simpl. by rewrite app_nil_r. Qed.

Lemma collect_equation_collected (pre : list Equation) e :
  collect_equation (collected pre) e = collected (pre ++ [e]).
Proof.
  unfold collect_equation, collected, var_entries, tmp_entries,
    tmp_decl_entries.
  rewrite !entries_snoc, !grouped_app. cbn [c_vars c_temps var_names tmp_names tmp_declare].
  fold (vars_of e) (temps_of e).
  rewrite !fold_left_through_fmap. reflexivity.
Qed.

Lemma collect_collected (eqs : list Equation) : collect eqs = collected eqs.
Proof.
  unfold collect. change nothing_collected with (collected []).
  change eqs with ([] ++ eqs) at 2. generalize (@nil Equation) as pre.
  induction eqs as [|e eqs IH]; intros pre; simpl.
  - by rewrite app_nil_r.
  - rewrite collect_equation_collected, IH. by rewrite <- (assoc_L (++)).
Qed.


(** Splits on whether a raise-or-pass loop raises; the first goal left is
    that its body has the form [if test x then raise (err x) else pass]. *)
Tactic Notation "guard_cases" constr(test) constr(err)
    "as" simple_intropattern(pat) :=
  match goal with
  | |- context [for_each ?l ?b tt] =>
      let Hs := fresh "Hs" in
      assert (Hs : forall x u, b x u = if test x then inl (err x) else inr tt);
      [| destruct (guard_loop_cases test err b Hs l) as pat]
  end.

Section checker_loops.
Context `{IterationOrder}.

Lemma check_variable_names_cases (c : Collected) :
  (exists n eqs, (n, eqs) ∈ var_names c /\ 1 < length eqs
      /\ check_variable_names c
         = inl (VariableNameClashError (msg_variable_clash n eqs)))
  \/ ((forall n eqs, (n, eqs) ∈ var_names c -> length eqs <= 1)
      /\ check_variable_names c = inr tt).
Proof.
  unfold check_variable_names.
  guard_cases
               (fun p : string * list string => 1 <? length p.2)
               (fun p => VariableNameClashError (msg_variable_clash p.1 p.2))
    as [([n eqs] & Hin & Ht & Hr)|[Hall Hr]];
    [| left | right].
  - by intros [n eqs] u.
  - exists n, eqs. rewrite elem_of_dict_order in Hin.
    apply Nat.ltb_lt in Ht. simpl in Ht, Hr. done.
  - split; [|exact Hr]. intros n eqs Hin.
    specialize (Hall (n, eqs)). simpl in Hall.
    apply Nat.ltb_ge, Hall. by rewrite elem_of_dict_order.
Qed.

Lemma check_temporary_names_cases (c : Collected) :
  (exists n eqs, (n, eqs) ∈ tmp_names c /\ n ∈ (var_names c).*1
      /\ check_temporary_names c
         = inl (VariableNameClashError
                  (msg_temporary_clash n eqs
                     (default [] (getitem n (var_names c))))))
  \/ ((forall n eqs, (n, eqs) ∈ tmp_names c -> n ∉ (var_names c).*1)
      /\ check_temporary_names c = inr tt).
Proof.
  assert (Hcontains : forall n, contains n (var_names c) = true
                                <-> n ∈ (var_names c).*1).
  { intros n. unfold contains.
    pose proof (getitem_None (var_names c) n) as Hn.
    destruct (getitem n (var_names c)); split; try done.
    - intros _. destruct (decide (n ∈ (var_names c).*1)); [done|].
      by apply Hn in n0.
    - intros Hin. by apply Hn in Hin. }
  unfold check_temporary_names.
  guard_cases
               (fun p : string * list string => contains p.1 (var_names c))
               (fun p => VariableNameClashError
                           (msg_temporary_clash p.1 p.2
                              (default [] (getitem p.1 (var_names c)))))
    as [([n eqs] & Hin & Ht & Hr)|[Hall Hr]];
    [| left | right].
  - by intros [n eqs] u.
  - exists n, eqs. rewrite elem_of_dict_order in Hin.
    apply Hcontains in Ht. simpl in Ht, Hr. done.
  - split; [|exact Hr]. intros n eqs Hin Hk.
    specialize (Hall (n, eqs)). simpl in Hall.
    apply Hcontains in Hk. rewrite Hall in Hk; [done|].
    by rewrite elem_of_dict_order.
Qed.

Lemma check_temporary_declarations_cases (c : Collected) :
  (exists n eqs, (n, eqs) ∈ tmp_names c /\ 1 < length eqs
      /\ all_same (default [] (getitem n (tmp_declare c))) = false
      /\ check_temporary_declarations c
         = inl (VariableNameClashError (msg_temporary_differ n eqs)))
  \/ ((forall n eqs, (n, eqs) ∈ tmp_names c -> 1 < length eqs ->
         all_same (default [] (getitem n (tmp_declare c))) = true)
      /\ check_temporary_declarations c = inr tt).
Proof.
  unfold check_temporary_declarations.
  guard_cases
               (fun p : string * list string =>
                  (1 <? length p.2)
                  && negb (all_same
                             (default [] (getitem p.1 (tmp_declare c)))))
               (fun p => VariableNameClashError
                           (msg_temporary_differ p.1 p.2))
    as [([n eqs] & Hin & Ht & Hr)|[Hall Hr]];
    [| left | right].
  - intros [n eqs] u. simpl. destruct (1 <? length eqs); [|done].
    simpl. by destruct (all_same _).
  - exists n, eqs. rewrite elem_of_dict_order in Hin.
    apply andb_true_iff in Ht as [Hlen Hsame]. simpl in *.
    apply Nat.ltb_lt in Hlen. apply negb_true_iff in Hsame. done.
  - split; [|exact Hr]. intros n eqs Hin Hlen.
    specialize (Hall (n, eqs)). simpl in Hall.
    apply Nat.ltb_lt in Hlen. rewrite Hlen in Hall. simpl in Hall.
    apply negb_false_iff, Hall. by rewrite elem_of_dict_order.
Qed.
End checker_loops.

(** *** What the dictionaries of the checker hold *)

Lemma elem_of_entries {B} (f : Equation -> list B) (eqs : list Equation) x :
  x ∈ concat (f <$> eqs) <-> exists e, e ∈ eqs /\ x ∈ f e.
Proof.
  induction eqs as [|e0 eqs IH]; simpl.
  - split; [intros Hin; by inversion Hin|]. intros (e & He & _). by inversion He.
  - rewrite elem_of_app, IH. split.
    + intros [Hx|(e & He & Hx)]; [exists e0; split; [left|done]|].
      exists e. split; [by right|done].
    + intros (e & He & Hx). apply elem_of_cons in He as [->|He]; [by left|].
      right. by exists e.
Qed.

Lemma elem_of_var_entries (eqs : list Equation) n c :
  (n, c) ∈ var_entries eqs
  <-> exists e v, e ∈ eqs /\ v ∈ vars_of e /\ n = var_name v /\ c = eq_class e.
Proof.
  unfold var_entries. rewrite elem_of_entries. split.
  - intros (e & He & Hx). apply list_elem_of_fmap in Hx as (v & Heq & Hv).
    injection Heq as -> ->. by exists e, v.
  - intros (e & v & He & Hv & -> & ->). exists e. split; [done|].
    apply list_elem_of_fmap. by exists v.
Qed.

Lemma keys_var_entries (eqs : list Equation) n :
  n ∈ (var_entries eqs).*1
  <-> exists e, e ∈ eqs /\ n ∈ var_name <$> vars_of e.
Proof.
  rewrite list_elem_of_fmap. split.
  - intros ([n' c] & -> & Hin). apply elem_of_var_entries in Hin
      as (e & v & He & Hv & -> & ->).
    exists e. split; [done|]. apply list_elem_of_fmap. by exists v.
  - intros (e & He & Hn). apply list_elem_of_fmap in Hn as (v & -> & Hv).
    exists (var_name v, eq_class e). split; [done|].
    apply elem_of_var_entries. by exists e, v.
Qed.

Lemma elem_of_tmp_decl_entries (eqs : list Equation) n d :
  (n, d) ∈ tmp_decl_entries eqs
  <-> exists e t, e ∈ eqs /\ t ∈ temps_of e /\ n = var_name t /\ d = declare t.
Proof.
  unfold tmp_decl_entries. rewrite elem_of_entries. split.
  - intros (e & He & Hx). apply list_elem_of_fmap in Hx as (t & Heq & Ht).
    injection Heq as -> ->. by exists e, t.
  - intros (e & t & He & Ht & -> & ->). exists e. split; [done|].
    apply list_elem_of_fmap. by exists t.
Qed.

Lemma keys_tmp_entries (eqs : list Equation) n :
  n ∈ (tmp_entries eqs).*1
  <-> exists e, e ∈ eqs /\ n ∈ var_name <$> temps_of e.
Proof.
  rewrite list_elem_of_fmap. unfold tmp_entries. split.
  - intros ([n' c] & -> & Hin). apply elem_of_entries in Hin as (e & He & Hx).
    apply list_elem_of_fmap in Hx as (t & Heq & Ht). injection Heq as -> ->.
    exists e. split; [done|]. apply list_elem_of_fmap. by exists t.
  - intros (e & He & Hn). apply list_elem_of_fmap in Hn as (t & -> & Ht).
    exists (var_name t, eq_class e). split; [done|].
    apply elem_of_entries. exists e. split; [done|].
    apply list_elem_of_fmap. by exists t.
Qed.

(** The two dictionaries of Temporaries are filled key by key together. *)
Lemma tmp_entries_keys (eqs : list Equation) :
  (tmp_entries eqs).*1 = (tmp_decl_entries eqs).*1.
Proof.
  unfold tmp_entries, tmp_decl_entries.
  induction eqs as [|e eqs IH]; [done|].
  rewrite !fmap_cons. simpl concat. rewrite !fmap_app, IH. f_equal.
  rewrite <- !list_fmap_compose. done.
Qed.

Lemma length_values_of_keys {V W} (l1 : list (string * V))
    (l2 : list (string * W)) k :
  l1.*1 = l2.*1 -> length (values_of k l1) = length (values_of k l2).
Proof.
  revert l2. unfold values_of.
  induction l1 as [|[k1 v1] l1 IH]; intros [|[k2 v2] l2] Hk; try done.
  injection Hk as -> Hk. specialize (IH l2 Hk).
  rewrite !length_fmap in *.
  destruct (decide (k2 = k)) as [->|Hne].
  - rewrite !filter_cons_True by done. simpl. by rewrite IH.
  - rewrite !filter_cons_False by (simpl; congruence). done.
Qed.

Lemma values_of_NoDup_keys {V} (l : list (string * V)) k :
  NoDup l.*1 -> length (values_of k l) <= 1.
Proof.
  unfold values_of. rewrite length_fmap.
  induction l as [|[k0 v] l IH]; intros Hnd; [simpl; lia|].
  rewrite fmap_cons in Hnd. cbn [fst] in Hnd.
  apply NoDup_cons in Hnd as [Hk0 Hnd]. specialize (IH Hnd).
  destruct (decide (k0 = k)) as [->|Hne].
  - rewrite filter_cons_True by done. simpl.
    assert (filter (fun p : string * V => p.1 = k) l = []) as ->; [|done].
    apply (fmap_nil_inv snd). apply values_of_nil_iff. exact Hk0.
  - rewrite filter_cons_False by (simpl; congruence). done.
Qed.

Lemma values_of_nonempty {V} (l : list (string * V)) k :
  k ∈ l.*1 -> 0 < length (values_of k l).
Proof.
  intros Hk. destruct (values_of k l) eqn:Hv; [|simpl; lia].
  apply values_of_nil_iff in Hv. done.
Qed.

Lemma var_entries_app (l1 l2 : list Equation) :
  var_entries (l1 ++ l2) = var_entries l1 ++ var_entries l2.
Proof. unfold var_entries. by rewrite fmap_app, concat_app. Qed.

(** A Variable name declared by two equations has two declaring classes. *)
Lemma duplicate_variable_classes (eqs : list Equation) n :
  duplicate_variable eqs n -> 1 < length (declaring_classes eqs n).
Proof.
  intros (l1 & e1 & l2 & e2 & l3 & -> & H1 & H2). unfold declaring_classes.
  assert (Hone : forall e, n ∈ var_name <$> vars_of e ->
                           0 < length (values_of n (var_entries [e]))).
  { intros e He. apply values_of_nonempty. apply keys_var_entries.
    exists e. split; [left|done]. }
  change (e1 :: l2 ++ e2 :: l3) with ([e1] ++ l2 ++ [e2] ++ l3).
  rewrite !var_entries_app, !values_of_app, !length_app.
  specialize (Hone e1 H1) as Ha. specialize (Hone e2 H2) as Hb. lia.
Qed.


Lemma all_same_true (l : list string) :
  (forall x y, x ∈ l -> y ∈ l -> x = y) -> all_same l = true.
Proof.
  intros Heq. unfold all_same. apply forallb_forall. intros v Hv.
  apply list_elem_of_In in Hv. apply bool_decide_eq_true.
  destruct l as [|h l]; [by inversion Hv|]. simpl. apply Heq; [done|left].
Qed.

Lemma all_same_false (l : list string) x y :
  x ∈ l -> y ∈ l -> x <> y -> all_same l = false.
Proof.
  intros Hx Hy Hne. destruct (all_same l) eqn:Hsame; [|done].
  unfold all_same in Hsame. rewrite forallb_forall in Hsame.
  pose proof (Hsame x (proj1 (list_elem_of_In _ _) Hx)) as H1.
  pose proof (Hsame y (proj1 (list_elem_of_In _ _) Hy)) as H2.
  apply bool_decide_eq_true in H1, H2. congruence.
Qed.

Lemma two_elements_length {A} (l : list A) x y :
  x ∈ l -> y ∈ l -> x <> y -> 1 < length l.
Proof.
  intros Hx Hy Hne. destruct l as [|a [|b l]]; simpl; [by inversion Hx| |lia].
  apply list_elem_of_singleton in Hx, Hy. congruence.
Qed.

(** *** When the checker raises and when it passes *)

Section checker_outcomes.
Context `{IterationOrder}.

Lemma _check_and_get_variables_unfold (self : SPHEval) :
  _check_and_get_variables self
  = let c := collected (all_equations self) in
    let* _ := check_variable_names c in
    let* _ := check_temporary_names c in
    let* _ := check_temporary_declarations c in
    ret (c_vars c, c_temps c).
Proof. unfold _check_and_get_variables. by rewrite collect_collected. Qed.

Lemma in_var_names (eqs : list Equation) n :
  n ∈ (var_entries eqs).*1 ->
  (n, declaring_classes eqs n) ∈ var_names (collected eqs).
Proof. intros Hn. simpl. by apply elem_of_grouped. Qed.

Lemma in_tmp_names (eqs : list Equation) n :
  n ∈ (tmp_entries eqs).*1 ->
  (n, values_of n (tmp_entries eqs)) ∈ tmp_names (collected eqs).
Proof. intros Hn. simpl. by apply elem_of_grouped. Qed.

(** Two equations declaring one Variable name: the first loop raises, on
    a name with several declaring classes. *)
Lemma duplicate_variable_check (eqs : list Equation) n :
  duplicate_variable eqs n ->
  exists n' cls,
    1 < length cls /\ cls = declaring_classes eqs n'
    /\ check_variable_names (collected eqs)
       = inl (VariableNameClashError (msg_variable_clash n' cls)).
Proof.
  intros Hdup. pose proof (duplicate_variable_classes _ _ Hdup) as Hlen.
  destruct (check_variable_names_cases (collected eqs))
    as [(n' & cls & Hin & Hl & Hr)|[Hall _]].
  - exists n', cls. simpl in Hin. apply elem_of_grouped in Hin as [_ ->].
    done.
  - exfalso. specialize (Hall n (declaring_classes eqs n)).
    assert (n ∈ (var_entries eqs).*1) as Hn.
    { destruct (decide (n ∈ (var_entries eqs).*1)) as [|Hnin]; [done|].
      apply values_of_nil_iff in Hnin. unfold declaring_classes in Hlen.
      rewrite Hnin in Hlen. simpl in Hlen. lia. }
    specialize (Hall (in_var_names _ _ Hn)). lia.
Qed.

(** Every exception of the checker is a naming conflict. *)
Lemma checker_error (self : SPHEval) e :
  _check_and_get_variables self = inl e ->
  exists msg, e = VariableNameClashError msg.
Proof.
  rewrite _check_and_get_variables_unfold. cbv zeta.
  destruct (check_variable_names_cases (collected (all_equations self)))
    as [(? & ? & _ & _ & ->)|[_ ->]]; simpl; [intros [= <-]; eauto|].
  destruct (check_temporary_names_cases (collected (all_equations self)))
    as [(? & ? & _ & _ & ->)|[_ ->]]; simpl; [intros [= <-]; eauto|].
  destruct (check_temporary_declarations_cases
              (collected (all_equations self)))
    as [(? & ? & _ & _ & _ & ->)|[_ ->]]; simpl; [intros [= <-]; eauto|].
  done.
Qed.

Lemma checker_raises_or_returns (self : SPHEval) :
  (exists msg,
      _check_and_get_variables self = inl (VariableNameClashError msg))
  \/ _check_and_get_variables self
     = inr (concat (vars_of <$> all_equations self),
            concat (temps_of <$> all_equations self)).
Proof.
  destruct (_check_and_get_variables self) as [e|r] eqn:Hc.
  - left. destruct (checker_error _ _ Hc) as [msg ->]. by exists msg.
  - right. rewrite _check_and_get_variables_unfold in Hc. cbv zeta in Hc.
    destruct (check_variable_names _); [done|].
    destruct (check_temporary_names _); [done|].
    destruct (check_temporary_declarations _); [done|].
    simpl in Hc. by injection Hc as <-.
Qed.

Lemma temporary_variable_collision_check (self : SPHEval) n :
  temporary_variable_collision (all_equations self) n ->
  exists msg,
    _check_and_get_variables self = inl (VariableNameClashError msg).
Proof.
  intros (e1 & e2 & He1 & He2 & Ht & Hv).
  destruct (checker_raises_or_returns self) as [|Hret]; [done|].
  exfalso. rewrite _check_and_get_variables_unfold in Hret.
  cbv zeta in Hret.
  destruct (check_variable_names _); [done|]. simpl in Hret.
  destruct (check_temporary_names_cases (collected (all_equations self)))
    as [(? & ? & _ & _ & Hr)|[Hall _]]; [by rewrite Hr in Hret|].
  assert (n ∈ (tmp_entries (all_equations self)).*1) as Hn.
  { apply keys_tmp_entries. by exists e1. }
  apply (Hall _ _ (in_tmp_names _ _ Hn)). simpl.
  apply keys_grouped, keys_var_entries. by exists e2.
Qed.

Lemma inconsistent_temporary_check (self : SPHEval) n :
  inconsistent_temporary (all_equations self) n ->
  exists msg,
    _check_and_get_variables self = inl (VariableNameClashError msg).
Proof.
  intros (e1 & e2 & t1 & t2 & He1 & He2 & Ht1 & Ht2 & Hn1 & Hn2 & Hne).
  destruct (checker_raises_or_returns self) as [|Hret]; [done|].
  exfalso. rewrite _check_and_get_variables_unfold in Hret.
  cbv zeta in Hret.
  destruct (check_variable_names _); [done|]. simpl in Hret.
  destruct (check_temporary_names _); [done|]. simpl in Hret.
  destruct (check_temporary_declarations_cases
              (collected (all_equations self)))
    as [(? & ? & _ & _ & _ & Hr)|[Hall _]]; [by rewrite Hr in Hret|].
  set (eqs := all_equations self) in *.
  assert ((n, declare t1) ∈ tmp_decl_entries eqs) as Hd1.
  { apply elem_of_tmp_decl_entries. by exists e1, t1. }
  assert ((n, declare t2) ∈ tmp_decl_entries eqs) as Hd2.
  { apply elem_of_tmp_decl_entries. by exists e2, t2. }
  assert (n ∈ (tmp_decl_entries eqs).*1) as Hk.
  { apply list_elem_of_fmap. by exists (n, declare t1). }
  assert (n ∈ (tmp_entries eqs).*1) as Hk' by (by rewrite tmp_entries_keys).
  assert (1 < length (values_of n (tmp_entries eqs))) as Hlen.
  { rewrite (length_values_of_keys _ (tmp_decl_entries eqs))
      by apply tmp_entries_keys.
    apply (two_elements_length _ (declare t1) (declare t2));
      [by apply elem_of_values_of..|done]. }
  specialize (Hall _ _ (in_tmp_names _ _ Hk') Hlen). simpl in Hall.
  rewrite getitem_grouped, decide_True in Hall by done. simpl in Hall.
  rewrite (all_same_false _ (declare t1) (declare t2)) in Hall;
    [done|by apply elem_of_values_of..|done].
Qed.

(** Consistent declarations pass the three loops. *)
Lemma consistent_declarations_check (self : SPHEval) :
  consistent_declarations (all_equations self) ->
  _check_and_get_variables self
  = inr (concat (vars_of <$> all_equations self),
         concat (temps_of <$> all_equations self)).
Proof.
  intros (Hnd & Hsep & Hsame).
  rewrite _check_and_get_variables_unfold. cbv zeta.
  set (eqs := all_equations self) in *.
  destruct (check_variable_names_cases (collected eqs))
    as [(n & cls & Hin & Hl & _)|[_ ->]].
  { exfalso. simpl in Hin. apply elem_of_grouped in Hin as [_ ->].
    pose proof (values_of_NoDup_keys _ n Hnd). lia. }
  destruct (check_temporary_names_cases (collected eqs))
    as [(n & cls & Hin & Hk & _)|[_ ->]].
  { exfalso. simpl in Hin, Hk. apply elem_of_grouped in Hin as [Hn _].
    rewrite keys_grouped in Hk. by apply (Hsep n). }
  destruct (check_temporary_declarations_cases (collected eqs))
    as [(n & cls & Hin & _ & Hdiff & _)|[_ ->]]; [|done].
  exfalso. simpl in Hdiff. rewrite getitem_grouped in Hdiff.
  rewrite all_same_true in Hdiff; [done|].
  intros x y Hx Hy. destruct (decide _); simpl in Hx, Hy;
    [|by inversion Hx].
  apply elem_of_values_of in Hx, Hy. by eapply Hsame.
Qed.

Lemma violation_check (self : SPHEval) :
  violates_invariants (all_equations self) ->
  exists msg,
    _check_and_get_variables self = inl (VariableNameClashError msg).
Proof.
  intros (n & [Hdup|[Hcol|Hinc]]).
  - destruct (duplicate_variable_check _ _ Hdup) as (n' & cls & _ & _ & Hr).
    rewrite _check_and_get_variables_unfold. cbv zeta. rewrite Hr.
    by eexists.
  - by eapply temporary_variable_collision_check.
  - by eapply inconsistent_temporary_check.
Qed.

(** The checker opens the body phase, and the body phase comes before
    the one write. *)
Lemma _get_body_check_raises (self : SPHEval) e :
  _check_and_get_variables self = inl e -> _get_body self = inl e.
Proof. intros Hc. unfold _get_body. by rewrite Hc. Qed.

Lemma generate_body_raises (self : SPHEval) e (fp : Sink) :
  is_ok (_get_helpers self) -> _get_body self = inl e ->
  generate self fp = (inl e, fp).
Proof.
  intros [code Hh] Hb. unfold generate, io_bind, io_pure.
  by rewrite Hh, Hb.
Qed.

Lemma generate_cases (self : SPHEval) (fp : Sink) :
  (exists e, generate self fp = (inl e, fp)
             /\ (_get_helpers self = inl e
                 \/ (is_ok (_get_helpers self) /\ _get_body self = inl e)))
  \/ (exists code body,
         _get_helpers self = inr code /\ _get_body self = inr body
         /\ generate self fp = (inr tt, fp ++ [code +:+ body])).
Proof.
  unfold generate, io_bind, io_pure, fp_write.
  destruct (_get_helpers self) as [e|code] eqn:Hh.
  - left. exists e. split; [done|by left].
  - destruct (_get_body self) as [e|body] eqn:Hb.
    + left. exists e. split; [done|]. right. split; [by eexists|done].
    + right. by exists code, body.
Qed.
End checker_outcomes.

(** ** The declaration block *)

Lemma keys_setitem_unit (d : pydict unit) k :
  (setitem k tt d).*1 = if decide (k ∈ d.*1) then d.*1 else d.*1 ++ [k].
Proof.
  induction d as [|[k' []] d IH]; [done|].
  cbn [setitem].
  destruct (decide (k = k')) as [->|Hne]; rewrite !fmap_cons; cbn [fst].
  - rewrite decide_True by left. done.
  - rewrite IH. destruct (decide (k ∈ d.*1)) as [Hin|Hnin].
    + rewrite decide_True by (by right). done.
    + rewrite decide_False; [done|].
      intros Hin. apply elem_of_cons in Hin as [?|?]; done.
Qed.

Lemma keys_fold_setitem (ks : list string) (d : pydict unit) :
  (fold_left (fun d k => setitem k tt d) ks d).*1
  = fold_left first_seen_step ks d.*1.
Proof.
  revert d. induction ks as [|k ks IH]; intros d; simpl; [done|].
  by rewrite IH, keys_setitem_unit.
Qed.

(** The keys of the deduplicating dictionary are the texts in first-seen
    order. *)
Lemma keys_of_list_first_seen (ks : list string) :
  (keys_of_list ks).*1 = first_seen ks.
Proof. unfold keys_of_list, first_seen. by rewrite keys_fold_setitem. Qed.

Section first_seen_facts.
Context {A : Type} `{EqDecision A}.

Lemma first_seen_fold_spec (l acc : list A) :
  NoDup acc ->
  NoDup (fold_left first_seen_step l acc)
  /\ forall x, x ∈ fold_left first_seen_step l acc <-> x ∈ acc \/ x ∈ l.
Proof.
  revert acc. induction l as [|y l IH]; intros acc Hnd; simpl.
  - split; [done|]. intros x. split; [tauto|].
    intros [?|Hx]; [done|by inversion Hx].
  - assert (NoDup (first_seen_step acc y)) as Hnd'.
    { unfold first_seen_step. destruct (decide (y ∈ acc)); [done|].
      apply NoDup_app. split; [done|]. split; [|apply NoDup_singleton].
      intros x Hx Hy. apply list_elem_of_singleton in Hy. by subst x. }
    destruct (IH _ Hnd') as [IH1 IH2]. split; [done|].
    intros x. rewrite IH2, elem_of_cons. unfold first_seen_step.
    destruct (decide (y ∈ acc)) as [Hy|Hy].
    + split; [tauto|]. intros [?|[->|?]]; tauto.
    + rewrite elem_of_app, list_elem_of_singleton. tauto.
Qed.

Lemma NoDup_first_seen (l : list A) : NoDup (first_seen l).
Proof. apply (first_seen_fold_spec l []). constructor. Qed.

Lemma elem_of_first_seen (l : list A) x : x ∈ first_seen l <-> x ∈ l.
Proof.
  destruct (first_seen_fold_spec l [] (NoDup_nil_2)) as [_ Hx].
  specialize (Hx x). split.
  - intros Hin. apply Hx in Hin as [Hin|?]; [by inversion Hin|done].
  - intros Hin. apply Hx. by right.
Qed.
End first_seen_facts.

Lemma _get_variable_declarations_keys `{IterationOrder}
    (vars : list Variable_) (tmps : list Temporary) :
  _get_variable_declarations vars tmps
  = join nl (dict_order (keys_of_list (declare <$> (vars ++ tmps)))).*1.
Proof.
  unfold _get_variable_declarations, keys_of_list.
  rewrite fmap_app, fold_left_app.
  by rewrite !(fold_left_through_fmap (fun d k => setitem k tt d) declare).
Qed.

(** The lines of the declaration block: the distinct declaration texts,
    each once, in the order the dictionary iterates. *)
Lemma declaration_lines `{IterationOrder}
    (vars : list Variable_) (tmps : list Temporary) :
  exists lines,
    _get_variable_declarations vars tmps = join nl lines
    /\ lines ≡ₚ first_seen (declare <$> (vars ++ tmps))
    /\ NoDup lines
    /\ (forall d, d ∈ lines <-> d ∈ declare <$> (vars ++ tmps)).
Proof.
  exists (dict_order (keys_of_list (declare <$> (vars ++ tmps)))).*1.
  assert (Hp : (dict_order (keys_of_list (declare <$> (vars ++ tmps)))).*1
               ≡ₚ first_seen (declare <$> (vars ++ tmps))).
  { rewrite <- keys_of_list_first_seen. apply fmap_Permutation.
    apply dict_order_perm. }
  split; [apply _get_variable_declarations_keys|]. split; [done|]. split.
  - rewrite Hp. apply NoDup_first_seen.
  - intros d. rewrite Hp. apply elem_of_first_seen.
Qed.

Lemma declaration_lines_insertion_order
    (vars : list Variable_) (tmps : list Temporary) :
  @_get_variable_declarations insertion_order vars tmps
  = join nl (first_seen (declare <$> (vars ++ tmps))).
Proof.
  rewrite _get_variable_declarations_keys. simpl.
  by rewrite keys_of_list_first_seen.
Qed.

(** C4 (as stated, on an interpreter that iterates newest first).  Two
    equations declare the same Temporary [hab]; the check passes, and the
    block lists [hab] before the Variables, while it was seen after them. *)
Lemma declarations_not_first_seen :
  let self := evaluator_of [DensityA; DensityB] in
  exists vars tmps,
    @_check_and_get_variables newest_first self = inr (vars, tmps)
    /\ @_get_variable_declarations newest_first vars tmps
       = join nl ["cdef double hab = 0.0"; "cdef double rho_b";
                  "cdef double rho_a = 0.0"]
    /\ first_seen (declare <$> (vars ++ tmps))
       = ["cdef double rho_a = 0.0"; "cdef double rho_b";
          "cdef double hab = 0.0"]
    /\ @_get_variable_declarations newest_first vars tmps
       <> join nl (first_seen (declare <$> (vars ++ tmps))).
Proof.
  eexists _, _. split; [vm_compute; reflexivity|].
  split; [vm_compute; reflexivity|]. split; [vm_compute; reflexivity|].
  vm_compute. discriminate.
Qed.

(** C4 (amended).  When the declarations are consistent, as they are when
    two equations declare a Temporary of one name with one declaration
    text, the check returns the Variables and the Temporaries, and the
    declaration block is made of the distinct declaration texts, each
    exactly once, joined by line breaks.  The lines come in the order the
    deduplicating dictionary iterates; on an interpreter that keeps
    insertion order this is the first-seen order. *)
Theorem declarations_once_each `{IterationOrder} (self : SPHEval) :
  consistent_declarations (all_equations self) ->
  exists vars tmps lines,
    _check_and_get_variables self = inr (vars, tmps)
    /\ vars = concat (vars_of <$> all_equations self)
    /\ tmps = concat (temps_of <$> all_equations self)
    /\ _get_variable_declarations vars tmps = join nl lines
    /\ lines ≡ₚ first_seen (declare <$> (vars ++ tmps))
    /\ NoDup lines
    /\ (forall d, d ∈ lines <-> d ∈ declare <$> (vars ++ tmps))
    /\ @_get_variable_declarations insertion_order vars tmps
       = join nl (first_seen (declare <$> (vars ++ tmps))).
Proof.
  intros Hok.
  destruct (declaration_lines (concat (vars_of <$> all_equations self))
              (concat (temps_of <$> all_equations self)))
    as (lines & Hl & Hp & Hnd & Hin).
  eexists _, _, lines. split; [by apply consistent_declarations_check|].
  repeat split; try done; try apply Hin.
  apply declaration_lines_insertion_order.
Qed.

Lemma declarations_once_each_witness :
  exists lines,
    @_check_and_get_variables insertion_order
       (evaluator_of [DensityA; DensityB])
    = inr (concat (vars_of <$> [DensityA; DensityB]),
           concat (temps_of <$> [DensityA; DensityB]))
    /\ @_get_variable_declarations insertion_order
         (concat (vars_of <$> [DensityA; DensityB]))
         (concat (temps_of <$> [DensityA; DensityB]))
       = join nl lines
    /\ NoDup lines.
Proof.
  destruct (@declarations_once_each insertion_order
              (evaluator_of [DensityA; DensityB]))
    as (vars & tmps & lines & Hc & -> & -> & Hl & _ & Hnd & _).
  - split; [|split].
    + apply (bool_decide_unpack _). vm_compute. exact I.
    + intros n Hn Hv. cbn in Hn, Hv.
      apply elem_of_cons in Hv as [->|Hv].
      * apply elem_of_cons in Hn as [Hn|Hn]; [discriminate|].
        apply list_elem_of_singleton in Hn. discriminate.
      * apply list_elem_of_singleton in Hv as ->.
        apply elem_of_cons in Hn as [Hn|Hn]; [discriminate|].
        apply list_elem_of_singleton in Hn. discriminate.
    + intros n d1 d2 H1 H2. cbn in H1, H2.
      assert (forall d, (n, d) ∈ [("hab", declare shared_hab);
                                  ("hab", declare shared_hab)]
                        -> d = declare shared_hab) as Hd.
      { intros d Hd. apply elem_of_cons in Hd as [Hd|Hd].
        - by injection Hd.
        - apply list_elem_of_singleton in Hd. by injection Hd. }
      by rewrite (Hd _ H1), (Hd _ H2).
  - exists lines. split; [exact Hc|]. split; [exact Hl|exact Hnd].
Defined.

(** ** Naming conflicts *)



(** The message of that conflict, as the interpreter prints it. *)
Example duplicate_variable_message :
  @generate insertion_order
    (evaluator_of [SummationDensity "fluid" (Some ["fluid"]);
                   SummationDensity "solid" (Some ["fluid"])]) []
  = (inl (VariableNameClashError
            "Variable rho_sum defined in ['SummationDensity', 'SummationDensity']."),
     []).
Proof. vm_compute. reflexivity. Qed.

(** C8.  When a name is declared as a Temporary by an equation and as a
    Variable by an equation, whichever comes first in the list, the check,
    and with it the body phase, raises [VariableNameClashError].  With a
    helper section that can be built, [generate] raises it and writes
    nothing. *)
Theorem temporary_variable_collision_raises `{IterationOrder}
    (self : SPHEval) n :
  temporary_variable_collision (all_equations self) n ->
  exists msg,
    _check_and_get_variables self = inl (VariableNameClashError msg)
    /\ _get_body self = inl (VariableNameClashError msg)
    /\ forall fp, is_ok (_get_helpers self) ->
                  generate self fp = (inl (VariableNameClashError msg), fp).
Proof.
  intros Hcol.
  destruct (temporary_variable_collision_check _ _ Hcol) as [msg Hc].
  exists msg. split; [done|]. split.
  - by apply _get_body_check_raises.
  - intros fp Hh. apply generate_body_raises; [done|].
    by apply _get_body_check_raises.
Qed.

Lemma temporary_variable_collision_raises_witness :
  (exists msg,
      @generate insertion_order
        (evaluator_of [DensityA; SmoothingLength]) []
      = (inl (VariableNameClashError msg), []))
  /\ (exists msg,
         @generate insertion_order
           (evaluator_of [SmoothingLength; DensityA]) []
         = (inl (VariableNameClashError msg), [])).
Proof.
  split.
  - destruct (@temporary_variable_collision_raises insertion_order
                (evaluator_of [DensityA; SmoothingLength]) "hab")
      as (msg & _ & _ & Hgen).
    + exists DensityA, SmoothingLength.
      split; [apply list_elem_of_here|].
      split; [apply list_elem_of_further, list_elem_of_here|].
      split; apply list_elem_of_here.
    + exists msg. apply Hgen. eexists. vm_compute. reflexivity.
  - destruct (@temporary_variable_collision_raises insertion_order
                (evaluator_of [SmoothingLength; DensityA]) "hab")
      as (msg & _ & _ & Hgen).
    + exists DensityA, SmoothingLength.
      split; [apply list_elem_of_further, list_elem_of_here|].
      split; [apply list_elem_of_here|].
      split; apply list_elem_of_here.
    + exists msg. apply Hgen. eexists. vm_compute. reflexivity.
Defined.

(** ** All-or-nothing generation *)

(** C6.  On an equation set that breaks a naming invariant (a Variable name
    declared by two equations, a name declared both as Temporary and as
    Variable, or one Temporary name with two declaration texts) [generate]
    raises and leaves the sink as it was.  On every input, [generate]
    either raises and leaves the sink as it was, or returns after writing
    one text, the helper section followed by the body; and so does building
    the evaluator and generating. *)
Theorem generation_all_or_nothing `{IterationOrder} (self : SPHEval)
    (fp : Sink) :
  (violates_invariants (all_equations self) ->
   exists e, generate self fp = (inl e, fp))
  /\ ((exists e, generate self fp = (inl e, fp))
      \/ (exists code body,
             _get_helpers self = inr code /\ _get_body self = inr body
             /\ generate self fp = (inr tt, fp ++ [code +:+ body])))
  /\ (forall pas equations loc ker,
         (exists e, build_and_generate pas equations loc ker fp = (inl e, fp))
         \/ (exists text, build_and_generate pas equations loc ker fp
                          = (inr tt, fp ++ [text])))
  /\ (forall pas equations loc ker self',
         SPHEval_init pas equations loc ker = inr self' ->
         violates_invariants (all_equations self') ->
         exists e, build_and_generate pas equations loc ker fp = (inl e, fp)).
Proof.
  split; [|split; [|split]].
  - intros Hviol. destruct (violation_check _ Hviol) as [msg Hc].
    apply _get_body_check_raises in Hc.
    destruct (generate_cases self fp)
      as [(e & Hg & _)|(code & body & _ & Hb & _)]; [by exists e|].
    rewrite Hb in Hc. done.
  - destruct (generate_cases self fp)
      as [(e & Hg & _)|(code & body & Hh & Hb & Hg)].
    + left. by exists e.
    + right. by exists code, body.
  - intros pas equations loc ker. unfold build_and_generate, io_bind, io_pure.
    destruct (SPHEval_init pas equations loc ker) as [e|self'].
    + left. by exists e.
    + destruct (generate_cases self' fp)
        as [(e & Hg & _)|(code & body & _ & _ & Hg)].
      * left. by exists e.
      * right. by exists (code +:+ body).
  - intros pas equations loc ker self' Hinit Hviol.
    unfold build_and_generate, io_bind, io_pure. rewrite Hinit.
    destruct (violation_check _ Hviol) as [msg Hc].
    apply _get_body_check_raises in Hc.
    destruct (generate_cases self' fp)
      as [(e & Hg & _)|(code & body & _ & Hb & _)]; [by exists e|].
    rewrite Hb in Hc. done.
Qed.

Lemma generation_all_or_nothing_witness :
  exists e,
    @generate insertion_order
      (evaluator_of [SummationDensity "fluid" (Some ["fluid"]);
                     SummationDensity "solid" (Some ["fluid"])])
      ["written before"]
    = (inl e, ["written before"]).
Proof.
  destruct (@generation_all_or_nothing insertion_order
              (evaluator_of [SummationDensity "fluid" (Some ["fluid"]);
                             SummationDensity "solid" (Some ["fluid"])])
              ["written before"]) as (Hviol & _ & _ & _).
  apply Hviol. exists "rho_sum". left.
  exists [], (SummationDensity "fluid" (Some ["fluid"])), [],
    (SummationDensity "solid" (Some ["fluid"])), [].
  split; [reflexivity|]. split; apply list_elem_of_here.
Defined.

(** ** Token substitution *)

Lemma append_cons (c : ascii) (a b : string) :
  String c a +:+ b = String c (a +:+ b).
Proof. reflexivity. Qed.

Lemma append_assoc_str (a b c : string) : (a +:+ b) +:+ c = a +:+ (b +:+ c).
Proof.
  induction a as [|x a IH]; [done|]. by rewrite !append_cons, IH.
Qed.

Lemma startswith_cons (c a : ascii) (s p : string) :
  startswith (String c s) (String a p) = Ascii.eqb a c && startswith s p.
Proof. reflexivity. Qed.

Lemma startswith_true (s p : string) :
  startswith s p = true -> exists t, s = p +:+ t.
Proof.
  revert s. induction p as [|a p IH]; intros s; simpl.
  - intros _. by exists s.
  - destruct s as [|b s]; [done|].
    intros [Hab Hp]%andb_true_iff. apply Ascii.eqb_eq in Hab as ->.
    destruct (IH _ Hp) as [t ->]. by exists t.
Qed.

(** A pattern without the letter [K] is blind to what follows a prefix
    ended by [K]. *)
Lemma startswith_before_K (p x r : string) :
  p <> EmptyString -> has_char "K" p = false ->
  startswith (x +:+ String "K" r) p = startswith x p.
Proof.
  revert x. induction p as [|a p IH]; intros x Hne HK; [done|].
  cbn [has_char] in HK. apply orb_false_iff in HK as [Ha HK].
  destruct x as [|c x].
  - change ("" +:+ String "K" r) with (String "K" r). cbn [startswith].
    rewrite Ascii.eqb_sym, Ha. done.
  - rewrite append_cons. cbn [startswith].
    destruct (Ascii.eqb a c); simpl; [|done].
    destruct p as [|a' p]; [done|]. by apply IH.
Qed.

Section substitution.
Variable cls : string.
Let kernel_name : string := cls +:+ "Kernel".
Let gradient : string := cls +:+ "Gradient".

(** Replacing [GRADIENT] steps over a kernel name that does not contain
    it. *)
Lemma replace_gradient_over_kernel_name (x rest : string) :
  occurs x "GRADIENT" = false ->
  replace_from "GRADIENT" gradient 0 ((x +:+ "Kernel") +:+ rest)
  = (x +:+ "Kernel") +:+ replace_from "GRADIENT" gradient 0 rest.
Proof.
  induction x as [|c x IH]; intros Hocc.
  - reflexivity.
  - cbn [occurs] in Hocc. apply orb_false_iff in Hocc as [Hhere Hocc].
    assert (Hs : startswith ((String c x +:+ "Kernel") +:+ rest) "GRADIENT"
                 = false).
    { rewrite append_assoc_str.
      change ("Kernel" +:+ rest) with (String "K" ("ernel" +:+ rest)).
      by rewrite startswith_before_K. }
    rewrite !append_cons in Hs |- *. cbn [replace_from].
    by rewrite Hs, IH.
Qed.

(** Replacing [KERNEL] cannot make a text start with a pattern it did not
    start with, when the kernel name starts with no suffix of the
    pattern. *)
Lemma replace_kernel_keeps_start (p s : string) :
  has_char "K" p = false -> starts_no_suffix cls p = true ->
  startswith s p = false ->
  startswith (replace_from "KERNEL" kernel_name 0 s) p = false.
Proof.
  revert s. induction p as [|a p IH]; intros s HK Hsafe Hs; [done|].
  cbn [has_char] in HK. apply orb_false_iff in HK as [Ha HK].
  cbn [starts_no_suffix] in Hsafe.
  apply andb_true_iff in Hsafe as [Hhere Hsafe].
  apply negb_true_iff in Hhere.
  destruct s as [|c s]; [done|].
  cbn [replace_from]. destruct (startswith (String c s) "KERNEL").
  - unfold kernel_name. rewrite append_assoc_str.
    change ("Kernel" +:+ ?r) with (String "K" ("ernel" +:+ r)).
    rewrite startswith_before_K; [done|done|].
    cbn [has_char]. by rewrite Ha, HK.
  - rewrite startswith_cons in Hs |- *.
    destruct (Ascii.eqb a c); [|done].
    rewrite andb_true_l in Hs |- *. by apply IH.
Qed.

Hypothesis cls_safe : kernel_class_safe cls = true.

Lemma cls_without_gradient : occurs cls "GRADIENT" = false.
Proof.
  unfold kernel_class_safe in cls_safe.
  apply andb_true_iff in cls_safe as [Hocc _]. by apply negb_true_iff.
Qed.

Lemma cls_starts_no_suffix : starts_no_suffix cls "RADIENT" = true.
Proof.
  unfold kernel_class_safe in cls_safe.
  by apply andb_true_iff in cls_safe as [_ Hs].
Qed.

(** The two chained replacements are the one-pass substitution. *)
Lemma chained_replace_is_substitution (m : nat) :
  forall (s : string) (n : nat),
    String.length s <= m ->
    replace_from "GRADIENT" gradient 0 (replace_from "KERNEL" kernel_name n s)
    = substitute_tokens_from kernel_name gradient n s.
Proof.
  induction m as [|m IH]; intros s n Hlen.
  - destruct s as [|c s]; [done|].
    change (String.length (String c s)) with (S (String.length s)) in Hlen.
    lia.
  - destruct s as [|c s]; [done|].
    change (String.length (String c s)) with (S (String.length s)) in Hlen.
    destruct n as [|n]; cbn [replace_from substitute_tokens_from];
      [|apply IH; lia].
    destruct (startswith (String c s) "KERNEL") eqn:HK.
    + (* a KERNEL token *)
      change (String.length "KERNEL" - 1) with 5. unfold kernel_name at 1.
      rewrite replace_gradient_over_kernel_name by apply cls_without_gradient.
      fold kernel_name. f_equal. apply IH. lia.
    + destruct (startswith (String c s) "GRADIENT") eqn:HG.
      * (* a GRADIENT token *)
        apply startswith_true in HG as [t Ht].
        change ("GRADIENT" +:+ t)
          with (String "G" (String "R" (String "A" (String "D"
                 (String "I" (String "E" (String "N" (String "T" t))))))))
          in Ht.
        injection Ht as -> ->. cbn.
        f_equal. apply IH.
        change (String.length (String "R" (String "A" (String "D"
                 (String "I" (String "E" (String "N" (String "T" t))))))))
          with (7 + String.length t) in Hlen.
        lia.
      * (* any other character *)
        cbn [replace_from].
        rewrite IH by lia.
        replace (startswith
                   (String c (replace_from "KERNEL" kernel_name 0 s))
                   "GRADIENT") with false; [done|].
        symmetry. change "GRADIENT" with (String "G" "RADIENT") in HG |- *.
        rewrite startswith_cons in HG |- *.
        destruct (Ascii.eqb "G" c); [|done].
        rewrite andb_true_l in HG |- *.
        apply replace_kernel_keeps_start;
          [reflexivity|apply cls_starts_no_suffix|done].
Qed.
End substitution.

(** C9 (as stated, with a kernel class named [GRADIENTCorrected]).  The
    [KERNEL] of the density equation does not become the kernel's
    weight-evaluator name [GRADIENTCorrectedKernel]: the second replacement
    rewrites the [GRADIENT] inside the name just substituted. *)
Lemma kernel_token_not_replaced_by_kernel_name :
  let equation := SummationDensity "fluid" (Some ["fluid"]) in
  let self := with_kernel GRADIENTCorrected (evaluator_of [equation]) in
  _get_equation_loop self equation
  = inr ("hab = 0.5*(s_h[s_idx] + d_h[d_idx])" +:+ nl +:+
         "rho_sum += s_m[s_idx]*GRADIENTCorrectedGradientCorrectedKernel(d_x[d_idx], s_x[s_idx], hab)"
         +:+ nl)
  /\ substitute_tokens "GRADIENTCorrectedKernel" "GRADIENTCorrectedGradient"
       ("hab = 0.5*(s_h[s_idx] + d_h[d_idx])" +:+ nl +:+
        "rho_sum += s_m[s_idx]*KERNEL(d_x[d_idx], s_x[s_idx], hab)" +:+ nl)
     = "hab = 0.5*(s_h[s_idx] + d_h[d_idx])" +:+ nl +:+
       "rho_sum += s_m[s_idx]*GRADIENTCorrectedKernel(d_x[d_idx], s_x[s_idx], hab)"
       +:+ nl
  /\ _get_equation_loop self equation
     <> inr (substitute_tokens "GRADIENTCorrectedKernel"
               "GRADIENTCorrectedGradient"
               ("hab = 0.5*(s_h[s_idx] + d_h[d_idx])" +:+ nl +:+
                "rho_sum += s_m[s_idx]*KERNEL(d_x[d_idx], s_x[s_idx], hab)"
                +:+ nl)).
Proof.
  split; [vm_compute; reflexivity|]. split; [vm_compute; reflexivity|].
  vm_compute. discriminate.
Qed.

(** C9 (amended).  For an equation with a [loop] fragment and a kernel
    whose class name neither contains [GRADIENT] nor begins with one of its
    proper suffixes, the per-neighbour code is the fragment in which every
    occurrence of [KERNEL] is replaced by the class name followed by
    [Kernel], every occurrence of [GRADIENT] by the class name followed by
    [Gradient], and nothing else is changed. *)
Theorem equation_loop_substitutes_tokens (self : SPHEval)
    (equation : Equation) (code : string) :
  loop (eq_code equation) = Some code ->
  kernel_class_safe (kernel_class (kernel self)) = true ->
  _get_equation_loop self equation
  = inr (substitute_tokens (kernel_class (kernel self) +:+ "Kernel")
                           (kernel_class (kernel self) +:+ "Gradient") code).
Proof.
  intros Hloop Hsafe. unfold _get_equation_loop. rewrite Hloop.
  unfold ret, replace, substitute_tokens. f_equal.
  by apply (chained_replace_is_substitution _ Hsafe (String.length code)).
Qed.

Lemma equation_loop_substitutes_tokens_witness :
  _get_equation_loop (evaluator_of [SummationDensity "fluid" (Some ["fluid"])])
    (SummationDensity "fluid" (Some ["fluid"]))
  = inr (substitute_tokens "CubicSplineKernel" "CubicSplineGradient"
           ("hab = 0.5*(s_h[s_idx] + d_h[d_idx])" +:+ nl +:+
            "rho_sum += s_m[s_idx]*KERNEL(d_x[d_idx], s_x[s_idx], hab)"
            +:+ nl)).
Proof.
  apply (equation_loop_substitutes_tokens
           (evaluator_of [SummationDensity "fluid" (Some ["fluid"])])
           (SummationDensity "fluid" (Some ["fluid"]))).
  - reflexivity.
  - vm_compute. reflexivity.
Defined.

(** The substituted text of that equation. *)
Example equation_loop_of_summation_density :
  _get_equation_loop (evaluator_of [SummationDensity "fluid" (Some ["fluid"])])
    (SummationDensity "fluid" (Some ["fluid"]))
  = inr ("hab = 0.5*(s_h[s_idx] + d_h[d_idx])" +:+ nl +:+
         "rho_sum += s_m[s_idx]*CubicSplineKernel(d_x[d_idx], s_x[s_idx], hab)"
         +:+ nl).
Proof. vm_compute. reflexivity. Qed.

(** *** The condition on the class name cannot be dropped *)

Lemma length_append_str (a b : string) :
  String.length (a +:+ b) = String.length a + String.length b.
Proof.
  induction a as [|c a IH]; [done|].
  rewrite append_cons.
  change (String.length (String c ?x)) with (S (String.length x)).
  by rewrite IH.
Qed.

Lemma startswith_app_l (s t p : string) :
  startswith s p = true -> startswith (s +:+ t) p = true.
Proof.
  revert s. induction p as [|a p IH]; intros s Hs; [done|].
  destruct s as [|c s]; [done|].
  rewrite append_cons, startswith_cons in *.
  apply andb_true_iff in Hs as [-> Hs]. by rewrite IH.
Qed.

Lemma occurs_app_l (s t p : string) :
  occurs s p = true -> occurs (s +:+ t) p = true.
Proof.
  induction s as [|c s IH]; cbn [occurs]; intros Hs.
  - rewrite orb_false_r in Hs. destruct p; [|done]. by destruct t.
  - rewrite append_cons. cbn [occurs].
    apply orb_true_iff in Hs as [Hs|Hs]; apply orb_true_iff.
    + left. by apply (startswith_app_l (String c s)).
    + right. by apply IH.
Qed.

Section replace_length.
Variable new : string.
Hypothesis new_long : 8 < String.length new.

Lemma replace_gradient_length_ge (s : string) (n : nat) :
  String.length s <= String.length (replace_from "GRADIENT" new n s) + n.
Proof.
  revert n. induction s as [|c s IH]; intros n; [cbn; lia|].
  change (String.length (String c s)) with (S (String.length s)).
  destruct n as [|n]; cbn [replace_from].
  - destruct (startswith (String c s) "GRADIENT").
    + change (String.length "GRADIENT" - 1) with 7.
      rewrite length_append_str. specialize (IH 7). lia.
    + change (String.length (String c ?x)) with (S (String.length x)).
      specialize (IH 0). lia.
  - specialize (IH n). lia.
Qed.

Lemma replace_gradient_length_gt (s : string) :
  occurs s "GRADIENT" = true ->
  String.length s < String.length (replace_from "GRADIENT" new 0 s).
Proof.
  induction s as [|c s IH]; cbn [occurs]; intros Hocc; [done|].
  change (String.length (String c s)) with (S (String.length s)).
  cbn [replace_from].
  destruct (startswith (String c s) "GRADIENT"); simpl in Hocc.
  - change (String.length "GRADIENT" - 1) with 7.
    rewrite length_append_str.
    pose proof (replace_gradient_length_ge s 7). lia.
  - change (String.length (String c ?x)) with (S (String.length x)).
    specialize (IH Hocc). lia.
Qed.
End replace_length.

(** A class name with a [GRADIENT] in it: the [KERNEL] of the fragment
    [KERNEL] does not end up as the kernel name. *)
Lemma kernel_name_with_gradient_rewritten (cls : string) :
  occurs cls "GRADIENT" = true ->
  replace (replace "KERNEL" "KERNEL" (cls +:+ "Kernel")) "GRADIENT"
          (cls +:+ "Gradient")
  <> substitute_tokens (cls +:+ "Kernel") (cls +:+ "Gradient") "KERNEL".
Proof.
  intros Hocc Heq.
  assert (Hne : 0 < String.length cls) by (destruct cls; [done|cbn; lia]).
  assert (Hk : forall x : string, x +:+ "" = x).
  { induction x as [|c x IHx]; [done|]. by rewrite append_cons, IHx. }
  change (replace "KERNEL" "KERNEL" (cls +:+ "Kernel"))
    with ((cls +:+ "Kernel") +:+ "") in Heq.
  change (substitute_tokens (cls +:+ "Kernel") (cls +:+ "Gradient") "KERNEL")
    with ((cls +:+ "Kernel") +:+ "") in Heq.
  rewrite Hk in Heq. unfold replace in Heq.
  pose proof (replace_gradient_length_gt (cls +:+ "Gradient")) as Hgt.
  specialize (Hgt ltac:(rewrite length_append_str; cbn; lia)
                  (cls +:+ "Kernel") (occurs_app_l _ _ _ Hocc)).
  rewrite Heq in Hgt. lia.
Qed.

(** A class name that begins with the suffix [q] of [GRADIENT] left after
    [p]: the fragment [p] followed by [KERNEL] is rewritten from its first
    letter on, though it holds no [GRADIENT]. *)
Lemma kernel_name_completes_gradient (p q cls' : string) :
  (p, q) ∈ [ ("G", "RADIENT"); ("GR", "ADIENT"); ("GRA", "DIENT");
             ("GRAD", "IENT"); ("GRADI", "ENT"); ("GRADIE", "NT");
             ("GRADIEN", "T") ] ->
  replace (replace (p +:+ "KERNEL") "KERNEL" ((q +:+ cls') +:+ "Kernel"))
          "GRADIENT" ((q +:+ cls') +:+ "Gradient")
  <> substitute_tokens ((q +:+ cls') +:+ "Kernel")
                       ((q +:+ cls') +:+ "Gradient") (p +:+ "KERNEL").
Proof.
  intros Hpq.
  repeat (apply elem_of_cons in Hpq as [Hpq|Hpq];
          [injection Hpq as -> ->; cbn; discriminate|]).
  by inversion Hpq.
Qed.

Lemma starts_with_suffix_cases (cls : string) :
  starts_no_suffix cls "RADIENT" = false ->
  exists p q cls',
    cls = q +:+ cls'
    /\ (p, q) ∈ [ ("G", "RADIENT"); ("GR", "ADIENT"); ("GRA", "DIENT");
                  ("GRAD", "IENT"); ("GRADI", "ENT"); ("GRADIE", "NT");
                  ("GRADIEN", "T") ].
Proof.
  intros Hs. cbn [starts_no_suffix] in Hs.
  repeat match type of Hs with
  | negb (startswith cls ?q) && _ = false =>
      let Hq := fresh "Hq" in
      destruct (startswith cls q) eqn:Hq;
      [ apply startswith_true in Hq as [cls' ->];
        eexists _, q, cls'; split; [reflexivity|];
        repeat (first [apply list_elem_of_here | apply list_elem_of_further])
      | cbn [negb andb] in Hs ]
  end.
  done.
Qed.

(** Without the condition of C9 the chained replacements differ from the
    one-pass substitution on some fragment. *)
Lemma unsafe_kernel_class_differs (cls : string) :
  kernel_class_safe cls = false ->
  exists code,
    replace (replace code "KERNEL" (cls +:+ "Kernel")) "GRADIENT"
            (cls +:+ "Gradient")
    <> substitute_tokens (cls +:+ "Kernel") (cls +:+ "Gradient") code.
Proof.
  unfold kernel_class_safe. intros Hunsafe.
  apply andb_false_iff in Hunsafe as [Hocc|Hstart].
  - exists "KERNEL". apply kernel_name_with_gradient_rewritten.
    by apply negb_false_iff.
  - destruct (starts_with_suffix_cases _ Hstart) as (p & q & cls' & -> & Hpq).
    exists (p +:+ "KERNEL"). by apply kernel_name_completes_gradient.
Qed.

(* ===================================================================== *)
(** * Further properties of the module *)
(* ===================================================================== *)

(** ** Insertion order of the stores *)

Lemma first_seen_fold_NoDup {A} `{EqDecision A} (l acc : list A) :
  NoDup (acc ++ l) -> fold_left first_seen_step l acc = acc ++ l.
Proof.
  revert acc. induction l as [|x l IH]; intros acc Hnd; simpl.
  - by rewrite app_nil_r.
  - assert (x ∉ acc) as Hx.
    { apply NoDup_app in Hnd as (_ & Hdisj & _). intros Hin.
      apply (Hdisj x Hin). left. }
    unfold first_seen_step at 2. rewrite decide_False by done.
    rewrite IH; rewrite <- (assoc_L (++)); done.
Qed.

Lemma first_seen_NoDup {A} `{EqDecision A} (l : list A) :
  NoDup l -> first_seen l = l.
Proof. intros Hnd. unfold first_seen. by rewrite first_seen_fold_NoDup. Qed.

Lemma keys_setitem_step {V} (d : pydict V) k v :
  (setitem k v d).*1 = first_seen_step d.*1 k.
Proof.
  unfold first_seen_step. induction d as [|[k' v'] d IH]; [done|].
  cbn [setitem].
  destruct (decide (k = k')) as [->|Hne]; rewrite !fmap_cons; cbn [fst].
  - rewrite decide_True by left. done.
  - rewrite IH. destruct (decide (k ∈ d.*1)) as [Hin|Hnin].
    + rewrite decide_True by (by right). done.
    + rewrite decide_False; [done|].
      intros Hin. apply elem_of_cons in Hin as [?|?]; done.
Qed.

Lemma keys_fold_setitem_const {V} (l : list string) (v : V) (d : pydict V) :
  (fold_left (fun t x => setitem x v t) l d).*1
  = fold_left first_seen_step l d.*1.
Proof.
  revert d. induction l as [|k l IH]; intros d; simpl; [done|].
  by rewrite IH, keys_setitem_step.
Qed.

Lemma keys_fold_append_item {V} (l : list (string * V))
    (d : pydict (list V)) :
  (fold_left (fun d p => append_item p.1 p.2 d) l d).*1
  = fold_left first_seen_step l.*1 d.*1.
Proof.
  revert d. induction l as [|p l IH]; intros d; simpl; [done|].
  rewrite IH, keys_append_item. done.
Qed.

(** The keys of a grouped dictionary, in the order they were first entered. *)
Lemma keys_grouped_first_seen {V} (l : list (string * V)) :
  (grouped l).*1 = first_seen l.*1.
Proof. unfold grouped, first_seen. by rewrite keys_fold_append_item. Qed.

Lemma dest_list_of_first_seen (eqs : list Equation) :
  dest_list_of eqs = first_seen (dest <$> eqs).
Proof.
  unfold dest_list_of, first_seen. by rewrite fold_left_through_fmap.
Qed.

(** What [_make_group] returns: nothing for a group without equations, and
    otherwise one entry per destination, all with the source map of the
    group. *)
Lemma _make_group_result (g : Group) (dests : DestMap) :
  _make_group g = inr dests ->
  (equations g = [] /\ dests = [])
  \/ (exists m, sources_of_group (equations g) = inr m
        /\ dests = fold_left (fun t x => setitem x m t)
                             (dest_list_of (equations g)) []).
Proof.
  intros Hg. rewrite _make_group_unfold in Hg.
  destruct (sources_of_group (equations g)) as [err|m] eqn:Hm.
  - left. destruct (equations g) as [|e eqs] eqn:Heqs.
    + simpl in Hg. by injection Hg as <-.
    + exfalso. pose proof (dest_list_of_complete (e :: eqs) e) as Hd.
      destruct (dest_list_of (e :: eqs)); [|done].
      specialize (Hd ltac:(left)). by inversion Hd.
  - right. exists m. split; [done|].
    simpl bind in Hg.
    rewrite (for_each_pure _ (fun dest dests => setitem dest m dests)) in Hg.
    by injection Hg as <-.
Qed.

(** X1.  The destinations of the map [_make_group] returns are the
    destinations of the group's equations in the order of their first
    occurrence, each once. *)
Theorem make_group_destination_order (g : Group) (dests : DestMap) :
  _make_group g = inr dests ->
  dests.*1 = first_seen (dest <$> equations g) /\ NoDup dests.*1.
Proof.
  intros Hg.
  assert (dests.*1 = first_seen (dest <$> equations g)) as Hkeys.
  { destruct (_make_group_result _ _ Hg) as [[Heqs ->]|(m & _ & ->)].
    - by rewrite Heqs.
    - rewrite keys_fold_setitem_const, dest_list_of_first_seen.
      apply first_seen_NoDup, NoDup_first_seen. }
  split; [done|]. rewrite Hkeys. apply NoDup_first_seen.
Qed.

Lemma make_group_destination_order_witness :
  exists dests,
    _make_group {| equations := [SummationDensity "solid" (Some ["fluid"]);
                                 DensityA;
                                 SummationDensity "solid" (Some ["solid"])] |}
    = inr dests
    /\ dests.*1 = ["solid"; "fluid"].
Proof.
  eexists. split; [reflexivity|].
  apply (make_group_destination_order
           {| equations := [SummationDensity "solid" (Some ["fluid"]);
                            DensityA;
                            SummationDensity "solid" (Some ["solid"])] |}).
  reflexivity.
Defined.

(** ** The source map of a group *)

Lemma source_entries_snoc (pre : list Equation) e :
  source_entries (pre ++ [e])
  = source_entries pre ++ ((fun s => (s, e)) <$> srcs_of e).
Proof.
  exact (entries_snoc (fun e => (fun s => (s, e)) <$> srcs_of e) pre e).
Qed.

Lemma source_entries_keys (eqs : list Equation) :
  (source_entries eqs).*1 = concat (srcs_of <$> eqs).
Proof.
  unfold source_entries. induction eqs as [|e eqs IH]; [done|].
  rewrite !fmap_cons. simpl concat. rewrite fmap_app, IH. f_equal.
  rewrite <- list_fmap_compose. by rewrite list_fmap_id.
Qed.

(** The source map is the grouping of the (source, equation) pairs. *)
Lemma sources_of_group_grouped (eqs : list Equation) (m : SourceMap) :
  sources_of_group eqs = inr m -> m = grouped (source_entries eqs).
Proof.
  unfold sources_of_group. change (@nil (string * list Equation))
    with (grouped (source_entries [])).
  change eqs with ([] ++ eqs) at 2. generalize (@nil Equation) as pre.
  induction eqs as [|e eqs IH]; intros pre; cbn [for_each].
  - intros [= <-]. by rewrite app_nil_r.
  - destruct (sources e) as [srcs|] eqn:He; [|done]. cbn [iter bind ret].
    intros Hm.
    replace (pre ++ e :: eqs) with ((pre ++ [e]) ++ eqs)
      by (by rewrite <- (assoc_L (++))).
    apply IH. rewrite <- Hm. f_equal.
    rewrite source_entries_snoc, grouped_app. unfold srcs_of. rewrite He.
    simpl default. by rewrite fold_left_through_fmap.
Qed.

Lemma values_of_own_entries (e : Equation) (srcs : list string) s :
  NoDup srcs ->
  values_of s ((fun s' => (s', e)) <$> srcs) = if decide (s ∈ srcs) then [e] else [].
Proof.
  induction srcs as [|s0 srcs IH]; intros Hnd; [done|].
  apply NoDup_cons in Hnd as [Hs0 Hnd]. specialize (IH Hnd).
  rewrite fmap_cons. unfold values_of in *.
  destruct (decide (s0 = s)) as [->|Hne].
  - rewrite filter_cons_True by done. rewrite fmap_cons. cbn [snd].
    rewrite IH, decide_False by done. by rewrite decide_True by left.
  - rewrite filter_cons_False by (simpl; congruence). rewrite IH.
    destruct (decide (s ∈ srcs)) as [Hin|Hnin].
    + by rewrite decide_True by (by right).
    + rewrite decide_False; [done|].
      intros Hin. apply elem_of_cons in Hin as [?|?]; [congruence|done].
Qed.

Lemma values_of_source_entries (eqs : list Equation) s :
  (forall e, e ∈ eqs -> NoDup (srcs_of e)) ->
  values_of s (source_entries eqs) = filter (fun e => s ∈ srcs_of e) eqs.
Proof.
  induction eqs as [|e eqs IH]; intros Hnd; [done|].
  change (source_entries (e :: eqs))
    with (((fun s' => (s', e)) <$> srcs_of e) ++ source_entries eqs).
  rewrite values_of_app, values_of_own_entries by (apply Hnd; left).
  rewrite IH by (intros e' He'; apply Hnd; by right).
  destruct (decide (s ∈ srcs_of e)) as [Hin|Hnin].
  - by rewrite filter_cons_True.
  - by rewrite filter_cons_False.
Qed.

(** X2.  In what [_make_group] returns, the source map of a destination has
    as keys the sources the equations of the group name, in the order of
    their first occurrence; under a source it lists the equations naming
    it, in the order of the group and once per time they name it; when no
    equation names a source twice, that is the sub-list of the group's
    equations naming the source. *)
Theorem make_group_source_map (g : Group) (dests : DestMap) d
    (m : SourceMap) :
  _make_group g = inr dests -> (d, m) ∈ dests ->
  m.*1 = first_seen (concat (srcs_of <$> equations g))
  /\ (forall s l, (s, l) ∈ m ->
        l = values_of s (source_entries (equations g)))
  /\ ((forall e, e ∈ equations g -> NoDup (srcs_of e)) ->
      forall s l, (s, l) ∈ m ->
        l = filter (fun e => s ∈ srcs_of e) (equations g)).
Proof.
  intros Hg Hd.
  assert (m = grouped (source_entries (equations g))) as ->.
  { destruct (_make_group_result _ _ Hg) as [[_ ->]|(m0 & Hm0 & _)];
      [by inversion Hd|].
    destruct (_make_group_of_sources g m0 Hm0) as (dests' & Hg' & _ & Hall).
    rewrite Hg in Hg'. injection Hg' as <-.
    rewrite (Hall _ _ Hd). by apply sources_of_group_grouped. }
  split; [|split].
  - by rewrite keys_grouped_first_seen, source_entries_keys.
  - intros s l Hin. by apply elem_of_grouped in Hin as [_ ->].
  - intros Hnd s l Hin. apply elem_of_grouped in Hin as [_ ->].
    by apply values_of_source_entries.
Qed.

Lemma make_group_source_map_witness :
  let e1 := SummationDensity "fluid" (Some ["solid"; "fluid"]) in
  let m := [("solid", [e1]); ("fluid", [e1; DensityA])] in
  _make_group {| equations := [e1; DensityA] |} = inr [("fluid", m)]
  /\ m.*1 = first_seen (concat (srcs_of <$> [e1; DensityA]))
  /\ forall s l, (s, l) ∈ m ->
       l = filter (fun e => s ∈ srcs_of e) [e1; DensityA].
Proof.
  intros e1 m.
  assert (Hg : _make_group {| equations := [e1; DensityA] |}
               = inr [("fluid", m)]) by reflexivity.
  destruct (make_group_source_map _ _ "fluid" m Hg (list_elem_of_here _ _))
    as (Hkeys & _ & Hfilter).
  split; [exact Hg|]. split; [exact Hkeys|].
  apply Hfilter. intros e He. apply (bool_decide_unpack _).
  apply elem_of_cons in He as [->|He]; [vm_compute; exact I|].
  apply list_elem_of_singleton in He as ->. vm_compute. exact I.
Defined.

(** ** Normalization and construction *)

(** A list of elements holds only equations, or only groups and at least
    one, or an equation and a group. *)
Lemma elements_cases (l : list Element) :
  (exists eqs, l = AnEquation <$> eqs)
  \/ (exists gs, gs <> [] /\ l = AGroup <$> gs)
  \/ (exists e g, AnEquation e ∈ l /\ AGroup g ∈ l).
Proof.
  induction l as [|x l IH]; [left; by exists []|].
  destruct x as [e|g], IH as [[eqs ->]|[(gs & Hne & ->)|(e' & g' & He & Hg)]].
  - left. by exists (e :: eqs).
  - right. right. destruct gs as [|g gs]; [done|].
    exists e, g. split; [left|right; left].
  - right. right. exists e', g'. split; by right.
  - destruct eqs as [|e eqs].
    + right. left. by exists [g].
    + right. right. exists e, g. split; [right; left|left].
  - right. left. by exists (g :: gs).
  - right. right. exists e', g'. split; by right.
Qed.

Lemma flatten_elements_equations (eqs : list Equation) :
  flatten_elements (AnEquation <$> eqs) = eqs.
Proof.
  unfold flatten_elements. induction eqs as [|e eqs IH]; [done|].
  rewrite !fmap_cons. simpl concat. by rewrite IH.
Qed.

Lemma flatten_elements_groups (gs : list Group) :
  flatten_elements (AGroup <$> gs) = concat (equations <$> gs).
Proof.
  unfold flatten_elements. induction gs as [|g gs IH]; [done|].
  rewrite !fmap_cons. simpl concat. by rewrite IH.
Qed.

Lemma not_mixed_equations (eqs : list Equation) g :
  AGroup g ∉ AnEquation <$> eqs.
Proof. intros Hin. apply list_elem_of_fmap in Hin as (e & Heq & _). done. Qed.

Lemma not_mixed_groups (gs : list Group) e :
  AnEquation e ∉ AGroup <$> gs.
Proof. intros Hin. apply list_elem_of_fmap in Hin as (g & Heq & _). done. Qed.

(** What [check_equations] does on every list. *)
Lemma check_equations_cases (l : list Element) :
  (check_equations l
   = inl (ValueError "All elements must be Groups if you use groups.")
   /\ exists e g, AnEquation e ∈ l /\ AGroup g ∈ l)
  \/ (exists gs,
         check_equations l = inr gs /\ gs <> []
         /\ concat (equations <$> gs) = flatten_elements l
         /\ ~ (exists e g, AnEquation e ∈ l /\ AGroup g ∈ l)).
Proof.
  destruct (elements_cases l)
    as [[eqs ->]|[(gs & Hne & ->)|(e & g & He & Hg)]].
  - right. exists [ {| equations := eqs |} ].
    split; [apply check_equations_flat|]. split; [done|]. split.
    + rewrite flatten_elements_equations. simpl. by rewrite app_nil_r.
    + intros (e & g & _ & Hg). by apply not_mixed_equations in Hg.
  - right. exists gs. split; [by apply check_equations_groups|].
    split; [done|]. split; [by rewrite flatten_elements_groups|].
    intros (e & g & He & _). by apply not_mixed_groups in He.
  - left. split; [by eapply check_equations_mixed|]. by exists e, g.
Qed.

(** X3.  [check_equations] raises [ValueError] exactly on the lists that
    hold both a bare equation and a group.  On every other list it returns
    a list of groups that is never empty and that holds the equations of
    the input, all of them and in their order. *)
Theorem check_equations_total (l : list Element) :
  (is_ok (check_equations l)
   <-> ~ (exists e g, AnEquation e ∈ l /\ AGroup g ∈ l))
  /\ (forall err, check_equations l = inl err ->
        err = ValueError "All elements must be Groups if you use groups.")
  /\ (forall gs, check_equations l = inr gs ->
        gs <> [] /\ concat (equations <$> gs) = flatten_elements l).
Proof.
  destruct (check_equations_cases l)
    as [[Hr Hmixed]|(gs & Hr & Hne & Hflat & Hnot)]; rewrite Hr.
  - split; [|split].
    + split; [by intros [a Ha]|done].
    + by intros err [= <-].
    + done.
  - split; [|split].
    + split; [done|by exists gs].
    + done.
    + by intros gs' [= <-].
Qed.

Lemma check_equations_total_witness :
  check_equations [AGroup {| equations := [DensityA] |};
                   AGroup {| equations := [] |}]
  = inr [ {| equations := [DensityA] |}; {| equations := [] |} ]
  /\ concat (equations <$> [ {| equations := [DensityA] |};
                             {| equations := [] |} ])
     = flatten_elements [AGroup {| equations := [DensityA] |};
                         AGroup {| equations := [] |}].
Proof.
  destruct (check_equations_total
              [AGroup {| equations := [DensityA] |};
               AGroup {| equations := [] |}]) as (_ & _ & Hok).
  split; [reflexivity|]. apply Hok. reflexivity.
Defined.

(** *** [map_result] and the builder on every group *)

Lemma map_result_from {A B} (f : A -> result B) (l : list A) (acc r : list B) :
  for_each l (fun x acc => let* y := f x in ret (acc ++ [y])) acc = inr r
  <-> exists ys, r = acc ++ ys /\ Forall2 (fun x y => f x = inr y) l ys.
Proof.
  revert acc. induction l as [|x l IH]; intros acc; cbn [for_each].
  - split.
    + intros [= <-]. exists []. split; [by rewrite app_nil_r|constructor].
    + intros (ys & -> & Hf). inversion Hf. by rewrite app_nil_r.
  - destruct (f x) as [e|y] eqn:Hx; cbn [bind ret].
    + split; [done|]. intros (ys & _ & Hf). inversion Hf; congruence.
    + rewrite IH. split.
      * intros (ys & -> & Hf). exists (y :: ys).
        split; [by rewrite <- (assoc_L (++))|by constructor].
      * intros (ys & -> & Hf). inversion Hf as [|? y' ? ys' Hy Hf']; subst.
        rewrite Hx in Hy. injection Hy as <-.
        exists ys'. split; [by rewrite <- (assoc_L (++))|done].
Qed.

Lemma map_result_Forall2 {A B} (f : A -> result B) (l : list A)
    (r : list B) :
  map_result f l = inr r <-> Forall2 (fun x y => f x = inr y) l r.
Proof.
  unfold map_result. rewrite map_result_from. split.
  - by intros (ys & -> & Hf).
  - intros Hf. by exists r.
Qed.

Lemma map_result_ok {A B} (f : A -> result B) (l : list A) :
  is_ok (map_result f l) <-> forall x, x ∈ l -> is_ok (f x).
Proof.
  split.
  - intros [r Hr]. apply map_result_Forall2 in Hr.
    induction Hr as [|x y l r Hx _ IH]; intros z Hz; [by inversion Hz|].
    apply elem_of_cons in Hz as [->|Hz]; [by exists y|by apply IH].
  - intros Hall. apply for_each_ok. intros x t Hx.
    destruct (Hall x Hx) as [y Hy]. rewrite Hy. by eexists.
Qed.

(** [_make_group] returns exactly on the groups whose equations all carry
    a list of sources. *)
Lemma _make_group_ok_iff (g : Group) :
  is_ok (_make_group g) <-> forall e, e ∈ equations g -> sources e <> None.
Proof.
  split.
  - intros Hok e He Hnone. by apply (_make_group_none_sources g e He Hnone).
  - intros Hsome. destruct (sources_of_group_ok _ Hsome) as [m Hm].
    destruct (_make_group_of_sources g m Hm) as (dests & Hg & _).
    by exists dests.
Qed.

Lemma elem_of_concat_equations (gs : list Group) e :
  e ∈ concat (equations <$> gs) <-> exists g, g ∈ gs /\ e ∈ equations g.
Proof.
  induction gs as [|g0 gs IH]; simpl.
  - split; [intros Hin; by inversion Hin|]. intros (g & Hg & _). by inversion Hg.
  - rewrite elem_of_app, IH. split.
    + intros [He|(g & Hg & He)]; [exists g0; split; [left|done]|].
      exists g. split; [by right|done].
    + intros (g & Hg & He). apply elem_of_cons in Hg as [->|Hg]; [by left|].
      right. by exists g.
Qed.

(** X4.  Constructing an [SPHEval] succeeds exactly when the list does not
    mix bare equations with groups and every equation carries a list of
    sources.  The evaluator then keeps the particle arrays, the locator and
    the kernel, its groups are what [check_equations] returns, with all the
    equations of the input in order, and it holds one destination map per
    group, the one [_make_group] builds for that group. *)
Theorem SPHEval_init_spec (pas : list ParticleArray) (l : list Element)
    (loc : Locator) (ker : Kernel) :
  (is_ok (SPHEval_init pas l loc ker)
   <-> ~ (exists e g, AnEquation e ∈ l /\ AGroup g ∈ l)
       /\ forall e, e ∈ flatten_elements l -> sources e <> None)
  /\ (forall self, SPHEval_init pas l loc ker = inr self ->
        particle_arrays self = pas /\ locator self = loc
        /\ kernel self = ker
        /\ check_equations l = inr (equation_groups self)
        /\ all_equations self = flatten_elements l
        /\ Forall2 (fun g d => _make_group g = inr d)
                   (equation_groups self) (groups self)).
Proof.
  unfold SPHEval_init.
  destruct (check_equations_cases l)
    as [[Hr Hmixed]|(gs & Hr & Hne & Hflat & Hnot)]; rewrite Hr; cbn [bind].
  { split; [|done].
    split; [by intros [a Ha]|]. by intros [Hnot _]. }
  assert (Hgs : is_ok (map_result _make_group gs)
                <-> forall e, e ∈ flatten_elements l -> sources e <> None).
  { rewrite map_result_ok, <- Hflat. split.
    - intros Hall e He. apply elem_of_concat_equations in He as (g & Hg & He).
      by apply (proj1 (_make_group_ok_iff g) (Hall g Hg)).
    - intros Hall g Hg. apply _make_group_ok_iff. intros e He.
      apply Hall, elem_of_concat_equations. by exists g. }
  destruct (map_result _make_group gs) as [err|ds] eqn:Hds; cbn [bind ret].
  - split; [|done]. split; [by intros [a Ha]|].
    intros [_ Hall]. apply Hgs in Hall as [a Ha]. done.
  - split.
    + split; [|by eexists]. intros _. split; [done|].
      apply Hgs. by eexists.
    + intros self [= <-]. cbn. unfold all_equations. cbn.
      repeat split; try done. by apply map_result_Forall2.
Qed.

Lemma SPHEval_init_spec_witness :
  exists self,
    SPHEval_init [] [AnEquation DensityA; AnEquation DensityB]
                 AllPairLocator CubicSpline = inr self
    /\ all_equations self = [DensityA; DensityB]
    /\ Forall2 (fun g d => _make_group g = inr d)
               (equation_groups self) (groups self).
Proof.
  destruct (SPHEval_init_spec [] [AnEquation DensityA; AnEquation DensityB]
              AllPairLocator CubicSpline) as [_ Hself].
  eexists. split; [reflexivity|].
  destruct (Hself _ eq_refl) as (_ & _ & _ & _ & Hall & Hgroups).
  split; [exact Hall|exact Hgroups].
Defined.

(** ** The declaration check, exactly *)

Lemma NoDup_keys_of_values {V} (l : list (string * V)) :
  (forall k, length (values_of k l) <= 1) -> NoDup l.*1.
Proof.
  induction l as [|[k0 v] l IH]; intros Hlen; [constructor|].
  rewrite fmap_cons. cbn [fst]. apply NoDup_cons. split.
  - apply values_of_nil_iff. specialize (Hlen k0).
    change ((k0, v) :: l) with ([(k0, v)] ++ l) in Hlen.
    rewrite values_of_app, length_app in Hlen. unfold values_of at 1 in Hlen.
    rewrite filter_cons_True in Hlen by done. simpl in Hlen.
    destruct (values_of k0 l); [done|simpl in Hlen; lia].
  - apply IH. intros k. specialize (Hlen k).
    change ((k0, v) :: l) with ([(k0, v)] ++ l) in Hlen.
    rewrite values_of_app, length_app in Hlen. lia.
Qed.

Lemma all_same_elements (l : list string) x y :
  all_same l = true -> x ∈ l -> y ∈ l -> x = y.
Proof.
  intros Hsame Hx Hy. unfold all_same in Hsame.
  rewrite forallb_forall in Hsame.
  pose proof (Hsame x (proj1 (list_elem_of_In _ _) Hx)) as H1.
  pose proof (Hsame y (proj1 (list_elem_of_In _ _) Hy)) as H2.
  apply bool_decide_eq_true in H1, H2. congruence.
Qed.

Lemma short_list_elements {A} (l : list A) x y :
  length l <= 1 -> x ∈ l -> y ∈ l -> x = y.
Proof.
  destruct l as [|a [|b l]]; simpl; intros Hlen Hx Hy; [by inversion Hx| |lia].
  apply list_elem_of_singleton in Hx, Hy. congruence.
Qed.

Section check_exactly.
Context `{IterationOrder}.

(** A check that passes had consistent declarations before it. *)
Lemma check_passes_consistent (self : SPHEval) :
  is_ok (_check_and_get_variables self) ->
  consistent_declarations (all_equations self).
Proof.
  intros [r Hr]. rewrite _check_and_get_variables_unfold in Hr.
  cbv zeta in Hr. set (eqs := all_equations self) in *.
  destruct (check_variable_names_cases (collected eqs))
    as [(? & ? & _ & _ & Hraise)|[Hvars Hpass]];
    [by rewrite Hraise in Hr|rewrite Hpass in Hr; cbn [bind] in Hr].
  destruct (check_temporary_names_cases (collected eqs))
    as [(? & ? & _ & _ & Hraise)|[Hsep Hpass']];
    [by rewrite Hraise in Hr|rewrite Hpass' in Hr; cbn [bind] in Hr].
  destruct (check_temporary_declarations_cases (collected eqs))
    as [(? & ? & _ & _ & _ & Hraise)|[Hsame _]];
    [by rewrite Hraise in Hr|].
  split; [|split].
  - apply NoDup_keys_of_values. intros k.
    destruct (decide (k ∈ (var_entries eqs).*1)) as [Hk|Hk].
    + apply (Hvars k). by apply in_var_names.
    + apply values_of_nil_iff in Hk. rewrite Hk. simpl. lia.
  - intros n Hn Hv. apply (Hsep _ _ (in_tmp_names _ _ Hn)).
    simpl. by rewrite keys_grouped.
  - intros n d1 d2 H1 H2.
    assert (n ∈ (tmp_decl_entries eqs).*1) as Hk.
    { apply list_elem_of_fmap. by exists (n, d1). }
    assert (n ∈ (tmp_entries eqs).*1) as Hk' by (by rewrite tmp_entries_keys).
    apply elem_of_values_of in H1, H2.
    destruct (decide (1 < length (values_of n (tmp_entries eqs))))
      as [Hlong|Hshort].
    + specialize (Hsame _ _ (in_tmp_names _ _ Hk') Hlong). simpl in Hsame.
      rewrite getitem_grouped, decide_True in Hsame by done.
      by apply (all_same_elements _ _ _ Hsame).
    + apply (short_list_elements (values_of n (tmp_decl_entries eqs)));
        [|done..].
      rewrite <- (length_values_of_keys (tmp_entries eqs))
        by apply tmp_entries_keys.
      lia.
Qed.

(** X5.  The declaration check passes exactly when no Variable name is
    declared twice (by two equations or by one), no Temporary name is a
    Variable name, and the Temporaries of one name have one declaration
    text.  It then returns the Variables and the Temporaries of all the
    equations in order; otherwise it raises [VariableNameClashError] and
    nothing else. *)
Theorem check_passes_iff_consistent (self : SPHEval) :
  (is_ok (_check_and_get_variables self)
   <-> consistent_declarations (all_equations self))
  /\ (forall r, _check_and_get_variables self = inr r ->
        r = (concat (vars_of <$> all_equations self),
             concat (temps_of <$> all_equations self)))
  /\ (forall e, _check_and_get_variables self = inl e ->
        exists msg, e = VariableNameClashError msg).
Proof.
  split; [|split].
  - split; [apply check_passes_consistent|].
    intros Hok. rewrite (consistent_declarations_check _ Hok). by eexists.
  - intros r Hr. destruct (checker_raises_or_returns self) as [[msg Hm]|Hret].
    + by rewrite Hm in Hr.
    + rewrite Hret in Hr. by injection Hr as <-.
  - apply checker_error.
Qed.
End check_exactly.

Lemma check_passes_iff_consistent_witness :
  consistent_declarations [DensityA; DensityB]
  /\ ~ consistent_declarations [DensityA; DensityA].
Proof.
  destruct (@check_passes_iff_consistent insertion_order
              (evaluator_of [DensityA; DensityB])) as ([Hto _] & _ & _).
  destruct (@check_passes_iff_consistent insertion_order
              (evaluator_of [DensityA; DensityA])) as ([_ Hfrom] & _ & _).
  split.
  - apply Hto. eexists. vm_compute. reflexivity.
  - intros Hc. destruct (Hfrom Hc) as [r Hr]. vm_compute in Hr. discriminate.
Defined.

(** ** Deduplicated statement lists *)

(** A loop over values that may be [None]: it returns exactly when none
    is, and then it is the fold over the values. *)
Lemma for_each_iter_fold {A S B} (f : A -> option (list B))
    (g : list B -> S -> S) (l : list A) (s : S) :
  (forall x, x ∈ l -> f x <> None) ->
  for_each l (fun x s => let* ys := iter (f x) in ret (g ys s)) s
  = inr (fold_left (fun s x => g (default [] (f x)) s) l s).
Proof.
  revert s. induction l as [|x l IH]; intros s Hsome; [done|].
  cbn [for_each fold_left].
  destruct (f x) as [ys|] eqn:Hx; [|by destruct (Hsome x ltac:(left))].
  cbn [iter bind ret default]. apply IH. intros y Hy. apply Hsome. by right.
Qed.

Lemma for_each_iter_ok {A S B} (f : A -> option (list B))
    (g : list B -> S -> S) (l : list A) (s : S) :
  is_ok (for_each l (fun x s => let* ys := iter (f x) in ret (g ys s)) s)
  <-> forall x, x ∈ l -> f x <> None.
Proof.
  split.
  - intros Hok x Hx Hnone. revert Hok. apply (for_each_raises l _ s x Hx).
    intros t [a Ha]. by rewrite Hnone in Ha.
  - intros Hsome. rewrite for_each_iter_fold by done. by eexists.
Qed.

Lemma fold_left_pointwise {A B} (f g : A -> B -> A) (l : list B) (a : A) :
  (forall a x, f a x = g a x) -> fold_left f l a = fold_left g l a.
Proof.
  intros Hfg. revert a. induction l as [|x l IH]; intros a; [done|].
  simpl. by rewrite Hfg, IH.
Qed.

(** The keys entered by a nested loop, in first-seen order. *)
Lemma keys_nested_setitem {A} (texts : A -> list string) (l : list A)
    (d : pydict unit) :
  (fold_left (fun d x => fold_left (fun d k => setitem k tt d) (texts x) d)
             l d).*1
  = fold_left first_seen_step (concat (texts <$> l)) d.*1.
Proof.
  revert d. induction l as [|x l IH]; intros d; [done|].
  rewrite fmap_cons. simpl concat. cbn [fold_left].
  by rewrite fold_left_app, IH, keys_fold_setitem.
Qed.

Section dedup.
Context `{IterationOrder}.

(** The lines joined from a deduplicating dictionary: the distinct texts,
    each once. *)
Lemma dedup_lines (d : pydict unit) (texts : list string) :
  d.*1 = first_seen texts ->
  exists lines,
    join nl (dict_order d).*1 = join nl lines
    /\ lines ≡ₚ first_seen texts
    /\ NoDup lines
    /\ (forall x, x ∈ lines <-> x ∈ texts).
Proof.
  intros Hkeys. exists (dict_order d).*1.
  assert (Hp : (dict_order d).*1 ≡ₚ first_seen texts).
  { rewrite <- Hkeys. apply fmap_Permutation, dict_order_perm. }
  split; [done|]. split; [done|]. split.
  - rewrite Hp. apply NoDup_first_seen.
  - intros x. rewrite Hp. apply elem_of_first_seen.
Qed.

Lemma _get_array_declarations_fold (self : SPHEval) :
  (forall e, e ∈ all_equations self -> arrays (eq_code e) <> None) ->
  exists decl : pydict unit,
    _get_array_declarations self = inr (join nl (dict_order decl).*1)
    /\ decl.*1
       = first_seen
           (concat ((fun e => (fun a => "cdef double* " +:+ a)
                              <$> arrays_of e) <$> all_equations self)).
Proof.
  intros Hsome. unfold _get_array_declarations.
  rewrite (for_each_iter_fold (fun e => arrays (eq_code e))
             (fun arrs decl =>
                fold_left
                  (fun decl array => setitem ("cdef double* " +:+ array) tt decl)
                  arrs decl)) by done.
  eexists. split; [reflexivity|].
  rewrite (fold_left_pointwise _
    (fun d e => fold_left (fun d k => setitem k tt d)
                  ((fun a => "cdef double* " +:+ a) <$> arrays_of e) d)).
  - by rewrite keys_nested_setitem.
  - intros d e. by rewrite fold_left_through_fmap.
Qed.

(** X6.  [_get_array_declarations] returns exactly when every equation
    supplies an [arrays] key; otherwise it raises.  Its text is made of
    lines ["cdef double* a"], one for every array [a] named by some
    equation, and none twice, joined by line breaks. *)
Theorem array_declarations_spec (self : SPHEval) :
  (is_ok (_get_array_declarations self)
   <-> forall e, e ∈ all_equations self -> arrays (eq_code e) <> None)
  /\ (forall text, _get_array_declarations self = inr text ->
        exists lines,
          text = join nl lines /\ NoDup lines
          /\ forall x, x ∈ lines
               <-> exists e a, e ∈ all_equations self /\ a ∈ arrays_of e
                               /\ x = "cdef double* " +:+ a).
Proof.
  assert (Hiff : is_ok (_get_array_declarations self)
                 <-> forall e, e ∈ all_equations self ->
                               arrays (eq_code e) <> None).
  { split.
    - intros Hok e He Hnone.
      by apply (_get_array_declarations_absent self e He Hnone).
    - intros Hsome.
      destruct (_get_array_declarations_fold self Hsome) as (decl & -> & _).
      by eexists. }
  split; [done|].
  intros text Htext.
  destruct (_get_array_declarations_fold self) as (decl & Hr & Hkeys).
  { apply Hiff. by exists text. }
  rewrite Hr in Htext. injection Htext as <-.
  destruct (dedup_lines decl _ Hkeys) as (lines & Hjoin & _ & Hnd & Hin).
  exists lines. split; [done|]. split; [done|].
  intros x. rewrite Hin, elem_of_entries. split.
  - intros (e & He & Hx). apply list_elem_of_fmap in Hx as (a & -> & Ha).
    by exists e, a.
  - intros (e & a & He & Ha & ->). exists e. split; [done|].
    apply list_elem_of_fmap. by exists a.
Qed.

Lemma _get_initialization_fold (eqs : list Equation) :
  (forall e, e ∈ eqs ->
     variables (eq_code e) <> None /\ temporaries (eq_code e) <> None) ->
  exists init : pydict unit,
    _get_initialization eqs = inr (join nl (dict_order init).*1)
    /\ init.*1 = first_seen (concat (initializations_of <$> eqs)).
Proof.
  intros Hsome. unfold _get_initialization.
  assert (Hloop : forall l (d : pydict unit),
    (forall e, e ∈ l ->
       variables (eq_code e) <> None /\ temporaries (eq_code e) <> None) ->
    for_each l
      (fun equation init =>
         let code := eq_code equation in
         let vars := variables code in
         let tmps := temporaries code in
         let* vs := iter vars in
         let init := fold_left (fun d var => setitem (initialize var) tt d)
                               vs init in
         let* ts := iter tmps in
         ret (fold_left (fun d var => setitem (initialize var) tt d) ts init))
      d
    = inr (fold_left
             (fun d e => fold_left (fun d k => setitem k tt d)
                           (initializations_of e) d) l d)).
  { induction l as [|e l IH]; intros d Hl; [done|].
    cbn [for_each fold_left]. destruct (Hl e ltac:(left)) as [Hv Ht].
    unfold initializations_of at 2, vars_of, temps_of.
    destruct (variables (eq_code e)) as [vs|]; [|done].
    destruct (temporaries (eq_code e)) as [ts|]; [|done].
    cbn [iter bind ret default]. rewrite IH by (intros; apply Hl; by right).
    by rewrite fold_left_app, !fold_left_through_fmap. }
  rewrite Hloop by done. eexists. split; [reflexivity|].
  by rewrite keys_nested_setitem.
Qed.

(** X7.  [_get_initialization] returns exactly when every equation of the
    list supplies both a [variables] and a [temporaries] key; otherwise it
    raises.  Its text is made of the initialization statements of the
    Variables and Temporaries of the equations, each distinct statement
    once, joined by line breaks; a Variable or Temporary without a default
    contributes the empty statement. *)
Theorem initialization_spec (eqs : list Equation) :
  (is_ok (_get_initialization eqs)
   <-> forall e, e ∈ eqs ->
         variables (eq_code e) <> None /\ temporaries (eq_code e) <> None)
  /\ (forall text, _get_initialization eqs = inr text ->
        exists lines,
          text = join nl lines /\ NoDup lines
          /\ (forall x, x ∈ lines
                <-> exists e v, e ∈ eqs /\ (v ∈ vars_of e \/ v ∈ temps_of e)
                                /\ x = initialize v)
          /\ ("" ∈ lines
              <-> exists e v, e ∈ eqs /\ (v ∈ vars_of e \/ v ∈ temps_of e)
                              /\ var_default v = None)).
Proof.
  assert (Hiff : is_ok (_get_initialization eqs)
                 <-> forall e, e ∈ eqs ->
                       variables (eq_code e) <> None
                       /\ temporaries (eq_code e) <> None).
  { split.
    - intros Hok e He.
      destruct (variables (eq_code e)) eqn:Hv;
        [destruct (temporaries (eq_code e)) eqn:Ht; [done|]|];
        exfalso; apply (_get_initialization_absent eqs e He); auto.
    - intros Hsome.
      destruct (_get_initialization_fold eqs Hsome) as (init & -> & _).
      by eexists. }
  split; [done|].
  intros text Htext.
  destruct (_get_initialization_fold eqs) as (init & Hr & Hkeys).
  { apply Hiff. by exists text. }
  rewrite Hr in Htext. injection Htext as <-.
  destruct (dedup_lines init _ Hkeys) as (lines & Hjoin & _ & Hnd & Hin).
  assert (Hmem : forall x, x ∈ lines
            <-> exists e v, e ∈ eqs /\ (v ∈ vars_of e \/ v ∈ temps_of e)
                            /\ x = initialize v).
  { intros x. rewrite Hin, elem_of_entries. unfold initializations_of. split.
    - intros (e & He & Hx).
      apply elem_of_app in Hx as [Hx|Hx];
        apply list_elem_of_fmap in Hx as (v & -> & Hv); exists e, v; auto.
    - intros (e & v & He & Hv & ->). exists e. split; [done|].
      apply elem_of_app.
      destruct Hv as [Hv|Hv]; [left|right]; apply list_elem_of_fmap;
        by exists v. }
  exists lines. split; [done|]. split; [done|]. split; [done|].
  rewrite Hmem. split.
  - intros (e & v & He & Hv & Hinit). exists e, v. split; [done|].
    split; [done|]. unfold initialize in Hinit.
    destruct (var_default v) as [d|]; [|done].
    by destruct (var_name v).
  - intros (e & v & He & Hv & Hd). exists e, v. split; [done|].
    split; [done|]. unfold initialize. by rewrite Hd.
Qed.
End dedup.

Lemma array_declarations_spec_witness :
  exists lines,
    @_get_array_declarations insertion_order
       (evaluator_of [DensityA; SummationDensity "fluid" (Some ["fluid"])])
    = inr (join nl lines)
    /\ NoDup lines.
Proof.
  destruct (@array_declarations_spec insertion_order
              (evaluator_of [DensityA;
                             SummationDensity "fluid" (Some ["fluid"])]))
    as [_ Htext].
  destruct (Htext _ eq_refl) as (lines & Hjoin & Hnd & _).
  exists lines. split; [|exact Hnd]. rewrite <- Hjoin. reflexivity.
Defined.

Lemma initialization_spec_witness :
  exists lines,
    @_get_initialization insertion_order [DensityA; DensityB]
    = inr (join nl lines)
    /\ NoDup lines /\ "" ∈ lines.
Proof.
  destruct (@initialization_spec insertion_order [DensityA; DensityB])
    as [_ Htext].
  destruct (Htext _ eq_refl) as (lines & Hjoin & Hnd & _ & Hempty).
  exists lines. split; [rewrite <- Hjoin; reflexivity|]. split; [exact Hnd|].
  apply Hempty. exists DensityB, {| var_type := "double"; var_name := "rho_b";
                                    var_default := None |}.
  split; [apply list_elem_of_further, list_elem_of_here|].
  split; [left; apply list_elem_of_here|reflexivity].
Defined.

(** ** Pointer set-up statements *)

Lemma elem_of_concat_lists {B} (ls : list (list B)) x :
  x ∈ concat ls <-> exists l, l ∈ ls /\ x ∈ l.
Proof.
  induction ls as [|l0 ls IH]; simpl.
  - split; [intros Hin; by inversion Hin|]. intros (l & Hl & _). by inversion Hl.
  - rewrite elem_of_app, IH. split.
    + intros [Hx|(l & Hl & Hx)]; [exists l0; split; [left|done]|].
      exists l. split; [by right|done].
    + intros (l & Hl & Hx). apply elem_of_cons in Hl as [->|Hl]; [by left|].
      right. by exists l.
Qed.

Lemma elem_of_concat_fmap {A B} (f : A -> list B) (l : list A) x :
  x ∈ concat (f <$> l) <-> exists a, a ∈ l /\ x ∈ f a.
Proof.
  induction l as [|a0 l IH]; simpl.
  - split; [intros Hin; by inversion Hin|]. intros (a & Ha & _). by inversion Ha.
  - rewrite elem_of_app, IH. split.
    + intros [Hx|(a & Ha & Hx)]; [exists a0; split; [left|done]|].
      exists a. split; [by right|done].
    + intros (a & Ha & Hx). apply elem_of_cons in Ha as [->|Ha]; [by left|].
      right. by exists a.
Qed.

Lemma fold_left_app_concat {A B} (h : A -> list B) (l : list A)
    (acc : list B) :
  fold_left (fun acc x => acc ++ h x) l acc = acc ++ concat (h <$> l).
Proof.
  revert acc. induction l as [|x l IH]; intros acc; simpl.
  - by rewrite app_nil_r.
  - by rewrite IH, <- (assoc_L (++)).
Qed.

Lemma arrays_with_prefix_ok (p : string) (eqs : list Equation) :
  is_ok (arrays_with_prefix p eqs)
  <-> forall e, e ∈ eqs -> arrays (eq_code e) <> None.
Proof.
  unfold arrays_with_prefix.
  apply (for_each_iter_ok (fun e => arrays (eq_code e))
           (fun arrs acc => acc ++ filter (fun arr => startswith arr p) arrs)).
Qed.

Lemma arrays_with_prefix_result (p : string) (eqs : list Equation)
    (more : list string) :
  arrays_with_prefix p eqs = inr more ->
  forall n, n ∈ more
    <-> exists e, e ∈ eqs /\ n ∈ arrays_of e /\ startswith n p = true.
Proof.
  intros Hmore.
  assert (Hsome : forall e, e ∈ eqs -> arrays (eq_code e) <> None).
  { apply (proj1 (arrays_with_prefix_ok p eqs)). by exists more. }
  unfold arrays_with_prefix in Hmore.
  rewrite (for_each_iter_fold (fun e => arrays (eq_code e))
             (fun arrs acc => acc ++ filter (fun arr => startswith arr p) arrs))
    in Hmore by done.
  injection Hmore as <-.
  rewrite (fold_left_app_concat
             (fun e => filter (fun arr => startswith arr p) (arrays_of e))).
  intros n. simpl. rewrite elem_of_concat_fmap. split.
  - intros (e & He & Hn). apply list_elem_of_filter in Hn as [Hp Hn].
    exists e. split; [done|]. split; [done|]. by apply Is_true_true.
  - intros (e & He & Hn & Hp). exists e. split; [done|].
    apply list_elem_of_filter. split; [by apply Is_true_true|done].
Qed.

Section setup_statements.
Context `{IterationOrder}.

(** The names bound by a set-up: the required ones and the prefixed arrays
    of the equations, each once. *)
Lemma setup_names (base more : list string) :
  NoDup (set_order (first_seen (base ++ more)))
  /\ forall n, n ∈ set_order (first_seen (base ++ more))
       <-> n ∈ base \/ n ∈ more.
Proof.
  split.
  - rewrite set_order_perm. apply NoDup_first_seen.
  - intros n. by rewrite set_order_perm, elem_of_first_seen, elem_of_app.
Qed.

(** X8.  [_get_src_array_setup] returns exactly when every equation of the
    list supplies an [arrays] key.  Its text binds, one statement per line
    and no name twice, the four names the locator needs ([s_x], [s_y],
    [s_z], [s_h]), whether or not an equation names them, and the arrays of
    the equations that begin with [s_]; nothing else is bound. *)
Theorem src_array_setup_spec (src_name : string) (eqs : list Equation) :
  (is_ok (_get_src_array_setup src_name eqs)
   <-> forall e, e ∈ eqs -> arrays (eq_code e) <> None)
  /\ (forall text, _get_src_array_setup src_name eqs = inr text ->
        exists names,
          text = join nl (binding src_name <$> names)
          /\ NoDup names
          /\ (forall n, n ∈ ["s_x"; "s_y"; "s_z"; "s_h"] -> n ∈ names)
          /\ (forall n, n ∈ names
                <-> n ∈ ["s_x"; "s_y"; "s_z"; "s_h"]
                    \/ exists e, e ∈ eqs /\ n ∈ arrays_of e
                                 /\ startswith n "s_" = true)
          /\ (forall n, n ∈ names -> startswith n "s_" = true)).
Proof.
  unfold _get_src_array_setup.
  pose proof (arrays_with_prefix_ok "s_" eqs) as Hok.
  destruct (arrays_with_prefix "s_" eqs) as [err|more] eqn:Hmore;
    cbn [bind ret].
  - split; [|done]. rewrite <- Hok. split; by intros [a Ha].
  - split; [rewrite <- Hok; split; intros _; by eexists|].
    intros text [= <-].
    destruct (setup_names ["s_x"; "s_y"; "s_z"; "s_h"] more) as [Hnd Hin].
    pose proof (arrays_with_prefix_result _ _ _ Hmore) as Hm.
    eexists. split; [reflexivity|]. split; [done|].
    split; [|split].
    + intros n Hn. apply Hin. by left.
    + intros n. by rewrite Hin, Hm.
    + intros n Hn. apply Hin in Hn as [Hn|Hn].
      * repeat (apply elem_of_cons in Hn as [->|Hn]; [done|]).
        by inversion Hn.
      * by apply Hm in Hn as (_ & _ & _ & Hp).
Qed.

(** The equations a destination's set-up reads: those listed under some
    source of its map. *)
Lemma dest_setup_equations (sources : SourceMap) e :
  e ∈ object_order (first_seen (concat (snd <$> dict_order sources)))
  <-> exists s l, (s, l) ∈ sources /\ e ∈ l.
Proof.
  rewrite object_order_perm, elem_of_first_seen, elem_of_concat_lists.
  split.
  - intros (l & Hl & He). apply list_elem_of_fmap in Hl as ([s l'] & -> & Hin).
    rewrite elem_of_dict_order in Hin. by exists s, l'.
  - intros (s & l & Hin & He). exists l. split; [|done].
    apply list_elem_of_fmap. exists (s, l). split; [done|].
    by rewrite elem_of_dict_order.
Qed.
End setup_statements.

Lemma src_array_setup_spec_witness :
  exists names,
    @_get_src_array_setup insertion_order "fluid"
       [SummationDensity "fluid" (Some ["fluid"])]
    = inr (join nl (binding "fluid" <$> names))
    /\ NoDup names /\ "s_y" ∈ names /\ "s_m" ∈ names.
Proof.
  destruct (@src_array_setup_spec insertion_order "fluid"
              [SummationDensity "fluid" (Some ["fluid"])]) as [_ Htext].
  destruct (Htext _ eq_refl) as (names & Hjoin & Hnd & Hreq & Hin & _).
  exists names. split; [exact (f_equal inr Hjoin)|]. split; [exact Hnd|].
  split.
  - apply Hreq. apply list_elem_of_further, list_elem_of_here.
  - apply Hin. right. exists (SummationDensity "fluid" (Some ["fluid"])).
    split; [apply list_elem_of_here|]. split; [|reflexivity].
    apply list_elem_of_further, list_elem_of_here.
Defined.

Section dest_setup.
Context `{IterationOrder}.

(** X9.  [_get_dest_array_setup] returns exactly when every equation listed
    under some source of the map supplies an [arrays] key.  Its text is the
    statement giving [NP_DEST] the size of the destination, followed, one
    statement per line and no name twice, by the bindings of the four names
    the locator needs ([d_x], [d_y], [d_z], [d_h]), whether or not an
    equation names them, and of the arrays of those equations that begin
    with [d_]; nothing else is bound. *)
Theorem dest_array_setup_spec (dest_name : string) (sources : SourceMap) :
  (is_ok (_get_dest_array_setup dest_name sources)
   <-> forall s l e, (s, l) ∈ sources -> e ∈ l ->
                     arrays (eq_code e) <> None)
  /\ (forall text, _get_dest_array_setup dest_name sources = inr text ->
        exists names,
          text = join nl (("NP_DEST = self." +:+ dest_name +:+ ".size()")
                          :: (binding dest_name <$> names))
          /\ NoDup names
          /\ (forall n, n ∈ ["d_x"; "d_y"; "d_z"; "d_h"] -> n ∈ names)
          /\ (forall n, n ∈ names
                <-> n ∈ ["d_x"; "d_y"; "d_z"; "d_h"]
                    \/ exists s l e, (s, l) ∈ sources /\ e ∈ l
                                     /\ n ∈ arrays_of e
                                     /\ startswith n "d_" = true)
          /\ (forall n, n ∈ names -> startswith n "d_" = true)).
Proof.
  unfold _get_dest_array_setup.
  set (eqs := object_order (first_seen (concat (snd <$> dict_order sources)))).
  assert (Heqs : forall e, e ∈ eqs <-> exists s l, (s, l) ∈ sources /\ e ∈ l)
    by apply dest_setup_equations.
  assert (Hok : is_ok (arrays_with_prefix "d_" eqs)
                <-> forall s l e, (s, l) ∈ sources -> e ∈ l ->
                                  arrays (eq_code e) <> None).
  { rewrite arrays_with_prefix_ok. split.
    - intros Hall s l e Hin He. apply Hall, Heqs. by exists s, l.
    - intros Hall e He. apply Heqs in He as (s & l & Hin & He).
      by eapply Hall. }
  destruct (arrays_with_prefix "d_" eqs) as [err|more] eqn:Hmore;
    cbn [bind ret].
  - split; [|done]. rewrite <- Hok. split; by intros [a Ha].
  - split; [rewrite <- Hok; split; intros _; by eexists|].
    intros text [= <-].
    destruct (setup_names ["d_x"; "d_y"; "d_z"; "d_h"] more) as [Hnd Hin].
    pose proof (arrays_with_prefix_result _ _ _ Hmore) as Hm.
    eexists. split; [reflexivity|]. split; [done|].
    split; [|split].
    + intros n Hn. apply Hin. by left.
    + intros n. rewrite Hin, Hm. split.
      * intros [Hn|(e & He & Hn & Hp)]; [by left|]. right.
        apply Heqs in He as (s & l & Hsl & He). by exists s, l, e.
      * intros [Hn|(s & l & e & Hsl & He & Hn & Hp)]; [by left|]. right.
        exists e. split; [|done]. apply Heqs. by exists s, l.
    + intros n Hn. apply Hin in Hn as [Hn|Hn].
      * repeat (apply elem_of_cons in Hn as [->|Hn]; [done|]).
        by inversion Hn.
      * by apply Hm in Hn as (_ & _ & _ & Hp).
Qed.

(** ** The helper section *)

(** X10.  The wrapper declaration lists after [DoubleArray], separated by
    commas, the property names of the particle arrays: every property of
    some array except the reserved [tag], [group], [local] and [pid], and
    none twice. *)
Theorem particle_array_wrapper_spec (pas : list ParticleArray) :
  exists names,
    define_particle_array_wrapper pas
    = ParticleArrayWrapper_template (join ", " names)
    /\ NoDup names
    /\ (forall n, n ∈ names
          <-> (exists pa, pa ∈ pas /\ n ∈ properties pa)
              /\ n ∉ reserved_props).
Proof.
  eexists. split; [reflexivity|]. split.
  - rewrite set_order_perm. apply NoDup_filter, NoDup_first_seen.
  - intros n. rewrite set_order_perm, list_elem_of_filter, elem_of_first_seen.
    rewrite elem_of_concat_fmap. tauto.
Qed.


End dest_setup.

Lemma dest_array_setup_spec_witness :
  exists names,
    @_get_dest_array_setup insertion_order "fluid"
       [("fluid", [SummationDensity "fluid" (Some ["fluid"])])]
    = inr (join nl ("NP_DEST = self.fluid.size()"
                    :: (binding "fluid" <$> names)))
    /\ NoDup names /\ "d_z" ∈ names /\ "d_rho" ∈ names.
Proof.
  destruct (@dest_array_setup_spec insertion_order "fluid"
              [("fluid", [SummationDensity "fluid" (Some ["fluid"])])])
    as [_ Htext].
  destruct (Htext _ eq_refl) as (names & Hjoin & Hnd & Hreq & Hin & _).
  exists names. split; [exact (f_equal inr Hjoin)|]. split; [exact Hnd|].
  split.
  - apply Hreq. do 2 apply list_elem_of_further. apply list_elem_of_here.
  - apply Hin. right.
    exists "fluid", [SummationDensity "fluid" (Some ["fluid"])],
      (SummationDensity "fluid" (Some ["fluid"])).
    split; [apply list_elem_of_here|]. split; [apply list_elem_of_here|].
    split; [|reflexivity]. do 5 apply list_elem_of_further.
    apply list_elem_of_here.
Defined.


(* ===================================================================== *)
(** ** The text buffer *)
(* ===================================================================== *)

Lemma append_nil_r (s : string) : s +:+ "" = s.
Proof. induction s as [|c s IH]; [done|]. by rewrite append_cons, IH. Qed.

Lemma no_line_break_cons (c : ascii) (s : string) :
  no_line_break (String c s) = true ->
  Ascii.eqb c LF = false /\ Ascii.eqb c CR = false /\ no_line_break s = true.
Proof.
  unfold no_line_break. cbn [has_char].
  rewrite (Ascii.eqb_sym LF c), (Ascii.eqb_sym CR c).
  destruct (Ascii.eqb c LF), (Ascii.eqb c CR), (has_char LF s),
    (has_char CR s); done.
Qed.

(** Reading a line that holds no terminator, up to the line feed after
    it. *)
Lemma splitlines_from_line (cur : option string) (line rest : string) :
  no_line_break line = true ->
  splitlines_from cur (line +:+ String LF rest)
  = (default "" cur +:+ line) :: splitlines_from None rest.
Proof.
  revert cur. induction line as [|c line IH]; intros cur Hfree.
  - change ("" +:+ String LF rest) with (String LF rest).
    cbn [splitlines_from]. rewrite Ascii.eqb_refl. by rewrite append_nil_r.
  - apply no_line_break_cons in Hfree as (Hlf & Hcr & Hfree).
    rewrite append_cons. cbn [splitlines_from]. rewrite Hlf, Hcr.
    rewrite IH by done. f_equal.
    change (default "" (Some ?s)) with s.
    by rewrite append_assoc_str.
Qed.

(** Reading a last line that no terminator follows. *)
Lemma splitlines_from_last (cur : option string) (line : string) :
  no_line_break line = true ->
  cur <> None \/ line <> "" ->
  splitlines_from cur line = [default "" cur +:+ line].
Proof.
  revert cur. induction line as [|c line IH]; intros cur Hfree Hsome.
  - destruct cur as [s|]; [|by destruct Hsome].
    cbn [splitlines_from]. by rewrite append_nil_r.
  - apply no_line_break_cons in Hfree as (Hlf & Hcr & Hfree).
    cbn [splitlines_from]. rewrite Hlf, Hcr.
    rewrite IH by (done || by left).
    change (default "" (Some ?s)) with s.
    by rewrite append_assoc_str.
Qed.

Lemma join_cons_cons (sep x y : string) (l : list string) :
  join sep (x :: y :: l) = x +:+ sep +:+ join sep (y :: l).
Proof. reflexivity. Qed.

Lemma splitlines_join_nl (lines : list string) (rest : string) :
  Forall (fun s => no_line_break s = true) lines -> lines <> [] ->
  splitlines (join nl lines +:+ nl +:+ rest) = lines ++ splitlines rest.
Proof.
  unfold splitlines.
  induction lines as [|x lines IH]; intros Hfree Hne; [done|].
  apply Forall_cons in Hfree as [Hx Hfree].
  destruct lines as [|y lines].
  - cbn [join]. change (nl +:+ rest) with (String LF rest).
    by rewrite splitlines_from_line.
  - rewrite join_cons_cons, !append_assoc_str.
    change (nl +:+ ?s) with (String LF s).
    rewrite splitlines_from_line by done.
    change (String LF rest) with (nl +:+ rest).
    by rewrite IH.
Qed.

Lemma splitlines_join (lines : list string) :
  Forall (fun s => no_line_break s = true) lines ->
  last lines <> Some "" ->
  splitlines (join nl lines) = lines.
Proof.
  unfold splitlines.
  induction lines as [|x lines IH]; intros Hfree Hlast; [done|].
  apply Forall_cons in Hfree as [Hx Hfree].
  destruct lines as [|y lines].
  - cbn [join]. rewrite splitlines_from_last; [done|done|].
    right. intros ->. by apply Hlast.
  - rewrite join_cons_cons. change (nl +:+ ?s) with (String LF s).
    rewrite splitlines_from_line by done.
    by rewrite IH.
Qed.

Lemma indent_of_nonpositive (l : Z) : (l <= 0)%Z -> indent_of l = "".
Proof.
  intros Hl. unfold indent_of, spaces.
  replace (Z.to_nat (l * 4)) with 0%nat by lia. done.
Qed.

(** X12.  A block made of lines that hold no line terminator, joined by
    line feeds and not ending in an empty line, is split back into those
    lines, and [_indented_code] returns them joined again, each behind four
    spaces per level.  At a level of zero or below nothing is put before the
    lines and the block is returned as it is.  One line feed at the end of
    a block changes nothing. *)
Theorem indented_code_of_lines (lines : list string) :
  Forall (fun s => no_line_break s = true) lines ->
  last lines <> Some "" ->
  splitlines (join nl lines) = lines
  /\ (forall l,
        SourceCode._indented_code (Some (join nl lines)) l
        = inr (join nl ((fun line => indent_of l +:+ line) <$> lines)))
  /\ (forall l, (l <= 0)%Z ->
        SourceCode._indented_code (Some (join nl lines)) l
        = inr (join nl lines))
  /\ (lines <> [] -> forall l,
        SourceCode._indented_code (Some (join nl lines +:+ nl)) l
        = SourceCode._indented_code (Some (join nl lines)) l).
Proof.
  intros Hfree Hlast.
  pose proof (splitlines_join lines Hfree Hlast) as Hsplit.
  assert (Hdef : forall s l,
    SourceCode._indented_code (Some s) l
    = inr (join nl ((fun line => indent_of l +:+ line) <$> splitlines s)))
    by reflexivity.
  split; [done|]. split; [|split].
  - intros l. by rewrite Hdef, Hsplit.
  - intros l Hl. rewrite Hdef, Hsplit, indent_of_nonpositive by done.
    f_equal. f_equal. clear. induction lines as [|x lines IH]; [done|].
    by rewrite fmap_cons, IH.
  - intros Hne l.
    pose proof (splitlines_join_nl lines "" Hfree Hne) as Hnl.
    rewrite append_nil_r in Hnl. cbn [splitlines splitlines_from] in Hnl.
    rewrite app_nil_r in Hnl. by rewrite !Hdef, Hnl, Hsplit.
Qed.

Lemma indented_code_of_lines_witness :
  SourceCode._indented_code
    (Some ("for d_idx in range(NP_DEST):" +:+ nl +:+ "    rho = 0.0" +:+ nl)) 2
  = inr ("        for d_idx in range(NP_DEST):" +:+ nl
         +:+ "            rho = 0.0").
Proof.
  destruct (indented_code_of_lines
              ["for d_idx in range(NP_DEST):"; "    rho = 0.0"])
    as (_ & Hat & _ & Hnl).
  - repeat constructor.
  - discriminate.
  - specialize (Hnl ltac:(discriminate) 2%Z). specialize (Hat 2%Z).
    etransitivity; [exact Hnl|]. etransitivity; [exact Hat|]. reflexivity.
Defined.

Section for_each_more.
Context {A S : Type}.

Lemma for_each_ext (l : list A) (body body' : A -> S -> result S) (s : S) :
  (forall x t, body x t = body' x t) ->
  for_each l body s = for_each l body' s.
Proof.
  intros Hb. revert s. induction l as [|x l IH]; intros s; [done|].
  cbn [for_each]. rewrite Hb. destruct (body' x s); [done|]. apply IH.
Qed.
End for_each_more.

Lemma join_snoc (sep : string) (l : list string) (x : string) :
  l <> [] -> join sep (l ++ [x]) = join sep l +:+ sep +:+ x.
Proof.
  induction l as [|y l IH]; intros Hne; [done|].
  destruct l as [|z l]; [done|].
  change (join sep ((y :: z :: l) ++ [x]))
    with (y +:+ sep +:+ join sep ((z :: l) ++ [x])).
  rewrite IH by done. rewrite join_cons_cons.
  by rewrite !append_assoc_str.
Qed.

Lemma map_result_from_error {A B} (f : A -> result B) (l : list A)
    (acc : list B) (e : PyError) :
  for_each l (fun x acc => let* y := f x in ret (acc ++ [y])) acc = inl e ->
  exists x, x ∈ l /\ f x = inl e.
Proof.
  revert acc. induction l as [|x l IH]; intros acc; [done|].
  cbn [for_each]. destruct (f x) as [e'|y] eqn:Hx; cbn [bind ret].
  - intros [= <-]. exists x. split; [left|done].
  - intros Hl. destruct (IH _ Hl) as (z & Hz & Hfz).
    exists z. split; [by right|done].
Qed.

Lemma SourceCode_get_rendered (self : SourceCode.t) (text : string) :
  SourceCode.get self = inr text
  <-> exists rendered,
        Forall2 (fun b r => SourceCode._indented_code b.1 b.2 = inr r)
                (SourceCode.code self) rendered
        /\ text = join nl rendered.
Proof.
  unfold SourceCode.get.
  rewrite (for_each_ext _ _
             (fun b acc =>
                let* s := SourceCode._indented_code b.1 b.2 in
                ret (acc ++ [s]))) by (by intros [c l] t).
  destruct (for_each _ _ _) as [e|src] eqn:Hloop; cbn [bind ret].
  - split; [done|]. intros (rendered & Hr & _).
    assert (Hex : for_each (SourceCode.code self)
                    (fun b acc =>
                       let* s := SourceCode._indented_code b.1 b.2 in
                       ret (acc ++ [s])) [] = inr rendered).
    { apply map_result_from. by exists rendered. }
    rewrite Hloop in Hex. done.
  - apply map_result_from in Hloop as (ys & -> & Hf). split.
    + intros [= <-]. by exists ys.
    + intros (rendered & Hr & ->). f_equal. f_equal. cbn [app].
      revert Hf Hr. generalize (SourceCode.code self). clear.
      intros bs Hf. revert rendered.
      induction Hf as [|b y bs ys Hb _ IH]; intros rendered Hr;
        inversion Hr as [|? r ? rs Hb' Hrs]; subst; [done|].
      rewrite Hb in Hb'. injection Hb' as <-. f_equal. by apply IH.
Qed.

(** X13.  [get] returns exactly when no block of the buffer is [None]; the
    one exception it raises is the [AttributeError] of [None.splitlines].
    What it returns is the blocks, each rendered at the level it was added
    at, joined by line feeds in the order they were added. *)
Theorem SourceCode_get_spec (self : SourceCode.t) :
  (is_ok (SourceCode.get self)
   <-> forall c l, (c, l) ∈ SourceCode.code self -> c <> None)
  /\ (forall e, SourceCode.get self = inl e ->
        e = AttributeError "'NoneType' object has no attribute 'splitlines'")
  /\ (forall text, SourceCode.get self = inr text ->
        exists rendered,
          Forall2 (fun b r => SourceCode._indented_code b.1 b.2 = inr r)
                  (SourceCode.code self) rendered
          /\ text = join nl rendered).
Proof.
  split; [|split].
  - split.
    + intros Hok c l Hin ->. revert Hok.
      unfold SourceCode.get. intros [a Ha].
      destruct (for_each _ _ _) as [err|lines] eqn:Hloop; [done|].
      eapply (for_each_raises (SourceCode.code self)); [exact Hin| |by eexists].
      intros t [b Hb]. done.
    + intros Hsome. unfold SourceCode.get.
      assert (Hok : is_ok (for_each (SourceCode.code self)
                (fun '(c, l) acc =>
                   let* s := SourceCode._indented_code c l in
                   ret (acc ++ [s])) [])).
      { apply for_each_ok. intros [c l] t Hin.
        destruct c as [c|]; [by eexists|]. by destruct (Hsome None l). }
      destruct Hok as [src ->]. by eexists.
  - intros e. unfold SourceCode.get.
    destruct (for_each _ _ _) as [err|lines] eqn:Hloop; [|done].
    intros [= <-].
    rewrite (for_each_ext _ _
               (fun b acc =>
                  let* s := SourceCode._indented_code b.1 b.2 in
                  ret (acc ++ [s]))) in Hloop by (by intros [c l] t).
    apply map_result_from_error in Hloop as ([[c|] l] & _ & Hb); [done|].
    by injection Hb as <-.
  - intros text. apply SourceCode_get_rendered.
Qed.

Lemma SourceCode_get_spec_witness :
  is_ok (SourceCode.get
           (SourceCode.add (Some "s_idx = 0")
              (SourceCode.indent
                 (SourceCode.add (Some "while True:") SourceCode.new)))).
Proof.
  apply (proj1 (SourceCode_get_spec _)).
  intros c l Hin.
  apply elem_of_cons in Hin as [[= -> _]|Hin]; [done|].
  apply elem_of_cons in Hin as [[= -> _]|Hin]; [done|]. by inversion Hin.
Defined.

(** X14.  Adding a block leaves the level as it is, and [indent] and
    [dedent] change nothing in the text: a block is rendered at the level
    the buffer had when it was added.  On a buffer that already holds a
    block and can be rendered, the text after [add] is the text before, a
    line feed, and the rendering of the new block; on an empty buffer it is
    that rendering alone.  A buffer that cannot be rendered stays so
    whatever is added. *)
Theorem SourceCode_add_get (self : SourceCode.t) (c : option string) :
  SourceCode.level (SourceCode.add c self) = SourceCode.level self
  /\ SourceCode.get (SourceCode.indent self) = SourceCode.get self
  /\ SourceCode.get (SourceCode.dedent self) = SourceCode.get self
  /\ (forall t r,
        SourceCode.code self <> [] ->
        SourceCode.get self = inr t ->
        SourceCode._indented_code c (SourceCode.level self) = inr r ->
        SourceCode.get (SourceCode.add c self) = inr (t +:+ nl +:+ r))
  /\ (SourceCode.code self = [] ->
      SourceCode.get (SourceCode.add c self)
      = SourceCode._indented_code c (SourceCode.level self))
  /\ (forall e, SourceCode.get self = inl e ->
        SourceCode.get (SourceCode.add c self) = inl e).
Proof.
  split; [done|]. split; [done|]. split; [done|]. split; [|split].
  - intros t r Hne Hget Hc.
    apply SourceCode_get_rendered in Hget as (rendered & Hr & ->).
    apply SourceCode_get_rendered. exists (rendered ++ [r]). split.
    + cbn [SourceCode.add SourceCode.code]. apply Forall2_app; [done|].
      by constructor.
    + rewrite join_snoc; [done|]. intros ->. inversion Hr as [Hnil|]; subst.
      by apply Hne.
  - intros Hnil. unfold SourceCode.get, SourceCode.add.
    cbn [SourceCode.code SourceCode.level]. rewrite Hnil.
    cbn [app for_each].
    destruct (SourceCode._indented_code c (SourceCode.level self)); done.
  - intros e. unfold SourceCode.get, SourceCode.add.
    cbn [SourceCode.code SourceCode.level]. rewrite for_each_app.
    destruct (for_each (SourceCode.code self) _ _); [|done].
    by intros [= <-].
Qed.

Lemma SourceCode_add_get_witness :
  SourceCode.get
    (SourceCode.add (Some "s_idx = 0")
       (SourceCode.indent (SourceCode.add (Some "while True:") SourceCode.new)))
  = inr ("while True:" +:+ nl +:+ "    s_idx = 0").
Proof.
  destruct (SourceCode_add_get
              (SourceCode.indent
                 (SourceCode.add (Some "while True:") SourceCode.new))
              (Some "s_idx = 0")) as (_ & _ & _ & Hadd & _ & _).
  apply Hadd; [discriminate|reflexivity|reflexivity].
Defined.

(* ===================================================================== *)
(** ** The body: blocks and levels *)
(* ===================================================================== *)

Section for_each_outcomes.
Context {A S : Type}.
Implicit Types (l : list A) (body : A -> S -> result S) (s : S).

(** A loop whose turns return or raise whatever the state. *)
Lemma for_each_ok_iff (Q : A -> Prop) l body s :
  (forall x t, x ∈ l -> is_ok (body x t) <-> Q x) ->
  is_ok (for_each l body s) <-> forall x, x ∈ l -> Q x.
Proof.
  intros HQ. split.
  - revert s. induction l as [|x l IH]; intros s Hok y Hy; [by inversion Hy|].
    cbn [for_each] in Hok. destruct (body x s) as [e|t] eqn:Hb.
    { by destruct Hok as [a Ha]. }
    apply elem_of_cons in Hy as [->|Hy].
    + apply (HQ x s); [left|]. by exists t.
    + apply (IH (fun z t0 Hz => HQ z t0 ltac:(by right)) t Hok y Hy).
  - intros Hall. apply for_each_ok. intros x t Hx. apply HQ; [done|].
    by apply Hall.
Qed.

(** A mark that every turn keeps and some turn sets is set at the end. *)
Lemma for_each_mark (P : S -> Prop) l body s s' x :
  (forall y t t', y ∈ l -> body y t = inr t' -> P t -> P t') ->
  x ∈ l -> (forall t t', body x t = inr t' -> P t') ->
  for_each l body s = inr s' -> P s'.
Proof.
  intros Hkeep Hx Hset. revert s.
  induction l as [|y l IH]; intros s; [by inversion Hx|].
  cbn [for_each]. destruct (body y s) as [e|t] eqn:Hb; [done|].
  cbn [bind]. apply elem_of_cons in Hx as [<-|Hx].
  - apply for_each_inv; [by eapply Hset|].
    intros z t0 t1 Hz Ht0 Hb1. eapply Hkeep; [by right|done|done].
  - apply IH; [|done]. intros z t0 t1 Hz. apply Hkeep. by right.
Qed.
End for_each_outcomes.

Lemma elem_of_enumerate {A} (l : list A) (i : nat) (x : A) :
  (i, x) ∈ enumerate l -> x ∈ l.
Proof.
  unfold enumerate. intros Hin. apply list_elem_of_lookup in Hin as [k Hk].
  apply lookup_zip_with_Some in Hk as (a & b & [= <- <-] & _ & Hb).
  by eapply list_elem_of_lookup_2.
Qed.

Lemma enumerate_elem_of {A} (l : list A) (x : A) :
  x ∈ l -> exists i, (i, x) ∈ enumerate l.
Proof.
  unfold enumerate. intros Hin. apply list_elem_of_lookup in Hin as [k Hk].
  exists k. apply list_elem_of_lookup. exists k.
  apply lookup_zip_with_Some. exists k, x. split; [done|]. split; [|done].
  apply lookup_seq. split; [done|]. by eapply lookup_lt_Some.
Qed.

Section growth.
Variable ok : option string -> Prop.
Implicit Types (base src : SourceCode.t).

Lemma grows_refl src : grows ok src 0 src.
Proof.
  split; [lia|]. exists []. split; [by rewrite app_nil_r|constructor].
Qed.

Lemma grows_add base d src c :
  grows ok base d src -> ok c -> (0 <= d <= 2)%Z ->
  grows ok base d (SourceCode.add c src).
Proof.
  intros (Hl & blocks & Hc & Hall) Hok Hd. split; [done|].
  exists (blocks ++ [(c, SourceCode.level src)]). split.
  - cbn [SourceCode.add SourceCode.code]. by rewrite Hc, <- (assoc_L (++)).
  - apply Forall_app. split; [done|]. constructor; [|constructor].
    cbn [fst snd]. split; [done|lia].
Qed.

Lemma grows_indent base d src :
  grows ok base d src -> grows ok base (d + 1) (SourceCode.indent src).
Proof.
  intros (Hl & blocks & Hc & Hall). split.
  - cbn [SourceCode.indent SourceCode.level]. lia.
  - by exists blocks.
Qed.

Lemma grows_dedent base d src :
  grows ok base d src -> grows ok base (d - 1) (SourceCode.dedent src).
Proof.
  intros (Hl & blocks & Hc & Hall). split.
  - cbn [SourceCode.dedent SourceCode.level]. lia.
  - by exists blocks.
Qed.

Lemma grows_at base d d' src : grows ok base d src -> d = d' -> grows ok base d' src.
Proof. by intros Hg <-. Qed.

Lemma grows_fold_add {B} (f : B -> option string) (l : list B) base d src :
  grows ok base d src -> (0 <= d <= 2)%Z -> (forall x, x ∈ l -> ok (f x)) ->
  grows ok base d (fold_left (fun src x => SourceCode.add (f x) src) l src).
Proof.
  revert src. induction l as [|x l IH]; intros src Hg Hd Hall; [done|].
  cbn [fold_left]. apply IH; [|done|].
  - apply grows_add; [done| |done]. apply Hall. left.
  - intros y Hy. apply Hall. by right.
Qed.
End growth.

Lemma grows_has_none (ok : option string -> Prop) base d src :
  grows ok base d src -> has_none base -> has_none src.
Proof.
  intros (_ & blocks & Hc & _) [l Hl]. exists l. rewrite Hc.
  apply elem_of_app. by left.
Qed.

Lemma has_none_add (c : option string) src :
  has_none src -> has_none (SourceCode.add c src).
Proof.
  intros [l Hl]. exists l. cbn [SourceCode.add SourceCode.code].
  apply elem_of_app. by left.
Qed.

Lemma has_none_fold_add {B} (f : B -> option string) (l : list B) src :
  has_none src \/ (exists x, x ∈ l /\ f x = None) ->
  has_none (fold_left (fun src x => SourceCode.add (f x) src) l src).
Proof.
  revert src. induction l as [|x l IH]; intros src Hor.
  - destruct Hor as [Hn|(x & Hx & _)]; [done|by inversion Hx].
  - cbn [fold_left]. apply IH. destruct Hor as [Hn|(y & Hy & Hnone)].
    + left. by apply has_none_add.
    + apply elem_of_cons in Hy as [->|Hy]; [|right; by exists y].
      left. exists (SourceCode.level src). rewrite Hnone.
      cbn [SourceCode.add SourceCode.code]. apply elem_of_app. right. left.
Qed.

Lemma is_ok_bind {A B} (m : result A) (k : A -> result B) :
  is_ok (bind m k) <-> exists a, m = inr a /\ is_ok (k a).
Proof.
  destruct m as [e|a]; cbn [bind].
  - split; [by intros [b Hb]|by intros (a & Ha & _)].
  - split; [intros Hk; by exists a|]. by intros (a' & [= <-] & Hk).
Qed.

Lemma is_ok_ret {A} (a : A) : is_ok (ret a).
Proof. by exists a. Qed.

Section blocks.
Context `{IterationOrder}.
Variable self : SPHEval.

Lemma _get_src_array_setup_ok (source : string) (eqs : list Equation) :
  is_ok (_get_src_array_setup source eqs)
  <-> forall e, e ∈ eqs -> arrays (eq_code e) <> None.
Proof.
  rewrite <- (arrays_with_prefix_ok "s_"). unfold _get_src_array_setup.
  destruct (arrays_with_prefix "s_" eqs) as [e|more]; cbn [bind ret].
  - split; by intros [a Ha].
  - split; intros _; by eexists.
Qed.

Lemma _get_dest_array_setup_ok (dest_name : string) (sources : SourceMap) :
  is_ok (_get_dest_array_setup dest_name sources)
  <-> forall s l e, (s, l) ∈ sources -> e ∈ l -> arrays (eq_code e) <> None.
Proof.
  unfold _get_dest_array_setup.
  set (eqs := object_order (first_seen (concat (snd <$> dict_order sources)))).
  assert (Hok : is_ok (arrays_with_prefix "d_" eqs)
                <-> forall s l e, (s, l) ∈ sources -> e ∈ l ->
                                  arrays (eq_code e) <> None).
  { rewrite arrays_with_prefix_ok. split.
    - intros Hall s l e Hin He. apply Hall, dest_setup_equations.
      by exists s, l.
    - intros Hall e He. apply dest_setup_equations in He as (s & l & Hin & He).
      by eapply Hall. }
  rewrite <- Hok.
  destruct (arrays_with_prefix "d_" eqs) as [e|more]; cbn [bind ret].
  - split; by intros [a Ha].
  - split; intros _; by eexists.
Qed.

Lemma _get_initialization_ok (eqs : list Equation) :
  is_ok (_get_initialization eqs)
  <-> forall e, e ∈ eqs ->
        variables (eq_code e) <> None /\ temporaries (eq_code e) <> None.
Proof.
  split.
  - intros Hok e He.
    destruct (variables (eq_code e)) eqn:Hv;
      [destruct (temporaries (eq_code e)) eqn:Ht; [done|]|];
      exfalso; apply (_get_initialization_absent eqs e He); auto.
  - intros Hall. destruct (_get_initialization_fold eqs Hall) as (init & -> & _).
    by eexists.
Qed.

Lemma _get_equation_loop_ok (e : Equation) :
  is_ok (_get_equation_loop self e) <-> loop (eq_code e) <> None.
Proof.
  unfold _get_equation_loop. destruct (loop (eq_code e)).
  - split; [done|]. intros _. by eexists.
  - split; [by intros [a Ha]|done].
Qed.

Lemma posts_blocks (eqs : list Equation) (src : SourceCode.t) :
  SourceCode.level
    (fold_left (fun src e => SourceCode.add (post (eq_code e)) src) eqs src)
  = SourceCode.level src
  /\ SourceCode.code
       (fold_left (fun src e => SourceCode.add (post (eq_code e)) src) eqs src)
     = SourceCode.code src
       ++ ((fun e => (post (eq_code e), SourceCode.level src)) <$> eqs).
Proof.
  revert src. induction eqs as [|e eqs IH]; intros src.
  - by rewrite app_nil_r.
  - cbn [fold_left]. destruct (IH (SourceCode.add (post (eq_code e)) src))
      as [-> ->]. split; [done|].
    cbn [SourceCode.add SourceCode.code SourceCode.level].
    by rewrite <- (assoc_L (++)).
Qed.

Lemma loops_blocks (eqs : list Equation) (src src' : SourceCode.t) :
  for_each eqs
    (fun equation src =>
       let src :=
         SourceCode.add (Some ("# Equation " +:+ eq_class equation)) src in
       let* l := _get_equation_loop self equation in
       ret (SourceCode.add (Some l) src))
    src = inr src' ->
  SourceCode.level src' = SourceCode.level src
  /\ exists loops,
       SourceCode.code src' = SourceCode.code src ++ loops
       /\ Forall (fun b => b.1 <> None /\ b.2 = SourceCode.level src) loops.
Proof.
  apply (for_each_inv
           (fun t => SourceCode.level t = SourceCode.level src
                     /\ exists loops,
                          SourceCode.code t = SourceCode.code src ++ loops
                          /\ Forall (fun b => b.1 <> None
                                              /\ b.2 = SourceCode.level src)
                                    loops)).
  - split; [done|]. exists []. split; [by rewrite app_nil_r|constructor].
  - intros e t t' _ (Hl & loops & Hc & Hall). cbv zeta.
    destruct (_get_equation_loop self e) as [err|l]; [done|].
    cbn [bind ret]. intros [= <-]. split; [done|].
    exists (loops ++ [(Some ("# Equation " +:+ eq_class e), SourceCode.level src);
                      (Some l, SourceCode.level src)]).
    split.
    + cbn [SourceCode.add SourceCode.code SourceCode.level].
      rewrite Hc, Hl, <- !(assoc_L (++)). done.
    + apply Forall_app. split; [done|]. by repeat constructor.
Qed.

(** The blocks of one source, in order, with their levels. *)
Lemma emit_source_blocks (source : string) (eqs : list Equation)
    (src src' : SourceCode.t) :
  emit_source self source eqs src = inr src' ->
  exists s_setup lcode init loops,
    locator_code (locator self) = Some lcode
    /\ SourceCode.level src' = SourceCode.level src
    /\ SourceCode.code src'
       = SourceCode.code src
         ++ [ (Some ("# Source " +:+ source +:+ "." +:+ nl),
               SourceCode.level src);
              (Some s_setup, SourceCode.level src);
              (setup lcode, SourceCode.level src);
              (Some ("for d_idx in range(NP_DEST):" +:+ nl),
               SourceCode.level src);
              (Some init, (SourceCode.level src + 1)%Z);
              (Some neighbor_loop_template, (SourceCode.level src + 1)%Z) ]
         ++ loops
         ++ ((fun e => (post (eq_code e), (SourceCode.level src + 1)%Z))
             <$> eqs)
         ++ [ (Some ("# Source " +:+ source +:+ " done." +:+ nl),
               SourceCode.level src) ]
    /\ Forall (fun b => b.1 <> None /\ b.2 = (SourceCode.level src + 2)%Z)
              loops.
Proof.
  unfold emit_source. cbv zeta.
  destruct (_get_src_array_setup source eqs) as [err|s_setup]; [done|].
  cbn [bind]. unfold Locator_cython_code.
  destruct (locator_code (locator self)) as [lcode|]; [|done].
  cbn [bind ret].
  destruct (_get_initialization eqs) as [err|init]; [done|]. cbn [bind].
  destruct (for_each eqs _ _) as [err|src_l] eqn:Hloop; [done|].
  cbn [bind ret]. intros [= <-].
  apply loops_blocks in Hloop as (Hl & loops & Hc & Hall).
  cbn [SourceCode.add SourceCode.indent SourceCode.code SourceCode.level]
    in Hl, Hc, Hall.
  exists s_setup, lcode, init, loops. split; [done|].
  cbn [SourceCode.add SourceCode.dedent SourceCode.code SourceCode.level].
  destruct (posts_blocks eqs (SourceCode.dedent src_l)) as [Hpl Hpc].
  rewrite Hpl, Hpc.
  cbn [SourceCode.add SourceCode.dedent SourceCode.code SourceCode.level].
  rewrite Hl, Hc. split; [lia|]. split.
  - rewrite <- !(assoc_L (++)). cbn [app].
    replace (SourceCode.level src + 1 + 1 - 1)%Z
      with (SourceCode.level src + 1)%Z by lia.
    replace (SourceCode.level src + 1 - 1)%Z
      with (SourceCode.level src) by lia.
    done.
  - eapply Forall_impl; [exact Hall|]. intros b [Hb ->]. split; [done|lia].
Qed.

Lemma emit_source_ok (source : string) (eqs : list Equation)
    (src : SourceCode.t) :
  is_ok (emit_source self source eqs src)
  <-> locator_code (locator self) <> None
      /\ forall e, e ∈ eqs ->
           arrays (eq_code e) <> None /\ variables (eq_code e) <> None
           /\ temporaries (eq_code e) <> None /\ loop (eq_code e) <> None.
Proof.
  unfold emit_source. cbv zeta.
  pose proof (_get_src_array_setup_ok source eqs) as Hs.
  pose proof (_get_initialization_ok eqs) as Hi.
  destruct (_get_src_array_setup source eqs) as [err|s_setup]; cbn [bind].
  { split; [by intros [a Ha]|]. intros [_ Hall].
    destruct (proj2 Hs) as [a Ha]; [|done]. intros e He. by apply Hall. }
  unfold Locator_cython_code.
  destruct (locator_code (locator self)) as [lcode|]; cbn [bind ret raise];
    [|split; [by intros [a Ha]|by intros [Hl _]]].
  destruct (_get_initialization eqs) as [err|init]; cbn [bind].
  { split; [by intros [a Ha]|]. intros [_ Hall].
    destruct (proj2 Hi) as [a Ha]; [|done]. intros e He.
    destruct (Hall e He) as (_ & Hv & Ht & _). done. }
  rewrite is_ok_bind.
  match goal with
  | |- (exists a, for_each eqs ?body ?s = inr a /\ _) <-> _ =>
      pose proof (for_each_ok_iff (fun e => loop (eq_code e) <> None)
                    eqs body s) as Hloop
  end.
  cbv beta in Hloop. destruct Hloop as [Hloop1 Hloop2].
  { intros e t _. rewrite <- _get_equation_loop_ok.
    destruct (_get_equation_loop self e); cbn [bind ret].
    - split; by intros [a Ha].
    - split; intros _; by eexists. }
  split.
  - intros (src_l & Hl & _). split; [done|].
    intros e He.
    pose proof (Hloop1 ltac:(by eexists) e He).
    pose proof (proj1 Hs ltac:(by eexists) e He).
    pose proof (proj1 Hi ltac:(by eexists) e He) as [? ?]. done.
  - intros [_ Hall].
    destruct Hloop2 as [src_l Hl]; [intros e He; by apply Hall|].
    exists src_l. split; [done|]. by eexists.
Qed.

Section growth_of_blocks.
Variable ok : option string -> Prop.
Hypothesis ok_text : forall s, ok (Some s).

Lemma emit_source_grows (base : SourceCode.t) (source : string)
    (eqs : list Equation) (src src' : SourceCode.t) :
  ok_block ok self eqs ->
  grows ok base 0 src ->
  emit_source self source eqs src = inr src' ->
  grows ok base 0 src'.
Proof.
  intros [Hsetup Hpost] (Hl & blocks & Hc & Hall) Hemit.
  apply emit_source_blocks in Hemit
    as (s_setup & lcode & init & loops & Hloc & Hl' & Hc' & Hloops).
  split; [lia|]. eexists. split.
  { rewrite Hc', Hc, <- (assoc_L (++)). reflexivity. }
  apply Forall_app. split; [done|].
  repeat (apply Forall_app; split).
  - repeat constructor; cbn [fst snd]; try apply ok_text; try lia.
    by apply Hsetup.
  - eapply Forall_impl; [exact Hloops|]. intros [c l] [Hsome ->].
    cbn [fst snd] in *. split; [|lia].
    destruct c as [c|]; [apply ok_text|done].
  - apply Forall_fmap, Forall_forall. intros e He. cbn [fst snd compose].
    split; [by apply Hpost|lia].
  - repeat constructor; cbn [fst snd]; try apply ok_text; lia.
Qed.

Lemma emit_dest_grows (base : SourceCode.t) (dest : string)
    (sources : SourceMap) (src src' : SourceCode.t) :
  (forall s l, (s, l) ∈ sources -> ok_block ok self l) ->
  grows ok base 0 src ->
  emit_dest self dest sources src = inr src' ->
  grows ok base 0 src'.
Proof.
  intros Hblock Hg. unfold emit_dest. cbv zeta.
  destruct (_get_dest_array_setup dest sources) as [err|d_setup]; [done|].
  cbn [bind].
  destruct (for_each _ _ _) as [err|src_s] eqn:Hloop; [done|].
  cbn [bind ret]. intros [= <-].
  apply grows_add; [|apply ok_text|lia].
  revert Hloop. apply for_each_inv.
  - apply grows_add; [|apply ok_text|lia].
    apply grows_add; [done|apply ok_text|lia].
  - intros [s l] t t' Hin Ht. rewrite elem_of_dict_order in Hin.
    apply emit_source_grows; [|done]. by eapply Hblock.
Qed.

Lemma emit_group_grows (base : SourceCode.t) (g_idx : nat) (group : DestMap)
    (src src' : SourceCode.t) :
  (forall d ss s l, (d, ss) ∈ group -> (s, l) ∈ ss -> ok_block ok self l) ->
  grows ok base 0 src ->
  emit_group self g_idx group src = inr src' ->
  grows ok base 0 src'.
Proof.
  intros Hblock Hg. unfold emit_group. cbv zeta.
  destruct (for_each _ _ _) as [err|src_d] eqn:Hloop; [done|].
  cbn [bind ret]. intros [= <-].
  apply grows_add; [|apply ok_text|lia].
  revert Hloop. apply for_each_inv.
  - apply grows_add; [done|apply ok_text|lia].
  - intros [d ss] t t' Hin Ht.
    apply emit_dest_grows; [|done]. intros s l Hs. by eapply Hblock.
Qed.
End growth_of_blocks.

Lemma emit_source_none (source : string) (eqs : list Equation)
    (src src' : SourceCode.t) :
  emit_source self source eqs src = inr src' ->
  has_none src \/ leaves_none self eqs -> has_none src'.
Proof.
  intros Hemit Hor.
  apply emit_source_blocks in Hemit
    as (s_setup & lcode & init & loops & Hloc & Hl' & Hc' & Hloops).
  destruct Hor as [[l Hl]|[(lcode' & Hloc' & Hnone)|(e & He & Hnone)]].
  - exists l. rewrite Hc'. apply elem_of_app. by left.
  - rewrite Hloc in Hloc'. injection Hloc' as <-.
    exists (SourceCode.level src). rewrite Hc', Hnone.
    apply elem_of_app. right. apply elem_of_app. left.
    do 2 apply list_elem_of_further. apply list_elem_of_here.
  - exists (SourceCode.level src + 1)%Z. rewrite Hc'.
    apply elem_of_app. right. apply elem_of_app. right.
    apply elem_of_app. right. apply elem_of_app. left.
    apply list_elem_of_fmap. exists e. by rewrite Hnone.
Qed.

Lemma emit_dest_none (dest : string) (sources : SourceMap)
    (src src' : SourceCode.t) :
  emit_dest self dest sources src = inr src' ->
  has_none src
  \/ (exists s l, (s, l) ∈ sources /\ leaves_none self l) ->
  has_none src'.
Proof.
  unfold emit_dest. cbv zeta.
  destruct (_get_dest_array_setup dest sources) as [err|d_setup]; [done|].
  cbn [bind].
  destruct (for_each _ _ _) as [err|src_s] eqn:Hloop; [done|].
  cbn [bind ret]. intros [= <-] Hor. apply has_none_add.
  destruct Hor as [Hn|(s & l & Hin & Hleave)].
  - revert Hloop. apply for_each_inv; [by do 2 apply has_none_add|].
    intros [s l] t t' _ Ht Hemit. eapply emit_source_none; [done|by left].
  - revert Hloop. apply (for_each_mark has_none _ _ _ _ (s, l)).
    + intros [s' l'] t t' _ Hemit Ht.
      eapply emit_source_none; [done|by left].
    + by apply elem_of_dict_order.
    + intros t t' Hemit. eapply emit_source_none; [done|by right].
Qed.

Lemma emit_group_none (g_idx : nat) (group : DestMap)
    (src src' : SourceCode.t) :
  emit_group self g_idx group src = inr src' ->
  has_none src
  \/ (exists d ss s l, (d, ss) ∈ group /\ (s, l) ∈ ss /\ leaves_none self l) ->
  has_none src'.
Proof.
  unfold emit_group. cbv zeta.
  destruct (for_each _ _ _) as [err|src_d] eqn:Hloop; [done|].
  cbn [bind ret]. intros [= <-] Hor. apply has_none_add.
  destruct Hor as [Hn|(d & ss & s & l & Hd & Hin & Hleave)].
  - revert Hloop. apply for_each_inv; [by apply has_none_add|].
    intros [d ss] t t' _ Ht Hemit. eapply emit_dest_none; [done|by left].
  - revert Hloop. apply (for_each_mark has_none _ _ _ _ (d, ss)).
    + intros [d' ss'] t t' _ Hemit Ht.
      eapply emit_dest_none; [done|by left].
    + done.
    + intros t t' Hemit. eapply emit_dest_none; [done|].
      right. by exists s, l.
Qed.

Lemma emit_dest_ok (dest : string) (sources : SourceMap)
    (src : SourceCode.t) :
  is_ok (emit_dest self dest sources src)
  <-> forall s l, (s, l) ∈ sources ->
        locator_code (locator self) <> None
        /\ forall e, e ∈ l -> block_keys e.
Proof.
  unfold emit_dest. cbv zeta.
  pose proof (_get_dest_array_setup_ok dest sources) as Hd.
  destruct (_get_dest_array_setup dest sources) as [err|d_setup]; cbn [bind].
  { split; [by intros [a Ha]|]. intros Hall.
    destruct (proj2 Hd) as [a Ha]; [|done]. intros s l e Hin He.
    destruct (Hall s l Hin) as [_ Hk]. by destruct (Hk e He) as [? _]. }
  rewrite is_ok_bind.
  match goal with
  | |- (exists a, for_each ?l ?body ?s = inr a /\ _) <-> _ =>
      pose proof (for_each_ok_iff
                    (fun p => locator_code (locator self) <> None
                              /\ forall e, e ∈ p.2 -> block_keys e)
                    l body s) as Hloop
  end.
  cbv beta in Hloop. destruct Hloop as [Hloop1 Hloop2].
  { intros [s l] t _. apply emit_source_ok. }
  split.
  - intros (src_s & Hl & _) s l Hin.
    apply (Hloop1 ltac:(by eexists) (s, l)). by apply elem_of_dict_order.
  - intros Hall. destruct Hloop2 as [src_s Hl].
    + intros [s l] Hin. rewrite elem_of_dict_order in Hin.
      exact (Hall s l Hin).
    + exists src_s. split; [done|]. by eexists.
Qed.

Lemma emit_group_ok (g_idx : nat) (group : DestMap) (src : SourceCode.t) :
  is_ok (emit_group self g_idx group src)
  <-> forall d ss s l, (d, ss) ∈ group -> (s, l) ∈ ss ->
        locator_code (locator self) <> None
        /\ forall e, e ∈ l -> block_keys e.
Proof.
  unfold emit_group. cbv zeta. rewrite is_ok_bind.
  match goal with
  | |- (exists a, for_each ?items ?body ?st = inr a /\ _) <-> _ =>
      pose proof (for_each_ok_iff
                    (fun p => forall s l, (s, l) ∈ p.2 ->
                                locator_code (locator self) <> None
                                /\ forall e, e ∈ l -> block_keys e)
                    items body st) as Hloop
  end.
  cbv beta in Hloop. destruct Hloop as [Hloop1 Hloop2].
  { intros [d ss] t _. apply emit_dest_ok. }
  split.
  - intros (src_d & Hl & _) d ss s l Hd Hin.
    by apply (Hloop1 ltac:(by eexists) (d, ss) Hd s l).
  - intros Hall. destruct Hloop2 as [src_d Hl].
    + intros [d ss] Hd s l Hin. by eapply Hall.
    + exists src_d. split; [done|]. by eexists.
Qed.

(** X15.  The block of a group keeps the buffer balanced: when
    [emit_group] returns, the level is the one it started at, the blocks
    held before are untouched, and what was added is the opening comment of
    the group, then blocks at the starting level or at most two levels
    above it, then the closing comment, both comments at the starting
    level. *)
Theorem emit_group_balanced (g_idx : nat) (group : DestMap)
    (src src' : SourceCode.t) :
  emit_group self g_idx group src = inr src' ->
  SourceCode.level src' = SourceCode.level src
  /\ exists blocks,
       SourceCode.code src'
       = SourceCode.code src
         ++ [(Some ("# Group " +:+ string_of_nat g_idx +:+ "." +:+ nl),
              SourceCode.level src)]
         ++ blocks
         ++ [(Some ("# Group " +:+ string_of_nat g_idx +:+ " done."),
              SourceCode.level src)]
       /\ Forall (fun b => (SourceCode.level src <= b.2
                            <= SourceCode.level src + 2)%Z) blocks.
Proof.
  unfold emit_group. cbv zeta.
  destruct (for_each _ _ _) as [err|src_d] eqn:Hloop; [done|].
  cbn [bind ret]. intros [= <-].
  apply (for_each_inv
           (grows (fun _ => True)
              (SourceCode.add
                 (Some ("# Group " +:+ string_of_nat g_idx +:+ "." +:+ nl))
                 src) 0)) in Hloop.
  - destruct Hloop as (Hl & blocks & Hc & Hall).
    cbn [SourceCode.add SourceCode.code SourceCode.level] in *.
    split; [lia|]. exists blocks. split.
    + rewrite Hc, <- !(assoc_L (++)).
      replace (SourceCode.level src_d) with (SourceCode.level src) by lia.
      done.
    + eapply Forall_impl; [exact Hall|]. by intros b [_ Hb].
  - apply grows_refl.
  - intros [d ss] t t' _ Ht. by apply emit_dest_grows.
Qed.

Lemma grows_some_has_none (base src : SourceCode.t) (d : Z) :
  grows (fun c => c <> None) base d src -> has_none src -> has_none base.
Proof.
  intros (_ & blocks & Hc & Hall) [l Hl]. rewrite Hc in Hl.
  apply elem_of_app in Hl as [Hl|Hl]; [by exists l|].
  rewrite Forall_forall in Hall. by destruct (Hall _ Hl) as [? _].
Qed.

Lemma SourceCode_get_ok (src : SourceCode.t) :
  is_ok (SourceCode.get src) <-> ~ has_none src.
Proof.
  split.
  - intros Hok [l Hl]. revert Hok. by apply (SourceCode_get_absent src l).
  - intros Hsome. unfold SourceCode.get. apply is_ok_bind.
    destruct (for_each_ok (SourceCode.code src)
                (fun '(c, l) acc =>
                   let* s := SourceCode._indented_code c l in
                   ret (acc ++ [s])) []) as [lines Hlines].
    + intros [[c|] l] t Hin; [by eexists|]. destruct Hsome. by exists l.
    + exists lines. split; [done|]. apply is_ok_ret.
Qed.

Lemma _get_array_declarations_ok :
  is_ok (_get_array_declarations self)
  <-> forall e, e ∈ all_equations self -> arrays (eq_code e) <> None.
Proof.
  split.
  - intros Hok e He Hnone.
    by apply (_get_array_declarations_absent self e He Hnone).
  - intros Hall.
    destruct (_get_array_declarations_fold self Hall) as (decl & -> & _).
    by eexists.
Qed.

Lemma _check_and_get_variables_ok :
  is_ok (_check_and_get_variables self)
  <-> consistent_declarations (all_equations self).
Proof.
  split; [apply check_passes_consistent|].
  intros Hc. rewrite (consistent_declarations_check self Hc). by eexists.
Qed.

(** When the body can be produced. *)
Lemma _get_body_ok :
  is_ok (_get_body self)
  <-> consistent_declarations (all_equations self)
      /\ (forall e, e ∈ all_equations self -> arrays (eq_code e) <> None)
      /\ (forall g d ss s l,
            g ∈ groups self -> (d, ss) ∈ g -> (s, l) ∈ ss ->
            (exists lcode, locator_code (locator self) = Some lcode
                           /\ setup lcode <> None)
            /\ forall e, e ∈ l ->
                 block_keys e /\ post (eq_code e) <> None).
Proof.
  unfold _get_body.
  pose proof _check_and_get_variables_ok as Hcheck.
  pose proof _get_array_declarations_ok as Harr.
  destruct (_check_and_get_variables self) as [err|[vars tmps]]; cbn [bind].
  { split; [by intros [a Ha]|]. intros [Hc _].
    by destruct (proj2 Hcheck Hc) as [a Ha]. }
  cbv zeta.
  destruct (_get_array_declarations self) as [err|a_decl]; cbn [bind].
  { split; [by intros [a Ha]|]. intros (_ & Ha & _).
    by destruct (proj2 Harr Ha) as [a Ha']. }
  rewrite is_ok_bind.
  match goal with
  | |- (exists a, for_each ?items ?body ?st = inr a /\ _) <-> _ =>
      pose proof (for_each_ok_iff
                    (fun p => forall d ss s l,
                       (d, ss) ∈ p.2 -> (s, l) ∈ ss ->
                       locator_code (locator self) <> None
                       /\ forall e, e ∈ l -> block_keys e)
                    items body st) as Hloop;
      pose proof (fun s' => for_each_inv
                    (grows (fun c => c <> None) st 0) items body st s'
                    (grows_refl _ st)) as Hgrow;
      pose proof (fun x s' => for_each_mark has_none items body st s' x)
        as Hmark;
      set (start := st) in *
  end.
  cbv beta in Hloop. destruct Hloop as [Hloop1 Hloop2].
  { intros [i g] t _. apply emit_group_ok. }
  assert (Hstart : ~ has_none start).
  { intros [l Hl]. subst start.
    cbn [SourceCode.add SourceCode.indent SourceCode.code SourceCode.new app]
      in Hl.
    repeat (apply elem_of_cons in Hl as [[= ]|Hl]). by inversion Hl. }
  assert (Hkeep : forall y t t',
    y ∈ enumerate (groups self) ->
    (let '(g_idx, group) := y in emit_group self g_idx group) t = inr t' ->
    has_none t -> has_none t').
  { intros [i g] t t' _ Hemit Ht. eapply emit_group_none; [done|by left]. }
  split.
  - intros (src & Hl & Hget). apply SourceCode_get_ok in Hget.
    split; [apply Hcheck; by eexists|].
    split; [apply Harr; by eexists|].
    intros g d ss s l Hg Hd Hs.
    destruct (enumerate_elem_of _ _ Hg) as [i Hi].
    destruct (Hloop1 ltac:(by eexists) (i, g) Hi d ss s l Hd Hs)
      as [Hloc Hkeys].
    assert (Hleave : ~ leaves_none self l).
    { intros Hleave. apply Hget.
      apply (Hmark (i, g) src Hkeep Hi); [|done].
      intros t t' Hemit. eapply emit_group_none; [done|].
      right. by exists d, ss, s, l. }
    split.
    + destruct (locator_code (locator self)) as [lcode|] eqn:Hlc; [|done].
      exists lcode. split; [done|]. intros Hnone. apply Hleave. left.
      by exists lcode.
    + intros e He. split; [by apply Hkeys|].
      intros Hnone. apply Hleave. right. by exists e.
  - intros (_ & _ & Hall). destruct Hloop2 as [src Hl].
    + intros [i g] Hi d ss s l Hd Hs.
      apply elem_of_enumerate in Hi.
      destruct (Hall g d ss s l Hi Hd Hs) as [(lcode & Hlc & _) Hkeys].
      split; [by rewrite Hlc|]. intros e He. by apply Hkeys.
    + exists src. split; [done|]. apply SourceCode_get_ok.
      intros Hn. apply Hstart.
      eapply grows_some_has_none; [|exact Hn].
      apply Hgrow; [|done]. intros [i g] t t' Hi Ht.
      apply elem_of_enumerate in Hi.
      apply emit_group_grows; [done| |done].
      intros d ss s l Hd Hs.
      destruct (Hall g d ss s l Hi Hd Hs) as [(lcode & Hlc & Hsetup) Hkeys].
      split.
      * intros lcode' Hlc'. rewrite Hlc in Hlc'. by injection Hlc' as <-.
      * intros e He. by destruct (Hkeys e He) as [_ ?].
Qed.

Lemma _get_helpers_ok :
  is_ok (_get_helpers self) <-> locator_code (locator self) <> None.
Proof.
  unfold _get_helpers, Locator_cython_code.
  destruct (locator_code (locator self)); cbn [bind ret raise].
  - split; [done|]. intros _. by eexists.
  - split; [by intros [a Ha]|done].
Qed.

Lemma generate_ok (fp : Sink) :
  (exists text, generate self fp = (inr tt, fp ++ [text]))
  <-> is_ok (_get_helpers self) /\ is_ok (_get_body self).
Proof.
  destruct (generate_cases self fp)
    as [(e & Hg & Hwhy)|(code & body & Hh & Hb & Hg)].
  - split.
    + intros [text Ht]. rewrite Hg in Ht. done.
    + intros [[code Hh] [body Hb]].
      destruct Hwhy as [Hh'|[_ Hb']]; [by rewrite Hh in Hh'|].
      by rewrite Hb in Hb'.
  - split; [|intros _; by eexists]. intros _. split; by eexists.
Qed.
End blocks.

Lemma Forall2_elem_of_r {A B} (P : A -> B -> Prop) (l : list A) (k : list B) y :
  Forall2 P l k -> y ∈ k -> exists x, x ∈ l /\ P x y.
Proof.
  induction 1 as [|x y' l k Hxy _ IH]; intros Hy; [by inversion Hy|].
  apply elem_of_cons in Hy as [->|Hy].
  - exists x. split; [left|done].
  - destruct (IH Hy) as (x' & Hx' & HP). exists x'. split; [by right|done].
Qed.

Lemma Forall2_elem_of_l {A B} (P : A -> B -> Prop) (l : list A) (k : list B) x :
  Forall2 P l k -> x ∈ l -> exists y, y ∈ k /\ P x y.
Proof.
  induction 1 as [|x' y l k Hxy _ IH]; intros Hx; [by inversion Hx|].
  apply elem_of_cons in Hx as [->|Hx].
  - exists y. split; [left|done].
  - destruct (IH Hx) as (y' & Hy' & HP). exists y'. split; [by right|done].
Qed.

Lemma elem_of_source_entries (eqs : list Equation) s e :
  (s, e) ∈ source_entries eqs <-> e ∈ eqs /\ s ∈ srcs_of e.
Proof.
  unfold source_entries. rewrite elem_of_concat_fmap. split.
  - intros (e' & He' & Hin).
    apply list_elem_of_fmap in Hin as (s' & [= -> ->] & Hs). done.
  - intros [He Hs]. exists e. split; [done|].
    apply list_elem_of_fmap. by exists s.
Qed.

(** The equations a destination map lists are those of the group that name
    a source. *)
Lemma _make_group_listed (g : Group) (dests : DestMap) e :
  _make_group g = inr dests ->
  (exists d ss s l, (d, ss) ∈ dests /\ (s, l) ∈ ss /\ e ∈ l)
  <-> e ∈ equations g /\ srcs_of e <> [].
Proof.
  intros Hg. split.
  - intros (d & ss & s & l & Hd & Hs & He).
    destruct (_make_group_result g dests Hg) as [[_ ->]|(m & Hm & _)];
      [by inversion Hd|].
    destruct (_make_group_of_sources g m Hm) as (dests' & Hg' & _ & Hall).
    rewrite Hg in Hg'. injection Hg' as <-.
    rewrite (Hall _ _ Hd) in Hs.
    rewrite (sources_of_group_grouped _ _ Hm) in Hs.
    apply elem_of_grouped in Hs as [_ ->].
    apply elem_of_values_of, elem_of_source_entries in He as [He Hin].
    split; [done|]. intros Hnil. rewrite Hnil in Hin. by inversion Hin.
  - intros [He Hsrcs].
    destruct (sources e) as [srcs|] eqn:Hsome.
    2:{ exfalso. by apply (_make_group_none_sources g e He Hsome); eexists. }
    unfold srcs_of in Hsrcs. rewrite Hsome in Hsrcs. cbn in Hsrcs.
    destruct srcs as [|s srcs]; [done|].
    destruct (sources_of_group (equations g)) as [err|m] eqn:Hm.
    { rewrite _make_group_unfold, Hm in Hg.
      pose proof (dest_list_of_complete _ _ He) as Hd.
      destruct (dest_list_of (equations g)); [by inversion Hd|done]. }
    destruct (_make_group_of_sources g m Hm) as (dests' & Hg' & Hkeys & Hall).
    rewrite Hg in Hg'. injection Hg' as <-.
    pose proof (proj2 (Hkeys (dest e)) (dest_list_of_complete _ _ He)) as Hd.
    apply list_elem_of_fmap in Hd as ([d ss] & Hdeq & Hd). cbn in Hdeq.
    destruct (_make_group_lists_every_equation g dests d ss e (s :: srcs) s
                Hg Hd He Hsome ltac:(left)) as (l & Hs & Hl).
    by exists d, ss, s, l.
Qed.

Lemma SPHEval_init_result (pas : list ParticleArray) (l : list Element)
    (loc : Locator) (ker : Kernel) (self : SPHEval) :
  SPHEval_init pas l loc ker = inr self ->
  locator self = loc
  /\ all_equations self = flatten_elements l
  /\ Forall2 (fun g d => _make_group g = inr d)
             (equation_groups self) (groups self).
Proof.
  unfold SPHEval_init.
  destruct (check_equations_cases l)
    as [[Hr Hmixed]|(gs & Hr & Hne & Hflat & Hnot)]; rewrite Hr; cbn [bind];
    [done|].
  destruct (map_result _make_group gs) as [err|ds] eqn:Hds; cbn [bind ret];
    [done|].
  intros [= <-]. unfold all_equations. cbn.
  repeat split; try done. by apply map_result_Forall2.
Qed.

Lemma SPHEval_init_ok (pas : list ParticleArray) (l : list Element)
    (loc : Locator) (ker : Kernel) :
  is_ok (SPHEval_init pas l loc ker)
  <-> ~ (exists e g, AnEquation e ∈ l /\ AGroup g ∈ l)
      /\ forall e, e ∈ flatten_elements l -> sources e <> None.
Proof.
  unfold SPHEval_init.
  destruct (check_equations_cases l)
    as [[Hr Hmixed]|(gs & Hr & Hne & Hflat & Hnot)]; rewrite Hr; cbn [bind].
  { split; [by intros [a Ha]|]. by intros [Hnot _]. }
  assert (Hgs : is_ok (map_result _make_group gs)
                <-> forall e, e ∈ flatten_elements l -> sources e <> None).
  { rewrite map_result_ok, <- Hflat. split.
    - intros Hall e He. apply elem_of_concat_equations in He as (g & Hg & He).
      by apply (proj1 (_make_group_ok_iff g) (Hall g Hg)).
    - intros Hall g Hg. apply _make_group_ok_iff. intros e He.
      apply Hall, elem_of_concat_equations. by exists g. }
  destruct (map_result _make_group gs) as [err|ds] eqn:Hds; cbn [bind ret].
  - split; [by intros [a Ha]|].
    intros [_ Hall]. apply Hgs in Hall as [a Ha]. done.
  - split; [|by eexists]. intros _. split; [done|].
    apply Hgs. by eexists.
Qed.

(** The equations some block is emitted for. *)
Lemma listed_equations (self : SPHEval) e :
  Forall2 (fun g d => _make_group g = inr d)
          (equation_groups self) (groups self) ->
  (exists g d ss s l, g ∈ groups self /\ (d, ss) ∈ g /\ (s, l) ∈ ss /\ e ∈ l)
  <-> e ∈ all_equations self /\ srcs_of e <> [].
Proof.
  intros Hf. unfold all_equations. rewrite elem_of_concat_equations. split.
  - intros (g & d & ss & s & l & Hg & Hd & Hs & He).
    destruct (Forall2_elem_of_r _ _ _ _ Hf Hg) as (eg & Heg & Hmk).
    destruct (proj1 (_make_group_listed eg g e Hmk)) as [He' Hsrcs].
    { by exists d, ss, s, l. }
    split; [by exists eg|done].
  - intros [(eg & Heg & He) Hsrcs].
    destruct (Forall2_elem_of_l _ _ _ _ Hf Heg) as (g & Hg & Hmk).
    destruct (proj2 (_make_group_listed eg g e Hmk)) as (d & ss & s & l & ?);
      [done|].
    by exists g, d, ss, s, l.
Qed.

Lemma _make_group_listed_nonempty (g : Group) (dests : DestMap) d ss s l :
  _make_group g = inr dests -> (d, ss) ∈ dests -> (s, l) ∈ ss ->
  exists e, e ∈ l.
Proof.
  intros Hg Hd Hs.
  destruct (_make_group_result g dests Hg) as [[_ ->]|(m & Hm & _)];
    [by inversion Hd|].
  destruct (_make_group_of_sources g m Hm) as (dests' & Hg' & _ & Hall).
  rewrite Hg in Hg'. injection Hg' as <-.
  rewrite (Hall _ _ Hd) in Hs.
  rewrite (sources_of_group_grouped _ _ Hm) in Hs.
  apply elem_of_grouped in Hs as [Hk ->].
  apply values_of_nonempty in Hk.
  destruct (values_of s (source_entries (equations g))) as [|e l'];
    [simpl in Hk; lia|].
  exists e. left.
Qed.

(** ** When generation succeeds *)

(** X16.  Building an evaluator and generating writes a text, one text
    after what the sink held, exactly when: the list does not mix bare
    equations with groups; the declarations are consistent; the locator
    implements [cython_code]; every equation carries a list of sources and
    an [arrays] key; and, as soon as an equation names a source, the
    locator's code has a [setup] key and that equation has the keys
    [variables], [temporaries], [loop] and [post].  An equation with an
    empty list of sources needs none of the four: no block is emitted for
    it. *)
Theorem generation_succeeds_iff `{IterationOrder}
    (pas : list ParticleArray) (l : list Element) (loc : Locator)
    (ker : Kernel) (fp : Sink) :
  (exists text, build_and_generate pas l loc ker fp = (inr tt, fp ++ [text]))
  <-> ~ (exists e g, AnEquation e ∈ l /\ AGroup g ∈ l)
      /\ consistent_declarations (flatten_elements l)
      /\ (exists lcode,
            locator_code loc = Some lcode
            /\ forall e, e ∈ flatten_elements l -> srcs_of e <> [] ->
                         setup lcode <> None)
      /\ (forall e, e ∈ flatten_elements l ->
            sources e <> None /\ arrays (eq_code e) <> None
            /\ (srcs_of e <> [] -> emits e)).
Proof.
  unfold build_and_generate, io_bind, io_pure.
  pose proof (SPHEval_init_ok pas l loc ker) as Hinit_ok.
  destruct (SPHEval_init pas l loc ker) as [err|self] eqn:Hinit.
  { split; [by intros [text Ht]|].
    intros (Hnot & _ & _ & Hall).
    destruct (proj2 Hinit_ok) as [a Ha]; [|done].
    split; [done|]. intros e He. by destruct (Hall e He) as [? _]. }
  destruct (SPHEval_init_result _ _ _ _ _ Hinit) as (Hloc & Heqs & Hf).
  destruct (proj1 Hinit_ok ltac:(by eexists)) as [Hnot Hsources].
  rewrite generate_ok, _get_helpers_ok, _get_body_ok, Hloc, Heqs.
  pose proof (listed_equations self) as Hlisted.
  rewrite Heqs in Hlisted.
  split.
  - intros (Hsome & Hcons & Harr & Hblocks).
    split; [done|]. split; [done|].
    assert (Hof : forall e, e ∈ flatten_elements l -> srcs_of e <> [] ->
              (exists lcode, locator_code loc = Some lcode
                             /\ setup lcode <> None)
              /\ block_keys e /\ post (eq_code e) <> None).
    { intros e He Hsrcs.
      destruct (proj2 (Hlisted e Hf)) as (g & d & ss & s & l' & Hg & Hd & Hs & Hl);
        [done|].
      destruct (Hblocks g d ss s l' Hg Hd Hs) as [Hsetup Hkeys].
      split; [done|]. by apply Hkeys. }
    split.
    + destruct (locator_code loc) as [lcode|] eqn:Hlc; [|done].
      exists lcode. split; [done|]. intros e He Hsrcs.
      destruct (Hof e He Hsrcs) as [(lcode' & [= <-] & Hsetup) _]. done.
    + intros e He. split; [by apply Hsources|]. split; [by apply Harr|].
      intros Hsrcs.
      destruct (Hof e He Hsrcs) as (_ & (_ & Hv & Ht & Hl) & Hp). done.
  - intros (_ & Hcons & (lcode & Hlc & Hsetup) & Hall).
    split; [by rewrite Hlc|]. split; [done|].
    split; [intros e He; by destruct (Hall e He) as (_ & ? & _)|].
    intros g d ss s l' Hg Hd Hs.
    assert (Hof : forall e, e ∈ l' ->
              e ∈ flatten_elements l /\ srcs_of e <> []).
    { intros e He. apply (Hlisted e Hf). by exists g, d, ss, s, l'. }
    split.
    + exists lcode. split; [done|].
      destruct (Forall2_elem_of_r _ _ _ _ Hf Hg) as (eg & _ & Hmk).
      destruct (_make_group_listed_nonempty eg g d ss s l' Hmk Hd Hs)
        as [e He].
      destruct (Hof e He) as [Hin Hsrcs]. by apply (Hsetup e).
    + intros e He. destruct (Hof e He) as [Hin Hsrcs].
      destruct (Hall e Hin) as (_ & Harr & Hemits).
      destruct (Hemits Hsrcs) as (Hv & Ht & Hlp & Hp). done.
Qed.

Lemma generation_succeeds_iff_witness :
  exists text,
    @build_and_generate insertion_order []
       [AnEquation (SummationDensity "fluid" (Some ["fluid"]))]
       AllPairLocator CubicSpline ["written before"]
    = (inr tt, ["written before"; text]).
Proof.
  apply (proj2 (@generation_succeeds_iff insertion_order []
                  [AnEquation (SummationDensity "fluid" (Some ["fluid"]))]
                  AllPairLocator CubicSpline ["written before"])).
  split.
  { intros (e & g & _ & Hg).
    apply elem_of_cons in Hg as [[=]|Hg]. by inversion Hg. }
  split.
  { apply (@check_passes_consistent insertion_order
             (evaluator_of [SummationDensity "fluid" (Some ["fluid"])])).
    eexists. vm_compute. reflexivity. }
  split.
  { eexists. split; [reflexivity|]. intros _ _ _. discriminate. }
  intros e He. apply elem_of_cons in He as [->|He]; [|by inversion He].
  split; [discriminate|]. split; [discriminate|]. intros _.
  repeat split; discriminate.
Defined.

Lemma emit_group_balanced_witness :
  exists src',
    @emit_group insertion_order
       (evaluator_of [SummationDensity "fluid" (Some ["fluid"])]) 0
       [("fluid", [("fluid", [SummationDensity "fluid" (Some ["fluid"])])])]
       (SourceCode.indent SourceCode.new)
    = inr src'
    /\ SourceCode.level src' = 1%Z.
Proof.
  assert (Hrun : is_ok (@emit_group insertion_order
       (evaluator_of [SummationDensity "fluid" (Some ["fluid"])]) 0
       [("fluid", [("fluid", [SummationDensity "fluid" (Some ["fluid"])])])]
       (SourceCode.indent SourceCode.new))).
  { eexists. vm_compute. reflexivity. }
  destruct Hrun as [src' Hrun]. exists src'. split; [exact Hrun|].
  apply (@emit_group_balanced insertion_order _ _ _ _ _ Hrun).
Defined.

(* ===================================================================== *)
(** ** Loops that hold no token *)
(* ===================================================================== *)

Lemma occurs_cons_false (c : ascii) (s p : string) :
  occurs (String c s) p = false ->
  startswith (String c s) p = false /\ occurs s p = false.
Proof.
  cbn [occurs]. intros Hor. by apply orb_false_iff in Hor.
Qed.

Lemma replace_from_absent (old new s : string) :
  occurs s old = false -> replace_from old new 0 s = s.
Proof.
  induction s as [|c s IH]; intros Hocc; [done|].
  apply occurs_cons_false in Hocc as [Hstart Hocc].
  cbn [replace_from]. rewrite Hstart. by rewrite IH.
Qed.

(** X17.  A loop that holds neither [KERNEL] nor [GRADIENT] is returned
    as it is, whatever the class of the kernel. *)
Theorem equation_loop_without_tokens (self : SPHEval) (equation : Equation)
    (code : string) :
  loop (eq_code equation) = Some code ->
  occurs code "KERNEL" = false -> occurs code "GRADIENT" = false ->
  _get_equation_loop self equation = inr code.
Proof.
  intros Hloop Hk Hg. unfold _get_equation_loop. rewrite Hloop.
  unfold replace. cbn [ret].
  by rewrite (replace_from_absent "KERNEL" _ code Hk),
    (replace_from_absent "GRADIENT" _ code Hg).
Qed.

Lemma equation_loop_without_tokens_witness :
  _get_equation_loop
    (with_kernel GRADIENTCorrected (evaluator_of []))
    {| eq_class := "Damping"; dest := "fluid"; sources := Some ["fluid"];
       eq_code := {| variables := Some []; temporaries := Some [];
                     arrays := Some ["d_u"];
                     loop := Some "d_u[d_idx] = 0.5*d_u[d_idx]";
                     post := Some ""; helper := None; setup := None |} |}
  = inr "d_u[d_idx] = 0.5*d_u[d_idx]".
Proof.
  apply equation_loop_without_tokens; reflexivity.
Defined.

Lemma particle_array_wrapper_spec_witness :
  exists names,
    @define_particle_array_wrapper insertion_order
      [ {| pa_name := "fluid"; properties := ["x"; "tag"; "rho"] |};
        {| pa_name := "solid"; properties := ["x"; "pid"] |} ]
    = ParticleArrayWrapper_template (join ", " names)
    /\ NoDup names /\ "rho" ∈ names /\ "tag" ∉ names.
Proof.
  destruct (@particle_array_wrapper_spec insertion_order
      [ {| pa_name := "fluid"; properties := ["x"; "tag"; "rho"] |};
        {| pa_name := "solid"; properties := ["x"; "pid"] |} ])
    as (names & Heq & Hnd & Hin).
  exists names. split; [exact Heq|]. split; [exact Hnd|]. split.
  - apply Hin. split.
    + eexists. split; [apply list_elem_of_here|].
      do 2 apply list_elem_of_further. apply list_elem_of_here.
    + unfold reserved_props. intros Hr.
      repeat (apply elem_of_cons in Hr as [Hr|Hr]; [discriminate|]).
      inversion Hr.
  - intros Hn. apply Hin in Hn as [_ Hn]. apply Hn.
    apply list_elem_of_here.
Defined.
